(** * Brand voice knowledge pipeline: a shallow embedding in Rocq

    This development embeds the document-to-knowledge pipeline of the
    repository: the cosine similarity of [src/lib/ai/embeddings.ts] and
    [src/lib/db/queries/brand-voice.ts], the similarity search
    [findSimilarBrandVoice], the retrieval presets of
    [src/lib/ai/brand-voice-rag.ts], the batched embedding generator, the
    text chunker of [src/lib/utils/hubspot.ts] and the ingestion service
    ([src/unnamed/part_006]).

    Conventions.
    - JavaScript strings are lists of 8-bit characters ([list ascii]).
    - JavaScript numbers used as counters and positions are [Z]; numbers used
      as embedding coordinates and similarities are real numbers [R].
    - A JavaScript function that may throw returns an [Outcome]: [Ret v] for a
      normal return, [Throw e] for a thrown value. Loops that may not
      terminate take a fuel argument; running out of fuel is [Hang].
    - External collaborators (OpenAI, Postgres, the file system, pdf-parse)
      are oracles: functions of the request, collected in a record. *)

From Stdlib Require Import ZArith Lia List Ascii String Bool Reals Lra Sorted Permutation.
Import ListNotations.
Open Scope Z_scope.

(** ** Outcomes of JavaScript calls *)

(** A thrown value: an [Error] object with its message, or any other value
    (for which the code prints ['Unknown error']). *)
Inductive JsError : Type :=
| ErrorObj (message : list ascii)
| NonError.

Inductive Outcome (A : Type) : Type :=
| Ret (a : A)
| Throw (e : JsError)
| Hang.
Arguments Ret {A} a.
Arguments Throw {A} e.
Arguments Hang {A}.

Definition bind {A B} (m : Outcome A) (k : A -> Outcome B) : Outcome B :=
  match m with
  | Ret a => k a
  | Throw e => Throw e
  | Hang => Hang
  end.

Notation "x <- m ;; k" := (bind m (fun x => k))
  (at level 61, m at next level, right associativity).

(** ** JavaScript string and array primitives *)

Module JS.

Definition jsstr := list ascii.

(** A string literal as a JavaScript string. *)
Definition lit (s : string) : jsstr := list_ascii_of_string s.

Definition len {A} (l : list A) : Z := Z.of_nat (List.length l).

(** The relative-index clamp of [Array.prototype.slice]: a negative index
    counts from the end. *)
Definition slice_index (n x : Z) : Z :=
  if x <? 0 then Z.max (n + x) 0 else Z.min x n.

(** [l.slice(s, e)]. *)
Definition slice {A} (l : list A) (s e : Z) : list A :=
  let s' := slice_index (len l) s in
  let e' := slice_index (len l) e in
  firstn (Z.to_nat (e' - s')) (skipn (Z.to_nat s') l).

(** [s.substring(a, b)]: both ends clamped to [0, length], swapped when the
    first exceeds the second. *)
Definition substring (s : jsstr) (a b : Z) : jsstr :=
  let a' := Z.min (Z.max a 0) (len s) in
  let b' := Z.min (Z.max b 0) (len s) in
  let from := Z.min a' b' in
  let to := Z.max a' b' in
  firstn (Z.to_nat (to - from)) (skipn (Z.to_nat from) s).

Fixpoint is_prefix (p s : jsstr) : bool :=
  match p, s with
  | [], _ => true
  | c :: p', d :: s' => Ascii.eqb c d && is_prefix p' s'
  | _ :: _, [] => false
  end.

(** The highest index [k <= n] where [sub] occurs in [s], or [-1]. *)
Fixpoint last_match_from (s sub : jsstr) (n : nat) : Z :=
  if is_prefix sub (skipn n s) then Z.of_nat n
  else match n with
       | O => -1
       | S m => last_match_from s sub m
       end.

(** [s.lastIndexOf(sub, pos)]: the last occurrence starting at or before
    [pos] (clamped to [0, length]). *)
Definition lastIndexOf (s sub : jsstr) (pos : Z) : Z :=
  let start := Z.min (Z.max pos 0) (len s) in
  let top := Z.min start (len s - len sub) in
  if top <? 0 then -1 else last_match_from s sub (Z.to_nat top).

(** [s.includes(sub)]. *)
Fixpoint includes (s sub : jsstr) : bool :=
  is_prefix sub s ||
  match s with
  | [] => false
  | _ :: s' => includes s' sub
  end.

(** [s.endsWith(suffix)]. *)
Definition endsWith (s suffix : jsstr) : bool :=
  is_prefix (rev suffix) (rev s).

(** [toLowerCase] on Latin-1 characters: A-Z and the Latin-1 capitals
    (except the multiplication sign) are shifted by 32. *)
Definition lower_char (c : ascii) : ascii :=
  let n := nat_of_ascii c in
  if ((65 <=? n) && (n <=? 90))%nat
     || ((192 <=? n) && (n <=? 222) && negb (n =? 215))%nat
  then ascii_of_nat (n + 32) else c.

Definition toLowerCase (s : jsstr) : jsstr := map lower_char s.

(** White space and line terminators of [String.prototype.trim] in Latin-1:
    tab, LF, VT, FF, CR, space and no-break space. *)
Definition is_js_space (c : ascii) : bool :=
  let n := nat_of_ascii c in
  ((9 <=? n) && (n <=? 13))%nat || (n =? 32)%nat || (n =? 160)%nat.

Fixpoint trim_start (s : jsstr) : jsstr :=
  match s with
  | c :: s' => if is_js_space c then trim_start s' else s
  | [] => []
  end.

Definition trim (s : jsstr) : jsstr := rev (trim_start (rev (trim_start s))).

End JS.

Import JS.

(** ** Embedding vectors and cosine similarity *)

(** Numbers are exact reals here, not IEEE doubles: rounding, underflow
    and overflow are not modelled. *)
Module Vec.

Local Open Scope R_scope.

Definition vector := list R.

(** The body of the [for (let i = 0; i < a.length; i++)] loop of both
    [cosineSimilarity] functions, accumulating [dotProduct], [magnitudeA]
    and [magnitudeB] from left to right. Both functions check
    [a.length === b.length] first, so [a[i]] and [b[i]] are read in
    lockstep. *)
Fixpoint cos_loop (acc : R * R * R) (a b : vector) : R * R * R :=
  match a, b with
  | x :: a', y :: b' =>
      let '(d, ma, mb) := acc in
      cos_loop (d + x * y, ma + x * x, mb + y * y) a' b'
  | _, _ => acc
  end.

(** The magnitude [Math.sqrt(sum of squares)] of a vector. *)
Definition magnitude (v : vector) : R :=
  sqrt (fold_left (fun m x => m + x * x) v 0).

(** The common tail of both functions, after the dimension check. *)
Definition cos_of_loop (a b : vector) : R :=
  let '(d, ma, mb) := cos_loop (0, 0, 0) a b in
  let magnitudeA := sqrt ma in
  let magnitudeB := sqrt mb in
  if Req_dec_T magnitudeA 0 then 0
  else if Req_dec_T magnitudeB 0 then 0
  else d / (magnitudeA * magnitudeB).

End Vec.

(** [cosineSimilarity] of [src/lib/ai/embeddings.ts]: throws on a dimension
    mismatch. *)
Module Embeddings.

Definition cosineSimilarity (embeddingA embeddingB : Vec.vector) : Outcome R :=
  if negb (Nat.eqb (List.length embeddingA) (List.length embeddingB))
  then Throw (ErrorObj (lit "Embeddings must have the same dimensions"))
  else Ret (Vec.cos_of_loop embeddingA embeddingB).

Record EmbeddingResult : Type := mkEmbeddingResult {
  emb_embedding : Vec.vector;
  emb_text : jsstr;
  emb_model : jsstr;
  emb_dimensions : Z
}.

Record BatchEmbeddingResult : Type := mkBatchEmbeddingResult {
  embeddings : list EmbeddingResult;
  totalTokens : Z;
  batch_model : jsstr
}.

Definition SMALL : jsstr := lit "text-embedding-3-small".

(** [response.data.forEach((item, index) => allEmbeddings.push(...))]:
    the [index]-th vector of the reply is paired with [batch[index]]
    (an [undefined] text past the end of the batch is the empty string). *)
Fixpoint pair_with_batch (model : jsstr) (data : list Vec.vector)
    (batch : list jsstr) : list EmbeddingResult :=
  match data with
  | [] => []
  | v :: data' =>
      mkEmbeddingResult v (hd [] batch) model (len v)
        :: pair_with_batch model data' (tl batch)
  end.

(** The loop state of [generateEmbeddingsBatch]: the index [i], the
    results so far, the token count, and the requests sent to the
    provider so far (one entry per [client.embeddings.create] call). *)
Record BatchState : Type := mkBatchState {
  bi : Z;
  allEmbeddings : list EmbeddingResult;
  tokens_so_far : Z;
  calls : list (list jsstr)
}.

Section Batch.

(** [client.embeddings.create({ model, input: batch })]: the vectors of
    [response.data] and [response.usage.total_tokens], or a thrown error. *)
Variable embeddings_create : list jsstr -> Outcome (list Vec.vector * Z).
(** Whether [OPENAI_API_KEY] is set ([getOpenAIClient] throws otherwise). *)
Variable apiKeySet : bool.

(** One iteration of [for (let i = 0; i < texts.length; i += batchSize)]. *)
Definition batch_step (texts : list jsstr) (model : jsstr) (batchSize : Z)
    (st : BatchState) : Outcome BatchState :=
  let batch := slice texts (bi st) (bi st + batchSize) in
  match embeddings_create batch with
  | Ret (data, used) =>
      Ret (mkBatchState (bi st + batchSize)
             (allEmbeddings st ++ pair_with_batch model data batch)
             (tokens_so_far st + used) (calls st ++ [batch]))
  | Throw e => Throw e
  | Hang => Hang
  end.

Fixpoint batch_loop (fuel : nat) (texts : list jsstr) (model : jsstr)
    (batchSize : Z) (st : BatchState) : Outcome BatchState :=
  if bi st <? len texts then
    match fuel with
    | O => Hang
    | S fuel' =>
        st' <- batch_step texts model batchSize st ;;
        batch_loop fuel' texts model batchSize st'
    end
  else Ret st.

(** [generateEmbeddingsBatch(texts, model, batchSize)], paired with the
    requests it sent to the provider. *)
Definition generateEmbeddingsBatch (fuel : nat) (texts : list jsstr)
    (model : jsstr) (batchSize : Z)
    : Outcome (BatchEmbeddingResult * list (list jsstr)) :=
  if negb apiKeySet
  then Throw (ErrorObj (lit "OPENAI_API_KEY environment variable is not set"))
  else
    st <- batch_loop fuel texts model batchSize (mkBatchState 0 [] 0 []) ;;
    Ret (mkBatchEmbeddingResult (allEmbeddings st) (tokens_so_far st) model,
         calls st).

End Batch.

End Embeddings.

(** ** The knowledge store *)

(** [BrandVoiceSource]: the source tags used by the code. *)
Inductive BrandVoiceSource : Type :=
| style_guide
| example_post
| knowledge_base
| feedback
| other.

Definition source_eqb (a b : BrandVoiceSource) : bool :=
  match a, b with
  | style_guide, style_guide | example_post, example_post
  | knowledge_base, knowledge_base | feedback, feedback | other, other => true
  | _, _ => false
  end.

(** A row of [brand_voice_embeddings] ([BrandVoiceEmbedding]); [created_at]
    is a timestamp in milliseconds. The JSON [metadata] column is left out:
    no operation embedded here reads it. *)
Record BrandVoiceEmbedding : Type := mkRow {
  id : jsstr;
  source : BrandVoiceSource;
  source_file : option jsstr;
  text : jsstr;
  embedding : Vec.vector;
  created_at : Z
}.

(** [BrandVoiceEmbedding & { similarity: number }]. *)
Record Scored : Type := mkScored {
  item : BrandVoiceEmbedding;
  similarity : R
}.

Module BrandVoiceQueries.

(** [cosineSimilarity] of [src/lib/db/queries/brand-voice.ts]: returns [0] on
    a dimension mismatch. *)
Definition cosineSimilarity (embeddingA embeddingB : Vec.vector) : R :=
  if negb (Nat.eqb (List.length embeddingA) (List.length embeddingB)) then 0%R
  else Vec.cos_of_loop embeddingA embeddingB.

(** The comparator [(a, b) => b.similarity - a.similarity]. *)
Definition compare (a b : Scored) : R := (similarity b - similarity a)%R.

(** [Array.prototype.sort] is stable: with a consistent comparator its
    result is the stable insertion sort below, where an element stays in
    front of a later one unless the comparator is positive. *)
Fixpoint insert_sorted (x : Scored) (l : list Scored) : list Scored :=
  match l with
  | [] => [x]
  | y :: l' => if Rle_dec (compare x y) 0 then x :: l else y :: insert_sorted x l'
  end.

Fixpoint sort (l : list Scored) : list Scored :=
  match l with
  | [] => []
  | x :: l' => insert_sorted x (sort l')
  end.

(** The candidate set of the [SELECT]: every row, or the rows whose
    [source] is the given one. [table] lists the rows in the order the
    database returns them. *)
Definition select_candidates (table : list BrandVoiceEmbedding)
    (src : option BrandVoiceSource) : list BrandVoiceEmbedding :=
  match src with
  | Some s => filter (fun r => source_eqb (source r) s) table
  | None => table
  end.

(** The scored candidates that pass [item.similarity >= minSimilarity], in
    the order the rows were fetched. *)
Definition kept_candidates (table : list BrandVoiceEmbedding)
    (queryEmbedding : Vec.vector) (minSimilarity : R)
    (src : option BrandVoiceSource) : list Scored :=
  let allEmbeddings := select_candidates table src in
  let similarities :=
    map (fun r => mkScored r (cosineSimilarity queryEmbedding (embedding r)))
        allEmbeddings in
  filter (fun s => if Rge_dec (similarity s) minSimilarity then true else false)
         similarities.

(** [findSimilarBrandVoice(queryEmbedding, limit, minSimilarity, source)]:
    [similarities.filter(...).sort(...).slice(0, limit)]. *)
Definition findSimilarBrandVoice (table : list BrandVoiceEmbedding)
    (queryEmbedding : Vec.vector) (limit : Z) (minSimilarity : R)
    (src : option BrandVoiceSource) : list Scored :=
  slice (sort (kept_candidates table queryEmbedding minSimilarity src)) 0 limit.

(** Whether a scored row has similarity [v]. *)
Definition has_similarity (v : R) (s : Scored) : bool :=
  if Req_dec_T (similarity s) v then true else false.

End BrandVoiceQueries.

(** ** Retrieval ([src/lib/ai/brand-voice-rag.ts]) *)

Module BrandVoiceRag.

Record BrandVoiceContext : Type := mkContext {
  ctx_text : jsstr;
  ctx_source : BrandVoiceSource;
  ctx_sourceFile : option jsstr;
  ctx_similarity : R
}.

(** [RAGOptions]; an absent property is [None]. *)
Record RAGOptions : Type := mkRAGOptions {
  topK : option Z;
  minSimilarity : option R;
  sources : option (list BrandVoiceSource)
}.

Definition no_options : RAGOptions := mkRAGOptions None None None.

Definition error_message (e : JsError) : jsstr :=
  match e with
  | ErrorObj m => m
  | NonError => lit "Unknown error"
  end.

Section Retrieval.

(** The embedding provider behind [generateEmbedding], and the rows of
    [brand_voice_embeddings]. *)
Variable generateEmbedding : jsstr -> Outcome Vec.vector.
Variable table : list BrandVoiceEmbedding.

(** [retrieveBrandVoiceContext(query, options)]: [opts] is
    [{ ...DEFAULT_OPTIONS, ...options }] with [topK = 5] and
    [minSimilarity = 0.7]; [findSimilarBrandVoice] is called with three
    arguments. *)
Definition retrieveBrandVoiceContext (query : jsstr) (options : RAGOptions)
    : Outcome (list BrandVoiceContext) :=
  let opt_topK := match topK options with Some k => k | None => 5 end in
  let opt_min := match minSimilarity options with
                 | Some m => m | None => (7 / 10)%R end in
  match generateEmbedding query with
  | Ret queryEmbedding =>
      let results :=
        BrandVoiceQueries.findSimilarBrandVoice table queryEmbedding
          opt_topK opt_min None in
      Ret (map (fun r => mkContext (text (item r)) (source (item r))
                           (source_file (item r)) (similarity r)) results)
  | Throw e =>
      Throw (ErrorObj (lit "Failed to retrieve brand voice context: "
                       ++ error_message e))
  | Hang => Hang
  end.

(** [getBrandVoiceGuidelines(contentType, platform)]; an empty [platform]
    is falsy. *)
Definition getBrandVoiceGuidelines (contentType : jsstr)
    (platform : option jsstr) : Outcome (list BrandVoiceContext) :=
  let query :=
    match platform with
    | Some ((_ :: _) as p) =>
        lit "Guidelines for " ++ contentType ++ lit " on " ++ p
          ++ lit " social media"
    | _ => lit "Guidelines for " ++ contentType
    end in
  retrieveBrandVoiceContext query
    (mkRAGOptions (Some 3) (Some (65 / 100)%R) (Some [style_guide])).

(** [getBrandVoiceExamples(topic, postType)]. *)
Definition getBrandVoiceExamples (topic postType : jsstr)
    : Outcome (list BrandVoiceContext) :=
  let query := lit "Example " ++ postType ++ lit " post about " ++ topic in
  retrieveBrandVoiceContext query
    (mkRAGOptions (Some 5) (Some (7 / 10)%R)
       (Some [example_post; knowledge_base])).

End Retrieval.

End BrandVoiceRag.

(** ** Text chunking ([chunkText] of [src/lib/utils/hubspot.ts]) *)

Module TextChunker.

Record TextChunk : Type := mkChunk {
  chunk_text : jsstr;
  index : Z;
  startPosition : Z;
  endPosition : Z
}.

(** [ChunkingOptions]; an absent property is [None], a present one holds
    a value of its declared type. A property explicitly set to [undefined]
    is not represented: the spread below keeps it (with
    [separators: undefined] the [for ... of] throws a TypeError, and an
    undefined [chunkSize] or [chunkOverlap] makes the positions NaN). *)
Record ChunkingOptions : Type := mkChunkingOptions {
  chunkSize : option Z;
  chunkOverlap : option Z;
  separators : option (list jsstr);
  preserveWhitespace : option bool
}.

(** [{ ...DEFAULT_OPTIONS, ...options }], for options whose properties are
    absent or hold values of their declared types. *)
Record ResolvedOptions : Type := mkResolved {
  opt_size : Z;
  opt_overlap : Z;
  opt_separators : list jsstr;
  opt_preserve : bool
}.

Definition NL : ascii := ascii_of_nat 10.
Definition CR : ascii := ascii_of_nat 13.
Definition TAB : ascii := ascii_of_nat 9.

Definition DEFAULT_SEPARATORS : list jsstr :=
  [[NL; NL]; [NL]; lit ". "; lit "! "; lit "? "; lit "; "; lit ", "; lit " "].

(** The spread: a present property overrides the default, an absent one
    ([None]) keeps it. *)
Definition resolve (o : ChunkingOptions) : ResolvedOptions :=
  mkResolved
    (match chunkSize o with Some v => v | None => 1000 end)
    (match chunkOverlap o with Some v => v | None => 200 end)
    (match separators o with Some v => v | None => DEFAULT_SEPARATORS end)
    (match preserveWhitespace o with Some v => v | None => false end).

(** [.replace(/\r\n/g, '\n')]. *)
Fixpoint replace_crlf (s : jsstr) : jsstr :=
  match s with
  | c :: ((d :: s') as t) =>
      if Ascii.eqb c CR && Ascii.eqb d NL then NL :: replace_crlf s'
      else c :: replace_crlf t
  | _ => s
  end.

(** [.replace(/\n{3,}/g, '\n\n')]; [run] counts the pending newlines. *)
Definition flush_newlines (run : nat) : jsstr :=
  if (3 <=? run)%nat then [NL; NL] else repeat NL run.

Fixpoint collapse_newlines (run : nat) (s : jsstr) : jsstr :=
  match s with
  | [] => flush_newlines run
  | c :: s' =>
      if Ascii.eqb c NL then collapse_newlines (S run) s'
      else flush_newlines run ++ c :: collapse_newlines O s'
  end.

(** [.replace(/[ \t]+/g, ' ')]; [in_run] tells whether a run is pending. *)
Definition is_blank (c : ascii) : bool := Ascii.eqb c " "%char || Ascii.eqb c TAB.

Fixpoint collapse_blanks (in_run : bool) (s : jsstr) : jsstr :=
  match s with
  | [] => if in_run then [" "%char] else []
  | c :: s' =>
      if is_blank c then collapse_blanks true s'
      else (if in_run then [" "%char] else []) ++ c :: collapse_blanks false s'
  end.

Definition normalize (text : jsstr) : jsstr :=
  trim (collapse_blanks false (collapse_newlines O (replace_crlf text))).

(** The loop state: [startPos], [chunkIndex] and the chunks pushed so far,
    in push order. *)
Record ChunkState : Type := mkChunkState {
  startPos : Z;
  chunkIndex : Z;
  chunks : list TextChunk
}.

Definition init_state : ChunkState := mkChunkState 0 0 [].

(** The separator cascade: the first separator (in preference order) whose
    last occurrence in the window [searchStart, searchEnd) starts at or
    before [endPos] gives [bestSplitPos]. *)
Fixpoint find_split (cleanText : jsstr) (startPos0 endPos : Z)
    (seps : list jsstr) : option Z :=
  match seps with
  | [] => None
  | separator :: rest =>
      let searchStart := Z.max startPos0 (endPos - 200) in
      let searchEnd := Z.min (endPos + 100) (len cleanText) in
      let segment := substring cleanText searchStart searchEnd in
      let relativePos := lastIndexOf segment separator (endPos - searchStart) in
      if negb (relativePos =? -1)
      then Some (searchStart + relativePos + len separator)
      else find_split cleanText startPos0 endPos rest
  end.

(** The cut end of the chunk starting at [startPos0]. *)
Definition cut_end (o : ResolvedOptions) (cleanText : jsstr) (startPos0 : Z) : Z :=
  let endPos := Z.min (startPos0 + opt_size o) (len cleanText) in
  if endPos <? len cleanText then
    match find_split cleanText startPos0 endPos (opt_separators o) with
    | Some bestSplitPos => bestSplitPos
    | None => endPos
    end
  else endPos.

(** [chunks[chunks.length - 1]]. *)
Definition last_chunk (l : list TextChunk) : option TextChunk :=
  match rev l with
  | c :: _ => Some c
  | [] => None
  end.

(** One iteration of [while (startPos < cleanText.length)]. The progress
    guard compares with the start of the last chunk pushed; with no chunk
    yet, [undefined] makes the comparison false. *)
Definition chunk_step (o : ResolvedOptions) (cleanText : jsstr)
    (st : ChunkState) : ChunkState :=
  let endPos := cut_end o cleanText (startPos st) in
  let t := trim (substring cleanText (startPos st) endPos) in
  let '(chunks', chunkIndex') :=
    if 0 <? len t
    then (chunks st ++ [mkChunk t (chunkIndex st) (startPos st) endPos],
          chunkIndex st + 1)
    else (chunks st, chunkIndex st) in
  let next := endPos - opt_overlap o in
  let next' :=
    match last_chunk chunks' with
    | Some c => if next <=? startPosition c then endPos else next
    | None => next
    end in
  mkChunkState next' chunkIndex' chunks'.

Fixpoint chunk_loop (fuel : nat) (o : ResolvedOptions) (cleanText : jsstr)
    (st : ChunkState) : Outcome ChunkState :=
  if startPos st <? len cleanText then
    match fuel with
    | O => Hang
    | S fuel' => chunk_loop fuel' o cleanText (chunk_step o cleanText st)
    end
  else Ret st.

Definition clean_text (o : ResolvedOptions) (text : jsstr) : jsstr :=
  if opt_preserve o then text else normalize text.

(** [chunkText(text, options)]. *)
Definition chunkText (fuel : nat) (text : jsstr) (options : ChunkingOptions)
    : Outcome (list TextChunk) :=
  let o := resolve options in
  let cleanText := clean_text o text in
  if len cleanText =? 0 then Ret []
  else st <- chunk_loop fuel o cleanText init_state ;; Ret (chunks st).

(** The state after [n] iterations of the loop body. *)
Definition iterate (n : nat) (o : ResolvedOptions) (cleanText : jsstr)
    (st : ChunkState) : ChunkState :=
  Nat.iter n (chunk_step o cleanText) st.

End TextChunker.

(** ** Ingestion ([src/unnamed/part_006] with the readers of
    [src/lib/utils/hubspot.ts]) *)

Module BrandVoiceIngestion.

Import Embeddings TextChunker.

Record PDFContent : Type := mkPDF {
  pdf_text : jsstr;
  numPages : Z
}.

Record IngestionOptions : Type := mkIngestionOptions {
  opt_chunkSize : option Z;
  opt_chunkOverlap : option Z;
  opt_source : BrandVoiceSource;
  opt_reIngest : option bool
}.

(** [Partial<IngestionOptions>]. *)
Record PartialOptions : Type := mkPartialOptions {
  p_chunkSize : option Z;
  p_chunkOverlap : option Z;
  p_source : option BrandVoiceSource;
  p_reIngest : option bool
}.

Record Stats : Type := mkStats {
  pages : Z;
  characters : Z;
  chunk_count : Z;
  embeddings_stored : Z;
  tokens : Z
}.

Definition zero_stats : Stats := mkStats 0 0 0 0 0.

Definition add_stats (a b : Stats) : Stats :=
  mkStats (pages a + pages b) (characters a + characters b)
    (chunk_count a + chunk_count b) (embeddings_stored a + embeddings_stored b)
    (tokens a + tokens b).

Record IngestionResult : Type := mkIngestionResult {
  success : bool;
  fileName : jsstr;
  res_source : BrandVoiceSource;
  stats : Stats;
  errors : list jsstr
}.

Record DirectoryResult : Type := mkDirectoryResult {
  all_success : bool;
  results : list IngestionResult;
  totalStats : Stats
}.

(** A row for [bulkInsertBrandVoiceEmbeddings] (JSON metadata left out). *)
Record InsertRow : Type := mkInsertRow {
  ins_source : BrandVoiceSource;
  ins_source_file : jsstr;
  ins_text : jsstr;
  ins_embedding : Vec.vector
}.

Definition SLASH : ascii := "/"%char.

(** [path.join(dir, file)] for a directory entry [file] (no separator in
    it), and [path.basename]: the part after the last separator. *)
Definition join (dir file : jsstr) : jsstr := dir ++ SLASH :: file.

Fixpoint basename_from (acc s : jsstr) : jsstr :=
  match s with
  | [] => rev acc
  | c :: s' => if Ascii.eqb c SLASH then basename_from [] s' else basename_from (c :: acc) s'
  end.

Definition basename (p : jsstr) : jsstr := basename_from [] p.

Definition error_message (e : JsError) : jsstr :=
  match e with
  | ErrorObj m => m
  | NonError => lit "Unknown error"
  end.

(** [x || d] on an optional number: [undefined] and [0] are falsy. *)
Definition or_default (x : option Z) (d : Z) : Z :=
  match x with
  | Some v => if v =? 0 then d else v
  | None => d
  end.

(** Source tag inference of [ingestAllDocuments]. *)
Definition infer_source (fileName0 : jsstr) : BrandVoiceSource :=
  if includes (toLowerCase fileName0) (lit "style") then style_guide
  else if includes (toLowerCase fileName0) (lit "knowledge") then knowledge_base
  else other.

Section Ingestion.

(** The external collaborators. *)
Variable fileExists : jsstr -> bool.                   (** never throws *)
Variable deleteByFile : jsstr -> Outcome Z.            (** SQL DELETE *)
Variable parsePDF : jsstr -> Outcome PDFContent.      (** fs.readFile + pdf-parse *)
Variable readdir : jsstr -> Outcome (list jsstr).     (** fs.readdir *)
Variable embeddings_create : list jsstr -> Outcome (list Vec.vector * Z).
Variable apiKeySet : bool.
Variable sqlInsert : list InsertRow -> Outcome unit.  (** one multi-row INSERT *)
(** Fuel for the loops of [chunkText] and [generateEmbeddingsBatch]. *)
Variable fuel : nat.

(** [readPDF(filePath)]. *)
Definition readPDF (filePath : jsstr) : Outcome PDFContent :=
  match parsePDF filePath with
  | Ret c => Ret c
  | Throw e => Throw (ErrorObj (lit "Failed to read PDF: " ++ error_message e))
  | Hang => Hang
  end.

(** The batches of 50 of [bulkInsertBrandVoiceEmbeddings]
    ([embeddings.slice(i, i + 50)] for [i = 0, 50, ...]). *)
Fixpoint insert_batches (n : nat) (rest : list InsertRow) (total : Z) : Outcome Z :=
  match rest with
  | [] => Ret total
  | _ :: _ =>
      match n with
      | O => Hang
      | S n' =>
          let batch := firstn 50 rest in
          _ <- sqlInsert batch ;;
          insert_batches n' (skipn 50 rest) (total + len batch)
      end
  end.

Definition bulkInsertBrandVoiceEmbeddings (rows : list InsertRow) : Outcome Z :=
  match rows with
  | [] => Ret 0
  | _ => insert_batches (List.length rows) rows 0
  end.

(** The [try] block of [ingestDocument]. *)
Definition ingest_body (filePath : jsstr) (options : IngestionOptions)
    : Outcome IngestionResult :=
  let fileName0 := basename filePath in
  _ <- (if fileExists filePath then Ret tt
        else Throw (ErrorObj (lit "File not found: " ++ filePath))) ;;
  _ <- (match opt_reIngest options with
        | Some true => _ <- deleteByFile fileName0 ;; Ret tt
        | _ => Ret tt
        end) ;;
  pdfContent <- readPDF filePath ;;
  chunks0 <- chunkText fuel (pdf_text pdfContent)
               (mkChunkingOptions
                  (Some (or_default (opt_chunkSize options) 1000))
                  (Some (or_default (opt_chunkOverlap options) 200)) None None) ;;
  embeddingsResult <-
    bind (generateEmbeddingsBatch embeddings_create apiKeySet fuel
            (map chunk_text chunks0) SMALL 100)
         (fun r => Ret (fst r)) ;;
  (* [chunks[index].metadata] throws a TypeError past the last chunk *)
  _ <- (if (List.length chunks0 <? List.length (embeddings embeddingsResult))%nat
        then Throw (ErrorObj (lit "Cannot read properties of undefined (reading 'metadata')"))
        else Ret tt) ;;
  let embeddingsToStore :=
    map (fun emb => mkInsertRow (opt_source options) fileName0
                      (emb_text emb) (emb_embedding emb))
        (embeddings embeddingsResult) in
  stored <- bulkInsertBrandVoiceEmbeddings embeddingsToStore ;;
  Ret (mkIngestionResult true fileName0 (opt_source options)
         (mkStats (numPages pdfContent) (len (pdf_text pdfContent))
            (len chunks0) stored (totalTokens embeddingsResult))
         []).

(** [ingestDocument(filePath, options)]: the [catch] turns every thrown
    error into a failed result. *)
Definition ingestDocument (filePath : jsstr) (options : IngestionOptions)
    : Outcome IngestionResult :=
  match ingest_body filePath options with
  | Ret r => Ret r
  | Throw e =>
      Ret (mkIngestionResult false (basename filePath) (opt_source options)
             zero_stats [error_message e])
  | Hang => Hang
  end.

(** The loop of [readPDFsFromDirectory]: a PDF that fails to read is
    logged and skipped. *)
Fixpoint read_pdfs (dirPath : jsstr) (files : list jsstr)
    : Outcome (list (jsstr * PDFContent)) :=
  match files with
  | [] => Ret []
  | file :: rest =>
      match readPDF (join dirPath file) with
      | Ret content => rest' <- read_pdfs dirPath rest ;; Ret ((file, content) :: rest')
      | Throw _ => read_pdfs dirPath rest
      | Hang => Hang
      end
  end.

(** [readPDFsFromDirectory(dirPath)]: the [Map] is its entry list in
    insertion order ([readdir] names are distinct). *)
Definition readPDFsFromDirectory (dirPath : jsstr)
    : Outcome (list (jsstr * PDFContent)) :=
  files <- readdir dirPath ;;
  read_pdfs dirPath
    (filter (fun f => endsWith (toLowerCase f) (lit ".pdf")) files).

(** [{ ...options, source }]. *)
Definition with_source (options : PartialOptions) (src : BrandVoiceSource)
    : IngestionOptions :=
  mkIngestionOptions (p_chunkSize options) (p_chunkOverlap options) src
    (p_reIngest options).

(** The [for (const [fileName, _content] of pdfs)] loop. *)
Fixpoint ingest_each (documentsDir : jsstr) (options : PartialOptions)
    (pdfs : list (jsstr * PDFContent)) : Outcome (list IngestionResult) :=
  match pdfs with
  | [] => Ret []
  | (fileName0, _) :: rest =>
      result <- ingestDocument (join documentsDir fileName0)
                  (with_source options (infer_source fileName0)) ;;
      rest' <- ingest_each documentsDir options rest ;;
      Ret (result :: rest')
  end.

(** [ingestAllDocuments(documentsDir, options)]. *)
Definition ingestAllDocuments (documentsDir : jsstr) (options : PartialOptions)
    : Outcome DirectoryResult :=
  pdfs <- readPDFsFromDirectory documentsDir ;;
  match pdfs with
  | [] => Ret (mkDirectoryResult true [] zero_stats)
  | _ =>
      results0 <- ingest_each documentsDir options pdfs ;;
      Ret (mkDirectoryResult (forallb success results0) results0
             (fold_left (fun acc r => add_stats acc (stats r)) results0 zero_stats))
  end.

End Ingestion.

End BrandVoiceIngestion.

(** ** Concrete inputs used by the examples below *)

(** ** String equality

    [===] on strings. *)
Definition jsstr_eqb (a b : jsstr) : bool :=
  if list_eq_dec Ascii.ascii_dec a b then true else false.

(** ** The HubSpot client ([src/lib/utils/hubspot.ts]) *)

Module HubSpot.

(** [ContentType] (the [content_type] enum of the schema). *)
Inductive ContentType : Type :=
| blog_post
| whitepaper
| case_study
| webinar
| video
| landing_page
| labs_app
| other.

(** [HubSpotLandingPage], with the fields the filter and the content type
    read; an absent optional field is [None]. *)
Record HubSpotLandingPage : Type := mkPage {
  page_id : jsstr;
  name : jsstr;
  slug : jsstr;
  url : jsstr;
  contentGroupId : option jsstr
}.

(** [LandingPageFilterConfig]; an absent property is [None]. *)
Record LandingPageFilterConfig : Type := mkFilter {
  contentGroupIds : option (list jsstr);
  namePatterns : option (list jsstr);
  urlPatterns : option (list jsstr);
  tags : option (list jsstr);
  excludePatterns : option (list jsstr)
}.

(** The callback of [pages.filter(page => ...)] in [filterLandingPages]. A
    pattern list counts only when present and non-empty
    ([filter.x && filter.x.length > 0]); an empty [contentGroupId] is
    falsy. *)
Definition keep_page (filter : LandingPageFilterConfig)
    (page : HubSpotLandingPage) : bool :=
  let nameLower := toLowerCase (name page) in
  let group_ok :=
    match contentGroupIds filter with
    | Some ((_ :: _) as ids) =>
        match contentGroupId page with
        | Some ((_ :: _) as g) => existsb (jsstr_eqb g) ids
        | _ => false
        end
    | _ => true
    end in
  if negb group_ok then false
  else if includes nameLower (lit "embed -") then
    endsWith nameLower (lit "case study")
  else
    let name_ok :=
      match namePatterns filter with
      | Some ((_ :: _) as ps) =>
          existsb (fun pattern => includes nameLower (toLowerCase pattern)) ps
      | _ => true
      end in
    if negb name_ok then false
    else
      let url_ok :=
        match urlPatterns filter with
        | Some ((_ :: _) as ps) =>
            existsb (fun pattern =>
                       includes (toLowerCase (url page)) (toLowerCase pattern)) ps
        | _ => true
        end in
      if negb url_ok then false
      else
        match excludePatterns filter with
        | Some ((_ :: _) as ps) =>
            negb (existsb (fun pattern =>
                             includes nameLower (toLowerCase pattern)
                             || includes (toLowerCase (url page))
                                  (toLowerCase pattern)) ps)
        | _ => true
        end.

(** [filterLandingPages(pages, filter)]. *)
Definition filterLandingPages (pages : list HubSpotLandingPage)
    (filter : option LandingPageFilterConfig) : list HubSpotLandingPage :=
  match filter with
  | None => pages
  | Some f => List.filter (keep_page f) pages
  end.

(** [determineContentType(page)]. *)
Definition determineContentType (page : HubSpotLandingPage) : ContentType :=
  let name0 := toLowerCase (name page) in
  let url0 := toLowerCase (url page) in
  if includes name0 (lit "case study") || includes name0 (lit "case-study")
     || includes url0 (lit "case-study") || includes url0 (lit "case_study")
  then case_study
  else if includes name0 (lit "webinar") || includes url0 (lit "webinar")
  then webinar
  else if includes name0 (lit "whitepaper") || includes name0 (lit "white paper")
          || includes url0 (lit "whitepaper") || includes url0 (lit "white-paper")
  then whitepaper
  else landing_page.

(** The filter of [fetchAllContent]. *)
Definition fetchAllContent_filter : LandingPageFilterConfig :=
  mkFilter None (Some [lit "PC/LP"; lit "TM/LP"; lit "WBR/LP"]) None None None.

(** The regular expression of [extractPdfUrl]: the literal
    [PDFViewerApplication.open(], a quote (double or single), a capture of
    one or more non-quote characters, a quote and [)]. *)
Definition PDF_OPEN : jsstr := lit "PDFViewerApplication.open(".
Definition DQUOTE : ascii := ascii_of_nat 34.
Definition SQUOTE : ascii := ascii_of_nat 39.

(** The quote class (double or single quote). *)
Definition is_quote (c : ascii) : bool := Ascii.eqb c DQUOTE || Ascii.eqb c SQUOTE.

(** The greedy run of the non-quote class. *)
Fixpoint take_nonquote (s : jsstr) : jsstr :=
  match s with
  | c :: s' => if is_quote c then [] else c :: take_nonquote s'
  | [] => []
  end.

(** The match starting at the head of [s], with its capture. A shorter run
    of non-quote characters ends before a non-quote character, where the
    quote class fails, so backtracking finds nothing beyond the greedy
    run. *)
Definition pdf_match_at (s : jsstr) : option jsstr :=
  if is_prefix PDF_OPEN s then
    match skipn (List.length PDF_OPEN) s with
    | q :: r =>
        if is_quote q then
          match take_nonquote r with
          | [] => None
          | u =>
              match skipn (List.length u) r with
              | q' :: c :: _ =>
                  if is_quote q' && Ascii.eqb c ")"%char then Some u else None
              | _ => None
              end
          end
        else None
    | [] => None
    end
  else None.

(** [html.match(regex)] (no [g] flag): the leftmost match; its group 1. *)
Fixpoint pdf_match (html : jsstr) : option jsstr :=
  match pdf_match_at html with
  | Some u => Some u
  | None =>
      match html with
      | [] => None
      | _ :: html' => pdf_match html'
      end
  end.

Section Fetch.

(** [fetch(pageUrl)] followed by [response.text()]: [Some html] for an [ok]
    response, [None] otherwise, or a thrown error. *)
Variable fetchPage : jsstr -> Outcome (option jsstr).

(** [extractPdfUrl(pageUrl)]: every error is caught and gives [null]. *)
Definition extractPdfUrl (pageUrl : jsstr) : Outcome (option jsstr) :=
  match fetchPage pageUrl with
  | Ret (Some html) =>
      match pdf_match html with
      | Some ((_ :: _) as u) => Ret (Some u)
      | _ => Ret None
      end
  | Ret None => Ret None
  | Throw _ => Ret None
  | Hang => Hang
  end.

End Fetch.

End HubSpot.

(** ** More of [src/lib/ai/embeddings.ts] *)

Module EmbeddingsMore.

Section Single.

(** [client.embeddings.create({ model, input: text })]: the vectors of
    [response.data] ([[]] when it is missing or empty), or a thrown error. *)
Variable embeddings_create_one : jsstr -> Outcome (list Vec.vector).
(** Whether [getOpenAIClient] can build a client ([OPENAI_API_KEY] set). *)
Variable apiKeySet : bool.

(** [generateEmbedding(text, model)]: [getOpenAIClient()] runs before the
    [try]; inside it, every error is rethrown with a prefix. *)
Definition generateEmbedding (text : jsstr) (model : jsstr)
    : Outcome Embeddings.EmbeddingResult :=
  if negb apiKeySet
  then Throw (ErrorObj (lit "OPENAI_API_KEY environment variable is not set"))
  else
    let attempt :=
      match embeddings_create_one text with
      | Ret (embedding :: _) =>
          Ret (Embeddings.mkEmbeddingResult embedding text model (len embedding))
      | Ret [] => Throw (ErrorObj (lit "No embedding returned from OpenAI"))
      | Throw e => Throw e
      | Hang => Hang
      end in
    match attempt with
    | Throw e =>
        Throw (ErrorObj (lit "Failed to generate embedding: "
                         ++ BrandVoiceRag.error_message e))
    | r => r
    end.

(** [(await generateEmbedding(query)).embedding], as
    [retrieveBrandVoiceContext] uses it (default model). *)
Definition query_embedding (query : jsstr) : Outcome Vec.vector :=
  r <- generateEmbedding query Embeddings.SMALL ;; Ret (Embeddings.emb_embedding r).

End Single.

(** [{ index, similarity }]. *)
Record Ranked : Type := mkRanked {
  rk_index : Z;
  rk_similarity : R
}.

(** [embeddings.map((embedding, index) => ...)]: the callbacks run in
    order, and the first [cosineSimilarity] that throws ends the map. *)
Fixpoint score_from (queryEmbedding : Vec.vector) (es : list Vec.vector)
    (i : Z) : Outcome (list Ranked) :=
  match es with
  | [] => Ret []
  | e :: es' =>
      s <- Embeddings.cosineSimilarity queryEmbedding e ;;
      rest <- score_from queryEmbedding es' (i + 1) ;;
      Ret (mkRanked i s :: rest)
  end.

(** The comparator [(a, b) => b.similarity - a.similarity] and the stable
    sort. *)
Definition rank_compare (a b : Ranked) : R := (rk_similarity b - rk_similarity a)%R.

Fixpoint insert_ranked (x : Ranked) (l : list Ranked) : list Ranked :=
  match l with
  | [] => [x]
  | y :: l' => if Rle_dec (rank_compare x y) 0 then x :: l else y :: insert_ranked x l'
  end.

Fixpoint sort_ranked (l : list Ranked) : list Ranked :=
  match l with
  | [] => []
  | x :: l' => insert_ranked x (sort_ranked l')
  end.

(** [findMostSimilar(queryEmbedding, embeddings, topK)]. *)
Definition findMostSimilar (queryEmbedding : Vec.vector)
    (embeddings : list Vec.vector) (topK : Z) : Outcome (list Ranked) :=
  similarities <- score_from queryEmbedding embeddings 0 ;;
  Ret (slice (sort_ranked similarities) 0 topK).

End EmbeddingsMore.

(** ** More of [src/lib/db/queries/brand-voice.ts] *)

Module StoreMore.

(** [WHERE source_file = ${sourceFile}]: a [NULL] file matches nothing. *)
Definition file_matches (sourceFile : jsstr) (r : BrandVoiceEmbedding) : bool :=
  match source_file r with
  | Some f => jsstr_eqb f sourceFile
  | None => false
  end.

(** [deleteBrandVoiceEmbeddingsByFile(sourceFile)]: the table afterwards
    and [result.count || 0], the number of rows deleted. *)
Definition deleteBrandVoiceEmbeddingsByFile (table : list BrandVoiceEmbedding)
    (sourceFile : jsstr) : list BrandVoiceEmbedding * Z :=
  (filter (fun r => negb (file_matches sourceFile r)) table,
   len (filter (file_matches sourceFile) table)).

(** [deleteBrandVoiceEmbeddingsBySource(source)]. *)
Definition deleteBrandVoiceEmbeddingsBySource (table : list BrandVoiceEmbedding)
    (src : BrandVoiceSource) : list BrandVoiceEmbedding * Z :=
  (filter (fun r => negb (source_eqb (source r) src)) table,
   len (filter (fun r => source_eqb (source r) src) table)).

(** [GROUP BY key] with a row count: one entry per key, counted by a pass
    over the rows (the database returns the groups in some order; this
    pass lists them by first occurrence). *)
Fixpoint bump {K} (eqb : K -> K -> bool) (k : K) (acc : list (K * Z)) : list (K * Z) :=
  match acc with
  | [] => [(k, 1)]
  | (k', n) :: acc' => if eqb k' k then (k', n + 1) :: acc' else (k', n) :: bump eqb k acc'
  end.

Definition group_count {K} (eqb : K -> K -> bool) (keys : list K) : list (K * Z) :=
  fold_left (fun acc k => bump eqb k acc) keys [].

Record BrandVoiceStats : Type := mkBrandVoiceStats {
  total : Z;
  bySource : list (BrandVoiceSource * Z);
  byFile : list (jsstr * Z)
}.

(** [getBrandVoiceStats()]: the three queries, with
    [Object.fromEntries] kept as the entry list. *)
Definition getBrandVoiceStats (table : list BrandVoiceEmbedding) : BrandVoiceStats :=
  mkBrandVoiceStats (len table)
    (group_count source_eqb (map source table))
    (group_count jsstr_eqb
       (flat_map (fun r => match source_file r with Some f => [f] | None => [] end)
          table)).

(** [isBrandVoiceInitialized()] of [src/lib/ai/brand-voice-rag.ts]. *)
Definition isBrandVoiceInitialized (table : list BrandVoiceEmbedding) : bool :=
  0 <? total (getBrandVoiceStats table).

Record DebugInfo : Type := mkDebugInfo {
  initialized : bool;
  totalEmbeddings : Z;
  dbg_bySource : list (BrandVoiceSource * Z);
  dbg_byFile : list (jsstr * Z)
}.

(** [getBrandVoiceDebugInfo()] of [src/lib/ai/brand-voice-rag.ts]. *)
Definition getBrandVoiceDebugInfo (table : list BrandVoiceEmbedding) : DebugInfo :=
  let stats := getBrandVoiceStats table in
  mkDebugInfo (0 <? total stats) (total stats) (bySource stats) (byFile stats).

End StoreMore.

(** ** More of the text chunker and the PDF reader
    ([src/lib/utils/hubspot.ts]) *)

Module ChunkerMore.

Import TextChunker.

(** [estimateTokenCount(text)]: [Math.ceil(text.length / 4)], on a natural
    number. *)
Definition estimateTokenCount (text : jsstr) : Z := (len text + 3) / 4.

(** [chunkByTokenLimit(text, maxTokens, options)]:
    [chunkText(text, { ...options, chunkSize: maxTokens * 4 })]. *)
Definition chunkByTokenLimit (fuel : nat) (text : jsstr) (maxTokens : Z)
    (options : ChunkingOptions) : Outcome (list TextChunk) :=
  let chunkSize0 := maxTokens * 4 in
  chunkText fuel text
    (mkChunkingOptions (Some chunkSize0) (chunkOverlap options)
       (separators options) (preserveWhitespace options)).

(** The length of the longest separator. *)
Definition max_separator_length (seps : list jsstr) : Z :=
  fold_right (fun s m => Z.max (len s) m) 0 seps.

End ChunkerMore.

Module PdfReaderMore.

(** [listPDFFiles(dirPath)]: a [readdir] error is logged and gives [[]]. *)
Definition listPDFFiles (readdir : jsstr -> Outcome (list jsstr)) (dirPath : jsstr)
    : Outcome (list jsstr) :=
  match readdir dirPath with
  | Ret files => Ret (filter (fun f => endsWith (toLowerCase f) (lit ".pdf")) files)
  | Throw _ => Ret []
  | Hang => Hang
  end.

End PdfReaderMore.


(** ** Single inserts and reads of the store
    ([src/lib/db/queries/brand-voice.ts]) *)

Module StoreInsert.

Import StoreMore.

(** [InsertBrandVoiceEmbedding] (JSON metadata left out). *)
Record InsertData : Type := mkInsertData {
  data_source : BrandVoiceSource;
  data_source_file : option jsstr;
  data_text : jsstr;
  data_embedding : Vec.vector
}.

(** [insertBrandVoiceEmbedding(data)]: [INSERT ... RETURNING *]; the
    database picks the [id] and the [created_at] timestamp, and
    [data.source_file || null] stores an absent or empty file name as
    [NULL]. The new table and the returned row. *)
Definition insertBrandVoiceEmbedding (table : list BrandVoiceEmbedding)
    (newId : jsstr) (now : Z) (data : InsertData)
    : list BrandVoiceEmbedding * BrandVoiceEmbedding :=
  let row := mkRow newId (data_source data)
               (match data_source_file data with
                | Some ((_ :: _) as f) => Some f
                | _ => None
                end)
               (data_text data) (data_embedding data) now in
  (table ++ [row], row).

(** [ORDER BY created_at DESC]: the database returns the selected rows in
    some order that lists newer rows first (rows with the same timestamp in
    any order). *)
Definition newest_first (selected result : list BrandVoiceEmbedding) : Prop :=
  Permutation result selected /\
  Sorted (fun a b => created_at b <= created_at a) result.

(** [getBrandVoiceEmbeddingsBySource(source)]: a result the database may
    return. *)
Definition getBrandVoiceEmbeddingsBySource (table : list BrandVoiceEmbedding)
    (src : BrandVoiceSource) (result : list BrandVoiceEmbedding) : Prop :=
  newest_first (filter (fun r => source_eqb (source r) src) table) result.

(** [getBrandVoiceEmbeddingsByFile(sourceFile)]. *)
Definition getBrandVoiceEmbeddingsByFile (table : list BrandVoiceEmbedding)
    (sourceFile : jsstr) (result : list BrandVoiceEmbedding) : Prop :=
  newest_first (filter (file_matches sourceFile) table) result.

End StoreInsert.

(** ** Prompt formatting ([src/lib/ai/brand-voice-rag.ts]) *)

Module PromptFormat.

Import BrandVoiceRag TextChunker.

(** The decimal digits of [n], least significant first ([fuel] bounds
    their number). *)
Fixpoint digits_rev (fuel n : nat) : jsstr :=
  match fuel with
  | O => []
  | S fuel' =>
      ascii_of_nat (48 + n mod 10)
        :: (if (n <? 10)%nat then [] else digits_rev fuel' (n / 10))
  end.

(** [String(n)] for a natural number [n]. *)
Definition decimal (n : nat) : jsstr := rev (digits_rev (S n) n).

(** A context together with [context.metadata?.section] when it is a
    string. *)
Record PromptContext : Type := mkPromptContext {
  p_context : BrandVoiceContext;
  p_section : option jsstr
}.

Definition HEADER (n : nat) : jsstr :=
  lit "[Brand Voice Reference " ++ decimal n ++ lit "]".

(** [if (context.sourceFile) section += ...]: an empty name is falsy. *)
Definition from_part (c : BrandVoiceContext) : jsstr :=
  match ctx_sourceFile c with
  | Some ((_ :: _) as f) => lit " (from " ++ f ++ lit ")"
  | _ => []
  end.

(** The section built for [contexts[index]]. *)
Definition format_section (index : nat) (pc : PromptContext) : jsstr :=
  let section0 := HEADER (index + 1) ++ from_part (p_context pc) in
  let section1 := section0 ++ NL :: ctx_text (p_context pc) in
  match p_section pc with
  | Some ((_ :: _) as s) => section1 ++ NL :: lit "Section: " ++ s
  | _ => section1
  end.

(** [contexts.map((context, index) => ...)], from index [k]. *)
Fixpoint sections_from (k : nat) (contexts : list PromptContext) : list jsstr :=
  match contexts with
  | [] => []
  | pc :: rest => format_section k pc :: sections_from (S k) rest
  end.

(** [Array.prototype.join(sep)]. *)
Fixpoint join_with (sep : jsstr) (l : list jsstr) : jsstr :=
  match l with
  | [] => []
  | [x] => x
  | x :: rest => x ++ sep ++ join_with sep rest
  end.

Definition SECTION_SEP : jsstr := [NL; NL] ++ lit "---" ++ [NL; NL].

Definition NO_GUIDELINES : jsstr :=
  lit "No specific brand voice guidelines found for this context.".

(** [formatBrandVoiceForPrompt(contexts)]. *)
Definition formatBrandVoiceForPrompt (contexts : list PromptContext) : jsstr :=
  match contexts with
  | [] => NO_GUIDELINES
  | _ => join_with SECTION_SEP (sections_from 0 contexts)
  end.

End PromptFormat.

(** ** Landing page pagination and premium content
    ([src/lib/utils/hubspot.ts]) *)

Module HubSpotPaging.

Import HubSpot.

(** [HubSpotPagesResponse]: [response.paging?.next?.after] is [next_after]. *)
Record PagesResponse : Type := mkPagesResponse {
  results : list HubSpotLandingPage;
  next_after : option jsstr
}.

(** A [fetch] reply: [response.ok], [response.status], and the body read
    by [response.text()] or by [response.json()] (which may throw). *)
Record HttpReply : Type := mkHttpReply {
  ok : bool;
  status : Z;
  body_text : jsstr;
  body_json : Outcome PagesResponse
}.

(** [HubSpotContent], with [metadata.pdfUrl] (the other metadata, the
    excerpt and the dates are left out: no operation embedded here reads
    them). *)
Record HubSpotContent : Type := mkContent {
  content_id : jsstr;
  content_slug : jsstr;
  title : jsstr;
  content_url : jsstr;
  contentType : ContentType;
  pdfUrl : option jsstr
}.

Definition baseUrl : jsstr := lit "https://api.hubapi.com".

(** The URL of [fetchLandingPages(limit, after)] ([if (after)]: an empty
    cursor is falsy). *)
Definition pages_url (limit : nat) (after : option jsstr) : jsstr :=
  let url0 := baseUrl ++ lit "/cms/v3/pages/landing-pages?limit=" ++ PromptFormat.decimal limit in
  match after with
  | Some ((_ :: _) as a) => url0 ++ lit "&after=" ++ a
  | _ => url0
  end.

Section Client.

(** [fetch(url, { headers })]. *)
Variable http : jsstr -> Outcome HttpReply.
(** [fetch(pageUrl)] and [response.text()] as [extractPdfUrl] uses them. *)
Variable fetchPage : jsstr -> Outcome (option jsstr).

(** [fetchLandingPages(limit, after)]. *)
Definition fetchLandingPages (limit : nat) (after : option jsstr) : Outcome PagesResponse :=
  response <- http (pages_url limit after) ;;
  if negb (ok response)
  then Throw (ErrorObj (lit "HubSpot API error: " ++ PromptFormat.decimal (Z.to_nat (status response))
                        ++ lit " - " ++ body_text response))
  else body_json response.

(** The [while (true)] loop of [fetchAllLandingPages], with fuel. *)
Fixpoint fetch_pages (fuel : nat) (after : option jsstr) (allPages : list HubSpotLandingPage)
    : Outcome (list HubSpotLandingPage) :=
  match fuel with
  | O => Hang
  | S fuel' =>
      response <- fetchLandingPages 100 after ;;
      let allPages' := allPages ++ results response in
      match next_after response with
      | Some ((_ :: _) as a) => fetch_pages fuel' (Some a) allPages'
      | _ => Ret allPages'
      end
  end.

(** [fetchAllLandingPages()]. *)
Definition fetchAllLandingPages (fuel : nat) : Outcome (list HubSpotLandingPage) :=
  fetch_pages fuel None [].

(** [transformLandingPage(page)]: a case study with a URL gets the
    [pdfUrl] [extractPdfUrl] finds ([if (pdfUrl)]: only a non-empty one). *)
Definition transformLandingPage (page : HubSpotLandingPage) : Outcome HubSpotContent :=
  let contentType0 := determineContentType page in
  pdf <- (match contentType0, url page with
          | case_study, _ :: _ =>
              found <- extractPdfUrl fetchPage (url page) ;;
              Ret (match found with Some ((_ :: _) as u) => Some u | _ => None end)
          | _, _ => Ret None
          end) ;;
  Ret (mkContent (page_id page) (slug page) (name page) (url page) contentType0 pdf).

(** [Promise.all(pages.map(transformLandingPage))]. *)
Fixpoint transform_all (pages : list HubSpotLandingPage) : Outcome (list HubSpotContent) :=
  match pages with
  | [] => Ret []
  | page :: rest =>
      c <- transformLandingPage page ;;
      cs <- transform_all rest ;;
      Ret (c :: cs)
  end.

(** [fetchPremiumContent(filter)]. *)
Definition fetchPremiumContent (fuel : nat) (filter : option LandingPageFilterConfig)
    : Outcome (list HubSpotContent) :=
  allPages <- fetchAllLandingPages fuel ;;
  transform_all (filterLandingPages allPages filter).

(** [fetchAllContent()]. *)
Definition fetchAllContent (fuel : nat) : Outcome (list HubSpotContent) :=
  fetchPremiumContent fuel (Some fetchAllContent_filter).

(** The server hands out the pages [chain], the first for the request
    without a cursor and each next one for the non-empty cursor the
    previous reply named; the last reply names no cursor (or an empty
    one). *)
Inductive serves : option jsstr -> list (list HubSpotLandingPage) -> Prop :=
| serves_last (after : option jsstr) (ps : list HubSpotLandingPage) (nxt : option jsstr) :
    fetchLandingPages 100 after = Ret (mkPagesResponse ps nxt) ->
    (nxt = None \/ nxt = Some []) ->
    serves after [ps]
| serves_more (after : option jsstr) (ps : list HubSpotLandingPage) (a : jsstr)
    (rest : list (list HubSpotLandingPage)) :
    fetchLandingPages 100 after = Ret (mkPagesResponse ps (Some a)) ->
    a <> [] ->
    serves (Some a) rest ->
    serves after (ps :: rest).

End Client.

End HubSpotPaging.

Module Scenarios.

Local Open Scope R_scope.

(** Two example posts with the same embedding; [row_new] is the more
    recent one. *)
Definition row_old : BrandVoiceEmbedding :=
  mkRow (lit "row-1") example_post (Some (lit "posts.pdf")) (lit "older post") [1] 1000.
Definition row_new : BrandVoiceEmbedding :=
  mkRow (lit "row-2") example_post (Some (lit "posts.pdf")) (lit "newer post") [1] 2000.
(** A style guide rule. *)
Definition row_style : BrandVoiceEmbedding :=
  mkRow (lit "row-3") style_guide (Some (lit "style-guide.pdf")) (lit "be direct") [1] 3000.

(** An embedding provider mapping every text to the vector [[1]]. *)
Definition constant_provider (_ : jsstr) : Outcome Vec.vector := Ret [1].

(** Chunking inputs. [chunkSize = 1, chunkOverlap = 1] (overlap equal to
    the size) over ["ab"]. *)
Definition equal_overlap : TextChunker.ChunkingOptions :=
  TextChunker.mkChunkingOptions (Some 1%Z) (Some 1%Z) None None.

(** [chunkSize = 3, chunkOverlap = 0] over ["a aaaa"]: the word boundary
    after ["a "] ends the first chunk early. *)
Definition size3_overlap0 : TextChunker.ChunkingOptions :=
  TextChunker.mkChunkingOptions (Some 3%Z) (Some 0%Z) None None.

(** [chunkSize = 2, chunkOverlap = 1] over ["a\n b"]. *)
Definition size2_overlap1 : TextChunker.ChunkingOptions :=
  TextChunker.mkChunkingOptions (Some 2%Z) (Some 1%Z) None None.
Definition stall_text : jsstr := ["a"%char; TextChunker.NL; " "%char; "b"%char].

(** Ingestion environments. Every PDF parses to a one-page document. *)
Definition doc_text : jsstr := lit "Write short sentences.".
Definition parse_ok (_ : jsstr) : Outcome BrandVoiceIngestion.PDFContent :=
  Ret (BrandVoiceIngestion.mkPDF doc_text 1%Z).
(** Every PDF is corrupt. *)
Definition parse_fail (_ : jsstr) : Outcome BrandVoiceIngestion.PDFContent :=
  Throw (ErrorObj (lit "Invalid PDF structure")).
(** The provider answers one vector per input, 7 tokens per request. *)
Definition embed_ok (texts : list jsstr) : Outcome (list Vec.vector * Z) :=
  Ret (map (fun _ => [1]) texts, 7%Z).
(** The provider is rate limited. *)
Definition embed_fail (_ : list jsstr) : Outcome (list Vec.vector * Z) :=
  Throw (ErrorObj (lit "Rate limit exceeded")).
Definition all_exist (_ : jsstr) : bool := true.
Definition none_exist (_ : jsstr) : bool := false.
Definition delete_none (_ : jsstr) : Outcome Z := Ret 0%Z.
Definition insert_ok (_ : list BrandVoiceIngestion.InsertRow) : Outcome unit := Ret tt.
(** A directory with three PDFs and a text file. *)
Definition mixed_dir (_ : jsstr) : Outcome (list jsstr) :=
  Ret [lit "style.pdf"; lit "notes.txt"; lit "Knowledge-Base.PDF"; lit "notes.pdf"].
(** A directory with a single PDF. *)
Definition bad_dir (_ : jsstr) : Outcome (list jsstr) := Ret [lit "bad.pdf"].
Definition style_dir (_ : jsstr) : Outcome (list jsstr) := Ret [lit "style.pdf"].
(** The PDFs [readPDFsFromDirectory] returns for [mixed_dir]. *)
Definition mixed_pdfs : list (jsstr * BrandVoiceIngestion.PDFContent) :=
  [(lit "style.pdf", BrandVoiceIngestion.mkPDF doc_text 1%Z);
   (lit "Knowledge-Base.PDF", BrandVoiceIngestion.mkPDF doc_text 1%Z);
   (lit "notes.pdf", BrandVoiceIngestion.mkPDF doc_text 1%Z)].
(** Caller options asking for the tag [example_post]. *)
Definition as_examples : BrandVoiceIngestion.PartialOptions :=
  BrandVoiceIngestion.mkPartialOptions None None (Some example_post) None.
Definition rate_limited (name : string) (src : BrandVoiceSource)
    : BrandVoiceIngestion.IngestionResult :=
  BrandVoiceIngestion.mkIngestionResult false (lit name) src
    BrandVoiceIngestion.zero_stats [lit "Rate limit exceeded"].
Definition ingested (name : string) (src : BrandVoiceSource)
    : BrandVoiceIngestion.IngestionResult :=
  BrandVoiceIngestion.mkIngestionResult true (lit name) src
    (BrandVoiceIngestion.mkStats 1 22 1 1 7) [].

(** Every file but [docs/notes.pdf] exists. *)
Definition missing_notes (f : jsstr) : bool := negb (jsstr_eqb f (lit "docs/notes.pdf")).
(** No caller options. *)
Definition no_options : BrandVoiceIngestion.PartialOptions :=
  BrandVoiceIngestion.mkPartialOptions None None None None.

(** A new example post, and the row the store returns for it. *)
Definition newest_data : StoreInsert.InsertData :=
  StoreInsert.mkInsertData example_post (Some (lit "posts.pdf")) (lit "newest post") [1].
Definition row_newest : BrandVoiceEmbedding :=
  mkRow (lit "row-9") example_post (Some (lit "posts.pdf")) (lit "newest post") [1] 5000.

(** A HubSpot portal serving three landing pages over two requests, and a
    page fetcher that finds no page. *)
Definition page_acme : HubSpot.HubSpotLandingPage :=
  HubSpot.mkPage (lit "1") (lit "EMBED - Acme Case Study") (lit "acme")
    (lit "https://example.com/acme") None.
Definition page_guide : HubSpot.HubSpotLandingPage :=
  HubSpot.mkPage (lit "2") (lit "PC/LP Pricing Guide") (lit "guide")
    (lit "https://example.com/guide") None.
Definition page_misc : HubSpot.HubSpotLandingPage :=
  HubSpot.mkPage (lit "3") (lit "Careers") (lit "careers")
    (lit "https://example.com/careers") None.
Definition two_page_portal (u : jsstr) : Outcome HubSpotPaging.HttpReply :=
  if jsstr_eqb u (HubSpotPaging.pages_url 100 None) then
    Ret (HubSpotPaging.mkHttpReply true 200 []
           (Ret (HubSpotPaging.mkPagesResponse [page_acme] (Some (lit "c2")))))
  else if jsstr_eqb u (HubSpotPaging.pages_url 100 (Some (lit "c2"))) then
    Ret (HubSpotPaging.mkHttpReply true 200 []
           (Ret (HubSpotPaging.mkPagesResponse [page_guide; page_misc] None)))
  else Ret (HubSpotPaging.mkHttpReply false 404 (lit "not found") (Throw NonError)).
Definition no_page (_ : jsstr) : Outcome (option jsstr) := Ret None.

End Scenarios.

(** * Properties *)

Ltac settle_reals :=
  repeat match goal with
  | |- context [Rge_dec ?a ?b] =>
      let H := fresh "H" in destruct (Rge_dec a b) as [H|H]; try (exfalso; lra)
  | |- context [Rle_dec ?a ?b] =>
      let H := fresh "H" in destruct (Rle_dec a b) as [H|H]; try (exfalso; lra)
  end.

(** ** Cosine similarity *)

Module CosineFacts.

Local Open Scope R_scope.

Lemma cos_loop_magnitudes (a b : Vec.vector) (d ma mb : R) :
  List.length a = List.length b ->
  match Vec.cos_loop (d, ma, mb) a b with
  | (_, ma', mb') =>
      ma' = fold_left (fun m x => m + x * x) a ma /\
      mb' = fold_left (fun m x => m + x * x) b mb
  end.
Proof.
  revert b d ma mb.
  induction a as [|x a IH]; intros [|y b] d ma mb Hlen; simpl in *;
    try discriminate; auto.
  apply IH. lia.
Qed.

Lemma cos_of_loop_zero (a b : Vec.vector) :
  List.length a = List.length b ->
  Vec.magnitude a = 0 \/ Vec.magnitude b = 0 ->
  Vec.cos_of_loop a b = 0.
Proof.
  intros Hlen Hz. unfold Vec.cos_of_loop, Vec.magnitude in *.
  pose proof (cos_loop_magnitudes a b 0 0 0 Hlen) as Hm.
  destruct (Vec.cos_loop (0, 0, 0) a b) as [[d ma] mb].
  destruct Hm as [-> ->].
  destruct (Req_dec_T _ 0) as [|H1]; [reflexivity|].
  destruct (Req_dec_T _ 0) as [|H2]; [reflexivity|].
  destruct Hz; contradiction.
Qed.

End CosineFacts.

(** C2 (amended). The store's [cosineSimilarity] (brand-voice.ts, the one
    the similarity search uses) returns exactly [0] whenever either vector
    has zero magnitude or the lengths differ. The [cosineSimilarity] of
    embeddings.ts returns [0] (without throwing) when the lengths agree and
    either magnitude is zero, and throws
    ['Embeddings must have the same dimensions'] when the lengths differ. *)
Theorem cosine_degenerate_zero :
  (forall a b : Vec.vector,
      (Vec.magnitude a = 0%R \/ Vec.magnitude b = 0%R \/
       List.length a <> List.length b) ->
      BrandVoiceQueries.cosineSimilarity a b = 0%R) /\
  (forall a b : Vec.vector,
      List.length a = List.length b ->
      (Vec.magnitude a = 0%R \/ Vec.magnitude b = 0%R) ->
      Embeddings.cosineSimilarity a b = Ret 0%R) /\
  (forall a b : Vec.vector,
      List.length a <> List.length b ->
      Embeddings.cosineSimilarity a b =
        Throw (ErrorObj (lit "Embeddings must have the same dimensions"))).
Proof.
  split; [|split].
  - intros a b H. unfold BrandVoiceQueries.cosineSimilarity.
    destruct (Nat.eqb_spec (List.length a) (List.length b)) as [E|E];
      simpl; [|reflexivity].
    apply CosineFacts.cos_of_loop_zero; [exact E|].
    destruct H as [H|[H|H]]; auto; contradiction.
  - intros a b E H. unfold Embeddings.cosineSimilarity.
    rewrite (proj2 (Nat.eqb_eq _ _) E). simpl.
    rewrite CosineFacts.cos_of_loop_zero; auto.
  - intros a b E. unfold Embeddings.cosineSimilarity.
    rewrite (proj2 (Nat.eqb_neq _ _) E). reflexivity.
Qed.

(** C2 (counterexample). The exported [cosineSimilarity] of embeddings.ts
    throws, rather than returning [0], on vectors of lengths 1 and 2. *)
Lemma cosine_mismatch_throws :
  Embeddings.cosineSimilarity [1%R] [1%R; 2%R] =
    Throw (ErrorObj (lit "Embeddings must have the same dimensions")).
Proof. reflexivity. Qed.

(** ** Similarity search *)

Module SearchFacts.

Import BrandVoiceQueries.

Local Open Scope R_scope.

Definition desc (a b : Scored) : Prop := similarity b <= similarity a.

Lemma insert_sorted_sorted (x : Scored) (l : list Scored) :
  Sorted desc l -> Sorted desc (insert_sorted x l).
Proof.
  induction l as [|y l IH]; intros Hs; simpl.
  - repeat constructor.
  - unfold compare. destruct (Rle_dec (similarity y - similarity x) 0) as [Hle|Hgt].
    + constructor; [exact Hs|]. constructor. unfold desc. lra.
    + apply Sorted_inv in Hs as [Hl Hhd].
      constructor; [apply IH; exact Hl|].
      destruct l as [|z l]; simpl.
      * constructor. unfold desc. lra.
      * unfold compare. destruct (Rle_dec (similarity z - similarity x) 0).
        -- constructor. unfold desc. lra.
        -- inversion Hhd; subst. constructor. assumption.
Qed.

Lemma sort_sorted (l : list Scored) : Sorted desc (sort l).
Proof.
  induction l; simpl; [constructor|]. apply insert_sorted_sorted. assumption.
Qed.

Lemma in_insert_sorted (x y : Scored) (l : list Scored) :
  In y (insert_sorted x l) <-> x = y \/ In y l.
Proof.
  induction l as [|z l IH]; simpl.
  - tauto.
  - destruct (Rle_dec (compare x z) 0); simpl; [tauto|].
    rewrite IH. tauto.
Qed.

Lemma in_sort (y : Scored) (l : list Scored) : In y (sort l) <-> In y l.
Proof.
  induction l as [|x l IH]; simpl; [tauto|].
  rewrite in_insert_sorted, IH. tauto.
Qed.

Lemma sorted_firstn (n : nat) (l : list Scored) :
  Sorted desc l -> Sorted desc (firstn n l).
Proof.
  revert l. induction n as [|n IH]; intros l Hs; [constructor|].
  destruct l as [|x l]; simpl; [constructor|].
  apply Sorted_inv in Hs as [Hl Hhd]. constructor; [apply IH; exact Hl|].
  destruct n, l; simpl; try constructor. inversion Hhd; assumption.
Qed.

Lemma slice_from_zero {A} (l : list A) (e : Z) :
  (0 <= e)%Z -> slice l 0 e = firstn (Z.to_nat e) l.
Proof.
  intros He. unfold slice, slice_index, len.
  replace (0 <? 0)%Z with false by reflexivity.
  destruct (Z.ltb_spec e 0) as [|_]; [lia|].
  replace (Z.min 0 (Z.of_nat (List.length l))) with 0%Z by lia.
  simpl skipn. rewrite Z.sub_0_r.
  destruct (Z.le_ge_cases e (Z.of_nat (List.length l))) as [Hc|Hc].
  - rewrite Z.min_l by exact Hc. reflexivity.
  - rewrite Z.min_r by lia. rewrite Nat2Z.id.
    rewrite firstn_all, firstn_all2; [reflexivity|lia].
Qed.

Lemma filter_similarity_insert (v : R) (x : Scored) (l : list Scored) :
  filter (has_similarity v) (insert_sorted x l) =
  if has_similarity v x then x :: filter (has_similarity v) l
  else filter (has_similarity v) l.
Proof.
  induction l as [|y l IH]; simpl.
  - destruct (has_similarity v x); reflexivity.
  - unfold compare. destruct (Rle_dec (similarity y - similarity x) 0) as [Hle|Hgt].
    + simpl. destruct (has_similarity v x); reflexivity.
    + simpl. rewrite IH. unfold has_similarity.
      destruct (Req_dec_T (similarity x) v) as [Ex|Ex];
        destruct (Req_dec_T (similarity y) v) as [Ey|Ey]; try reflexivity.
      exfalso. lra.
Qed.

Lemma filter_similarity_sort (v : R) (l : list Scored) :
  filter (has_similarity v) (sort l) = filter (has_similarity v) l.
Proof.
  induction l as [|x l IH]; simpl; [reflexivity|].
  rewrite filter_similarity_insert, IH. reflexivity.
Qed.

Lemma in_firstn_in {A} (n : nat) (x : A) (l : list A) :
  In x (firstn n l) -> In x l.
Proof.
  intros H. rewrite <- (firstn_skipn n l). apply in_or_app. left. exact H.
Qed.

Lemma cosine_unit : cosineSimilarity [1] [1] = 1.
Proof.
  unfold cosineSimilarity. simpl. unfold Vec.cos_of_loop. simpl.
  replace (0 + 1 * 1) with 1 by ring. rewrite sqrt_1.
  destruct (Req_dec_T 1 0); [lra|]. field.
Qed.

End SearchFacts.

(** C4 (amended). For every table, query vector, source filter,
    [minSimilarity] and non-negative [topK], the result of
    [findSimilarBrandVoice] is sorted in non-increasing order of similarity
    (ties are possible), every element has similarity at least
    [minSimilarity], and it has at most [topK] elements. *)
Theorem findSimilar_sorted_thresholded_bounded
    (table : list BrandVoiceEmbedding) (q : Vec.vector) (topK : Z)
    (minSimilarity : R) (src : option BrandVoiceSource) :
  (0 <= topK)%Z ->
  let res := BrandVoiceQueries.findSimilarBrandVoice table q topK minSimilarity src in
  Sorted (fun a b => (similarity b <= similarity a)%R) res /\
  Forall (fun s => (similarity s >= minSimilarity)%R) res /\
  (len res <= topK)%Z.
Proof.
  intros HK res. unfold res, BrandVoiceQueries.findSimilarBrandVoice.
  rewrite SearchFacts.slice_from_zero by exact HK.
  split; [|split].
  - apply SearchFacts.sorted_firstn, SearchFacts.sort_sorted.
  - apply Forall_forall. intros s Hs.
    apply SearchFacts.in_firstn_in, (proj1 (SearchFacts.in_sort _ _)) in Hs.
    unfold BrandVoiceQueries.kept_candidates in Hs.
    apply filter_In in Hs as [_ Hs].
    destruct (Rge_dec (similarity s) minSimilarity); [assumption|discriminate].
  - unfold len. pose proof (firstn_le_length (Z.to_nat topK)
      (BrandVoiceQueries.sort
         (BrandVoiceQueries.kept_candidates table q minSimilarity src))). lia.
Qed.

(** Witness of C4: the search over the two tied rows with [topK = 5]. *)
Lemma findSimilar_sorted_thresholded_bounded_witness :
  (0 <= 5)%Z /\
  (let res := BrandVoiceQueries.findSimilarBrandVoice
                [Scenarios.row_old; Scenarios.row_new] [1%R] 5 (7 / 10)%R None in
   Sorted (fun a b => (similarity b <= similarity a)%R) res /\
   Forall (fun s => (similarity s >= 7 / 10)%R) res /\
   (len res <= 5)%Z).
Proof.
  split; [lia|].
  apply (findSimilar_sorted_thresholded_bounded
           [Scenarios.row_old; Scenarios.row_new] [1%R] 5 (7 / 10)%R None).
  lia.
Defined.

Module SearchScenario.

(** Both tied rows pass [minSimilarity = 0.7] with similarity [1] and keep
    their fetch order. *)
Lemma tied_rows_result :
  BrandVoiceQueries.sort
    (BrandVoiceQueries.kept_candidates [Scenarios.row_old; Scenarios.row_new]
       [1%R] (7 / 10)%R None) =
  [mkScored Scenarios.row_old 1%R; mkScored Scenarios.row_new 1%R].
Proof.
  unfold BrandVoiceQueries.kept_candidates. cbn [BrandVoiceQueries.select_candidates map].
  unfold Scenarios.row_old, Scenarios.row_new. cbn [embedding].
  rewrite SearchFacts.cosine_unit. cbn [filter similarity].
  settle_reals. cbn. unfold BrandVoiceQueries.compare. cbn [similarity].
  settle_reals. reflexivity.
Qed.

End SearchScenario.

(** C4 (counterexample). Two rows with the same embedding give a result
    whose two similarities are equal (not strictly descending), and with
    [topK = -1] the result has one element, more than [topK]
    ([slice(0, -1)] drops only the last element). *)
Lemma findSimilar_ties_and_negative_topK :
  BrandVoiceQueries.findSimilarBrandVoice
    [Scenarios.row_old; Scenarios.row_new] [1%R] 5 (7 / 10)%R None =
    [mkScored Scenarios.row_old 1%R; mkScored Scenarios.row_new 1%R] /\
  len (BrandVoiceQueries.findSimilarBrandVoice
         [Scenarios.row_old; Scenarios.row_new] [1%R] (-1) (7 / 10)%R None) = 1%Z.
Proof.
  unfold BrandVoiceQueries.findSimilarBrandVoice.
  rewrite SearchScenario.tied_rows_result. split; reflexivity.
Qed.

(** C5 (amended). [findSimilarBrandVoice] breaks ties by the order in which
    the candidate rows were fetched (the [SELECT] has no [ORDER BY]), not
    by [created_at]: for every similarity value [v] and non-negative
    [topK], the results with similarity [v] are, in order, a prefix of the
    candidates with similarity [v] in fetch order. *)
Theorem findSimilar_ties_keep_fetch_order
    (table : list BrandVoiceEmbedding) (q : Vec.vector) (topK : Z)
    (minSimilarity v : R) (src : option BrandVoiceSource) :
  (0 <= topK)%Z ->
  exists rest,
    filter (BrandVoiceQueries.has_similarity v)
      (BrandVoiceQueries.kept_candidates table q minSimilarity src) =
    filter (BrandVoiceQueries.has_similarity v)
      (BrandVoiceQueries.findSimilarBrandVoice table q topK minSimilarity src)
    ++ rest.
Proof.
  intros HK. unfold BrandVoiceQueries.findSimilarBrandVoice.
  rewrite SearchFacts.slice_from_zero by exact HK.
  set (l := BrandVoiceQueries.sort
              (BrandVoiceQueries.kept_candidates table q minSimilarity src)).
  exists (filter (BrandVoiceQueries.has_similarity v) (skipn (Z.to_nat topK) l)).
  rewrite <- filter_app, firstn_skipn. unfold l.
  rewrite SearchFacts.filter_similarity_sort. reflexivity.
Qed.

(** Witness of C5: the two tied rows, similarity [1], [topK = 5]. *)
Lemma findSimilar_ties_keep_fetch_order_witness :
  (0 <= 5)%Z /\
  exists rest,
    filter (BrandVoiceQueries.has_similarity 1%R)
      (BrandVoiceQueries.kept_candidates [Scenarios.row_old; Scenarios.row_new]
         [1%R] (7 / 10)%R None) =
    filter (BrandVoiceQueries.has_similarity 1%R)
      (BrandVoiceQueries.findSimilarBrandVoice [Scenarios.row_old; Scenarios.row_new]
         [1%R] 5 (7 / 10)%R None) ++ rest.
Proof.
  split; [lia|].
  apply (findSimilar_ties_keep_fetch_order
           [Scenarios.row_old; Scenarios.row_new] [1%R] 5 (7 / 10)%R 1%R None).
  lia.
Defined.

(** C5 (counterexample). Two rows with equal similarity, the older one
    ([created_at = 1000]) fetched first: the older one is ranked first. *)
Lemma findSimilar_older_tie_first :
  map (fun s => created_at (item s))
    (BrandVoiceQueries.findSimilarBrandVoice
       [Scenarios.row_old; Scenarios.row_new] [1%R] 5 (7 / 10)%R None) =
  [1000; 2000]%Z.
Proof.
  unfold BrandVoiceQueries.findSimilarBrandVoice.
  rewrite SearchScenario.tied_rows_result. reflexivity.
Qed.

(** ** Retrieval presets *)

(** C1 (code bug). The [sources] restriction of the presets is never passed
    to [findSimilarBrandVoice] (it is called with three arguments), so the
    candidate set is the whole table: with a provider embedding every
    query as [[1]], the guidelines preset returns an [example_post] row and
    the examples preset returns a [style_guide] row. *)
Theorem presets_ignore_source_restriction :
  BrandVoiceRag.getBrandVoiceGuidelines Scenarios.constant_provider
    [Scenarios.row_old] (lit "blog post") (Some (lit "LinkedIn")) =
    Ret [BrandVoiceRag.mkContext (lit "older post") example_post
           (Some (lit "posts.pdf")) 1%R] /\
  BrandVoiceRag.getBrandVoiceExamples Scenarios.constant_provider
    [Scenarios.row_style] (lit "product launch") (lit "LinkedIn") =
    Ret [BrandVoiceRag.mkContext (lit "be direct") style_guide
           (Some (lit "style-guide.pdf")) 1%R].
Proof.
  unfold BrandVoiceRag.getBrandVoiceGuidelines, BrandVoiceRag.getBrandVoiceExamples,
    BrandVoiceRag.retrieveBrandVoiceContext, Scenarios.constant_provider.
  cbn [BrandVoiceRag.topK BrandVoiceRag.minSimilarity].
  unfold BrandVoiceQueries.findSimilarBrandVoice, BrandVoiceQueries.kept_candidates.
  cbn [BrandVoiceQueries.select_candidates map].
  unfold Scenarios.row_old, Scenarios.row_style. cbn [embedding].
  rewrite SearchFacts.cosine_unit. cbn [filter similarity].
  settle_reals. split; reflexivity.
Qed.

(** ** Batched embedding generation *)

Module BatchFacts.

Import Embeddings.

Lemma firstn_min {A} (k : nat) (l : list A) :
  firstn (Nat.min k (List.length l)) l = firstn k l.
Proof.
  destruct (Nat.le_ge_cases k (List.length l)) as [H|H].
  - rewrite Nat.min_l by exact H. reflexivity.
  - rewrite Nat.min_r by exact H. rewrite firstn_all, firstn_all2 by exact H.
    reflexivity.
Qed.

Lemma slice_window {A} (l : list A) (s e : Z) :
  (0 <= s <= e)%Z ->
  slice l s e = firstn (Z.to_nat (e - s)) (skipn (Z.to_nat s) l).
Proof.
  intros [Hs He]. unfold slice, slice_index, len.
  destruct (Z.ltb_spec s 0) as [|_]; [lia|].
  destruct (Z.ltb_spec e 0) as [|_]; [lia|].
  destruct (Z.le_gt_cases (Z.of_nat (List.length l)) s) as [Hn|Hn].
  - rewrite (Z.min_r s) by exact Hn. rewrite (Z.min_r e) by lia.
    rewrite Z.sub_diag. simpl (firstn (Z.to_nat 0) _).
    rewrite (skipn_all2 l) by lia. rewrite firstn_nil. reflexivity.
  - rewrite (Z.min_l s) by lia.
    replace (Z.to_nat (Z.min e (Z.of_nat (List.length l)) - s))
      with (Nat.min (Z.to_nat (e - s)) (List.length (skipn (Z.to_nat s) l)))
      by (rewrite length_skipn; lia).
    apply firstn_min.
Qed.

Lemma pair_with_batch_texts (model : jsstr) (data : list Vec.vector) (batch : list jsstr) :
  List.length data = List.length batch ->
  map emb_text (pair_with_batch model data batch) = batch.
Proof.
  revert batch. induction data as [|v data IH]; intros [|t batch] H;
    simpl in *; try discriminate; [reflexivity|].
  f_equal. apply IH. lia.
Qed.

(** The number of iterations left from index [i]. *)
Definition remaining (n bs i : Z) : Z :=
  if i <? n then (n - i + bs - 1) / bs else 0.

Lemma remaining_step (n bs i : Z) :
  (1 <= bs)%Z -> (0 <= i < n)%Z -> remaining n bs i = (1 + remaining n bs (i + bs))%Z.
Proof.
  intros Hb Hi. unfold remaining.
  destruct (Z.ltb_spec i n) as [_|]; [|lia].
  destruct (Z.ltb_spec (i + bs) n) as [Hlt|Hge].
  - replace (n - i + bs - 1)%Z with ((n - (i + bs) + bs - 1) + 1 * bs)%Z by ring.
    rewrite Z.div_add by lia. lia.
  - enough (E : ((n - i + bs - 1) / bs = 1)%Z) by lia.
    symmetry. apply (Z.div_unique_pos _ _ _ (n - i - 1)); lia.
Qed.

Section Loop.

Variable create : list jsstr -> Outcome (list Vec.vector * Z).
Hypothesis create_total : forall batch, exists data used,
  create batch = Ret (data, used) /\ List.length data = List.length batch.
Variable texts : list jsstr.
Variable model : jsstr.
Variable bs : Z.
Hypothesis bs_pos : (1 <= bs)%Z.

Lemma batch_loop_spec (fuel : nat) (st : BatchState) :
  (0 <= bi st)%Z ->
  (Z.to_nat (len texts - bi st) < fuel)%nat ->
  exists st', batch_loop create fuel texts model bs st = Ret st' /\
    (exists cs, calls st' = calls st ++ cs /\
       List.concat cs = skipn (Z.to_nat (bi st)) texts /\
       len cs = remaining (len texts) bs (bi st)) /\
    (exists es, allEmbeddings st' = allEmbeddings st ++ es /\
       map emb_text es = skipn (Z.to_nat (bi st)) texts).
Proof.
  revert st. induction fuel as [|fuel IH]; intros st Hi Hf; [lia|].
  simpl. destruct (Z.ltb_spec (bi st) (len texts)) as [Hlt|Hge].
  - unfold batch_step.
    destruct (create_total (slice texts (bi st) (bi st + bs))) as (data & used & Hc & Hl).
    rewrite Hc. simpl.
    set (batch := slice texts (bi st) (bi st + bs)) in *.
    destruct (IH (mkBatchState (bi st + bs) (allEmbeddings st ++ pair_with_batch model data batch)
                    (tokens_so_far st + used) (calls st ++ [batch])))
      as (st' & Hrun & (cs & Hcs & Hcc & Hcl) & (es & Hes & Het));
      simpl; [lia|unfold len in *; lia|].
    cbn [bi calls allEmbeddings tokens_so_far] in *.
    exists st'. split; [exact Hrun|]. split.
    + exists (batch :: cs). split; [rewrite Hcs, <- app_assoc; reflexivity|].
      split.
      * simpl. rewrite Hcc. unfold batch. rewrite slice_window by lia.
        replace (bi st + bs - bi st)%Z with bs by ring.
        rewrite Z2Nat.inj_add by lia. rewrite Nat.add_comm, <- skipn_skipn.
        apply firstn_skipn.
      * unfold len in *.
        change (Datatypes.length (batch :: cs)) with (S (Datatypes.length cs)).
        rewrite Nat2Z.inj_succ.
        rewrite (remaining_step (Z.of_nat (List.length texts)) bs (bi st)) by lia.
        simpl in Hcl. lia.
    + exists (pair_with_batch model data batch ++ es).
      split; [rewrite Hes, <- app_assoc; reflexivity|].
      rewrite map_app, pair_with_batch_texts by exact Hl. rewrite Het.
      unfold batch. rewrite slice_window by lia.
      replace (bi st + bs - bi st)%Z with bs by ring.
      rewrite Z2Nat.inj_add by lia. rewrite Nat.add_comm, <- skipn_skipn.
      apply firstn_skipn.
  - exists st. split; [reflexivity|].
    assert (Hs : skipn (Z.to_nat (bi st)) texts = []).
    { apply skipn_all2. unfold len in Hge. lia. }
    split.
    + exists []. rewrite app_nil_r. split; [reflexivity|]. split; [simpl; auto|].
      unfold remaining. destruct (Z.ltb_spec (bi st) (len texts)); [lia|reflexivity].
    + exists []. rewrite app_nil_r, Hs. split; reflexivity.
Qed.

End Loop.

(** A provider that embeds every text as [[1]] and bills one token per
    text. *)
Definition unit_provider (batch : list jsstr) : Outcome (list Vec.vector * Z) :=
  Ret (map (fun _ => [1%R]) batch, len batch).

Lemma unit_provider_total : forall batch, exists data used,
  unit_provider batch = Ret (data, used) /\ List.length data = List.length batch.
Proof.
  intros batch. eexists. eexists. split; [reflexivity|]. apply length_map.
Qed.

Definition five_texts : list jsstr :=
  [lit "t1"; lit "t2"; lit "t3"; lit "t4"; lit "t5"].

End BatchFacts.

(** C6. For every list of texts, every positive integer batch size, and a
    provider that answers every request with one vector per input (the
    provider's side of the contract), [generateEmbeddingsBatch] makes
    exactly [ceil(n / batchSize)] provider calls (written
    [(n + batchSize - 1) / batchSize]), the calls are consecutive slices
    covering the input, and it returns one embedding per input text, in
    input order. *)
Theorem generateEmbeddingsBatch_calls_and_order
    (create : list jsstr -> Outcome (list Vec.vector * Z))
    (texts : list jsstr) (model : jsstr) (batchSize : Z) (fuel : nat) :
  (forall batch, exists data used,
      create batch = Ret (data, used) /\ List.length data = List.length batch) ->
  (1 <= batchSize)%Z ->
  (List.length texts < fuel)%nat ->
  exists r calls,
    Embeddings.generateEmbeddingsBatch create true fuel texts model batchSize =
      Ret (r, calls) /\
    len calls = ((len texts + batchSize - 1) / batchSize)%Z /\
    List.concat calls = texts /\
    map Embeddings.emb_text (Embeddings.embeddings r) = texts.
Proof.
  intros Hc Hb Hf.
  destruct (BatchFacts.batch_loop_spec create Hc texts model batchSize Hb fuel
              (Embeddings.mkBatchState 0 [] 0 []))
    as (st' & Hrun & (cs & Hcs & Hcc & Hcl) & (es & Hes & Het));
    simpl; [lia|unfold len; lia|].
  unfold Embeddings.generateEmbeddingsBatch. simpl negb. cbv iota.
  rewrite Hrun. simpl.
  eexists. eexists. split; [reflexivity|].
  cbn [Embeddings.calls Embeddings.allEmbeddings Embeddings.bi] in *.
  rewrite Hcs, Hes. simpl. split; [|split; assumption].
  rewrite Hcl. unfold BatchFacts.remaining.
  destruct (Z.ltb_spec 0 (len texts)) as [|Hn]; [f_equal; ring|].
  assert (E : len texts = 0%Z) by (unfold len in *; lia).
  rewrite E, Z.div_small; lia.
Qed.

(** Witness of C6: [batchSize = 2] over five texts. *)
Lemma generateEmbeddingsBatch_calls_and_order_witness :
  (forall batch, exists data used,
      BatchFacts.unit_provider batch = Ret (data, used) /\
      List.length data = List.length batch) /\
  (1 <= 2)%Z /\ (List.length BatchFacts.five_texts < 6)%nat /\
  exists r calls,
    Embeddings.generateEmbeddingsBatch BatchFacts.unit_provider true 6
      BatchFacts.five_texts Embeddings.SMALL 2 = Ret (r, calls) /\
    len calls = ((len BatchFacts.five_texts + 2 - 1) / 2)%Z /\
    List.concat calls = BatchFacts.five_texts /\
    map Embeddings.emb_text (Embeddings.embeddings r) = BatchFacts.five_texts.
Proof.
  split; [exact BatchFacts.unit_provider_total|].
  split; [lia|]. split; [simpl; lia|].
  apply (generateEmbeddingsBatch_calls_and_order BatchFacts.unit_provider
           BatchFacts.five_texts Embeddings.SMALL 2 6).
  - exact BatchFacts.unit_provider_total.
  - lia.
  - simpl; lia.
Defined.

(** The spec's instance: [batchSize = 2] over five texts issues exactly
    three provider calls, [[t1; t2]], [[t3; t4]], [[t5]], and returns five
    embeddings in input order. *)
Example generateEmbeddingsBatch_two_over_five :
  match Embeddings.generateEmbeddingsBatch BatchFacts.unit_provider true 6
          BatchFacts.five_texts Embeddings.SMALL 2 with
  | Ret (r, calls) =>
      calls = [[lit "t1"; lit "t2"]; [lit "t3"; lit "t4"]; [lit "t5"]] /\
      map Embeddings.emb_text (Embeddings.embeddings r) = BatchFacts.five_texts
  | _ => False
  end.
Proof. split; reflexivity. Qed.

(** ** Chunking *)

Module ChunkFacts.

Import TextChunker.

Lemma last_match_from_ge (s sub : jsstr) (n : nat) : (-1 <= last_match_from s sub n)%Z.
Proof.
  induction n as [|n IH]; simpl; destruct (is_prefix sub _); lia.
Qed.

Lemma lastIndexOf_ge (s sub : jsstr) (pos : Z) : (-1 <= lastIndexOf s sub pos)%Z.
Proof.
  unfold lastIndexOf. destruct (_ <? 0)%Z; [lia|]. apply last_match_from_ge.
Qed.

Lemma lastIndexOf_empty (s : jsstr) (pos : Z) :
  (0 <= pos)%Z -> lastIndexOf s [] pos = Z.min pos (len s).
Proof.
  intros Hp. unfold lastIndexOf. change (len (@nil ascii)) with 0%Z.
  rewrite Z.sub_0_r.
  replace (Z.min (Z.min (Z.max pos 0) (len s)) (len s)) with (Z.min pos (len s))
    by (unfold len; lia).
  destruct (Z.ltb_spec (Z.min pos (len s)) 0) as [H|H]; [unfold len in *; lia|].
  assert (Hm : forall n, last_match_from s [] n = Z.of_nat n) by (intros []; reflexivity).
  rewrite Hm, Z2Nat.id by exact H. reflexivity.
Qed.

Lemma len_substring (s : jsstr) (a b : Z) :
  (0 <= a <= b)%Z -> (b <= len s)%Z -> len (substring s a b) = (b - a)%Z.
Proof.
  intros Hab Hb. unfold substring, len in *.
  rewrite (Z.max_l a 0) by lia. rewrite (Z.max_l b 0) by lia.
  rewrite (Z.min_l a) by lia. rewrite (Z.min_l b) by lia.
  rewrite (Z.min_l a b) by lia. rewrite (Z.max_r a b) by lia.
  rewrite length_firstn, length_skipn. lia.
Qed.

Lemma find_split_gt (cleanText : jsstr) (s endPos : Z) (seps : list jsstr) (p : Z) :
  (0 <= s < endPos)%Z -> (endPos <= len cleanText)%Z ->
  find_split cleanText s endPos seps = Some p -> (s < p)%Z.
Proof.
  intros Hs He. induction seps as [|sep seps IH]; simpl; [discriminate|].
  set (searchStart := Z.max s (endPos - 200)).
  set (searchEnd := Z.min (endPos + 100) (len cleanText)).
  set (segment := substring cleanText searchStart searchEnd).
  pose proof (lastIndexOf_ge segment sep (endPos - searchStart)) as Hge.
  destruct (Z.eqb_spec (lastIndexOf segment sep (endPos - searchStart)) (-1))
    as [Hm|Hm]; simpl; [exact IH|].
  intros Hp. injection Hp as <-.
  destruct sep as [|c sep].
  - rewrite lastIndexOf_empty by (unfold searchStart; lia).
    assert (Hseg : len segment = (searchEnd - searchStart)%Z).
    { apply len_substring; unfold searchStart, searchEnd; lia. }
    rewrite Hseg. change (len (@nil ascii)) with 0%Z.
    unfold searchStart, searchEnd. lia.
  - assert (Hl : (1 <= len (c :: sep))%Z) by (unfold len; simpl; lia).
    unfold searchStart in *. lia.
Qed.

Lemma cut_end_gt (o : ResolvedOptions) (cleanText : jsstr) (s : Z) :
  (1 <= opt_size o)%Z -> (0 <= s < len cleanText)%Z ->
  (s < cut_end o cleanText s)%Z.
Proof.
  intros Hc Hs. unfold cut_end.
  destruct (Z.ltb_spec (Z.min (s + opt_size o) (len cleanText)) (len cleanText));
    [|lia].
  destruct (find_split _ _ _ _) as [p|] eqn:E; [|lia].
  apply (find_split_gt cleanText s (Z.min (s + opt_size o) (len cleanText))
           (opt_separators o)); [lia|lia|exact E].
Qed.

Lemma last_chunk_snoc (l : list TextChunk) (c : TextChunk) :
  last_chunk (l ++ [c]) = Some c.
Proof. unfold last_chunk. rewrite rev_app_distr. reflexivity. Qed.

Lemma chunk_loop_no_throw (fuel : nat) (o : ResolvedOptions) (cleanText : jsstr)
    (st : ChunkState) (e : JsError) :
  chunk_loop fuel o cleanText st <> Throw e.
Proof.
  revert st. induction fuel as [|fuel IH]; intros st; simpl;
    destruct (_ <? _)%Z; try discriminate. apply IH.
Qed.

Lemma trim_start_suffix (l : jsstr) : exists p, l = p ++ trim_start l.
Proof.
  induction l as [|c l [p Hp]]; simpl; [exists []; reflexivity|].
  destruct (is_js_space c); [exists (c :: p); simpl; rewrite <- Hp; reflexivity|].
  exists []. reflexivity.
Qed.

Lemma trim_start_head (l r : jsstr) (c : ascii) :
  trim_start l = c :: r -> is_js_space c = false.
Proof.
  induction l as [|d l IH]; simpl; [discriminate|].
  destruct (is_js_space d) eqn:E; [exact IH|]. intros H. injection H as -> _. exact E.
Qed.

Lemma trim_head (s r : jsstr) (c : ascii) : trim s = c :: r -> is_js_space c = false.
Proof.
  unfold trim. intros H.
  remember (trim_start s) as u eqn:Hu.
  destruct (trim_start_suffix (rev u)) as [p Hp].
  remember (trim_start (rev u)) as w eqn:Hw.
  assert (Hu' : u = rev w ++ rev p).
  { rewrite <- (rev_involutive u), Hp, rev_app_distr. reflexivity. }
  rewrite H in Hu'. apply (trim_start_head s (r ++ rev p)). rewrite <- Hu, Hu'.
  reflexivity.
Qed.

Lemma trim_start_keeps (l : jsstr) (c : ascii) :
  is_js_space c = false -> In c l -> trim_start l <> [].
Proof.
  intros Hc. induction l as [|d l IH]; simpl; [tauto|].
  intros [->|Hin].
  - rewrite Hc. discriminate.
  - destruct (is_js_space d); [apply IH; exact Hin|discriminate].
Qed.

Lemma trim_nonempty (c : ascii) (x : jsstr) :
  is_js_space c = false -> trim (c :: x) <> [].
Proof.
  intros Hc. unfold trim. simpl. rewrite Hc.
  intros H. apply (f_equal (@rev ascii)) in H. rewrite rev_involutive in H.
  apply (trim_start_keeps (rev x ++ [c]) c Hc); [|exact H].
  apply in_or_app. right. left. reflexivity.
Qed.

Lemma substring_head (cleanText r : jsstr) (c : ascii) (e : Z) :
  cleanText = c :: r -> (1 <= e)%Z ->
  exists x, substring cleanText 0 e = c :: x.
Proof.
  intros -> He. unfold substring, len. simpl (List.length (c :: r)).
  set (b := Z.min (Z.max e 0) (Z.of_nat (S (List.length r)))).
  assert (Hb : (1 <= b)%Z) by (unfold b; lia).
  replace (Z.min (Z.min (Z.max 0 0) (Z.of_nat (S (List.length r)))) b) with 0%Z
    by (unfold b; lia).
  replace (Z.max (Z.min (Z.max 0 0) (Z.of_nat (S (List.length r)))) b) with b
    by (unfold b; lia).
  rewrite Z.sub_0_r. simpl skipn.
  destruct (Z.to_nat b) as [|k] eqn:Ek; [lia|]. exists (firstn k r). reflexivity.
Qed.

(** The progress guard: an iteration that pushes a chunk moves the cursor
    strictly past that chunk's start. *)
Lemma step_emit_progress (o : ResolvedOptions) (cleanText : jsstr) (st : ChunkState) :
  (1 <= opt_size o)%Z -> (0 <= startPos st < len cleanText)%Z ->
  (List.length (chunks st) < List.length (chunks (chunk_step o cleanText st)))%nat ->
  (startPos st < startPos (chunk_step o cleanText st))%Z.
Proof.
  intros Hc Hs. pose proof (cut_end_gt o cleanText (startPos st) Hc Hs) as He.
  unfold chunk_step.
  set (e := cut_end o cleanText (startPos st)) in *.
  destruct (0 <? len (trim (substring cleanText (startPos st) e)))%Z; simpl.
  - rewrite last_chunk_snoc. simpl.
    destruct (Z.leb_spec (e - opt_overlap o) (startPos st)); simpl; lia.
  - lia.
Qed.

(** The first iteration over a non-empty normalized text pushes a chunk
    starting at [0]. *)
Lemma first_step_emits (o : ResolvedOptions) (text : jsstr) :
  (1 <= opt_size o)%Z -> opt_preserve o = false -> clean_text o text <> [] ->
  exists c, chunks (chunk_step o (clean_text o text) init_state) = [c] /\
            startPosition c = 0%Z.
Proof.
  intros Hc Hp Hne.
  destruct (clean_text o text) as [|ch r] eqn:Ecl; [contradiction|].
  assert (Hch : is_js_space ch = false).
  { unfold clean_text, normalize in Ecl. rewrite Hp in Ecl.
    exact (trim_head _ _ _ Ecl). }
  assert (He : (0 < cut_end o (ch :: r) 0)%Z).
  { apply (cut_end_gt o (ch :: r) 0 Hc). unfold len. simpl. lia. }
  unfold chunk_step. cbn [startPos chunks chunkIndex init_state].
  destruct (substring_head (ch :: r) r ch (cut_end o (ch :: r) 0) eq_refl)
    as [x Hx]; [lia|].
  rewrite Hx.
  assert (Ht : (0 < len (trim (ch :: x)))%Z).
  { pose proof (trim_nonempty ch x Hch) as H. unfold len.
    destruct (trim (ch :: x)); [contradiction|simpl; lia]. }
  destruct (Z.ltb_spec 0 (len (trim (ch :: x)))) as [_|]; [|lia].
  simpl. eexists. split; reflexivity.
Qed.

Lemma chunkText_no_throw (fuel : nat) (text : jsstr) (options : ChunkingOptions)
    (e : JsError) : chunkText fuel text options <> Throw e.
Proof.
  unfold chunkText. destruct (_ =? 0)%Z; [discriminate|].
  destruct (chunk_loop fuel _ _ _) eqn:E; simpl; try discriminate.
  exfalso. eapply chunk_loop_no_throw. exact E.
Qed.

End ChunkFacts.

(** The chunk list only grows along the loop. *)
Lemma chunk_step_keeps_chunks (o : TextChunker.ResolvedOptions) (t : jsstr)
    (st : TextChunker.ChunkState) :
  TextChunker.chunks st <> [] -> TextChunker.chunks (TextChunker.chunk_step o t st) <> [].
Proof.
  intros Hne. unfold TextChunker.chunk_step.
  destruct (0 <? len _)%Z; cbn [TextChunker.chunks fst snd]; [|exact Hne].
  destruct (TextChunker.chunks st); [contradiction|discriminate].
Qed.

Lemma chunk_loop_keeps_chunks (fuel : nat) (o : TextChunker.ResolvedOptions) (t : jsstr)
    (st st' : TextChunker.ChunkState) :
  TextChunker.chunks st <> [] -> TextChunker.chunk_loop fuel o t st = Ret st' ->
  TextChunker.chunks st' <> [].
Proof.
  revert st. induction fuel as [|fuel IH]; intros st Hne; simpl;
    destruct (TextChunker.startPos st <? len t)%Z; try discriminate;
    try (intros H; injection H as <-; exact Hne).
  apply IH. apply chunk_step_keeps_chunks. exact Hne.
Qed.

(** C3 (amended). [chunkText] does not reject [chunkOverlap >= chunkSize]:
    it has no error path at all (for options whose properties are absent
    or hold values of their declared types), and the chunking proceeds.
    For every text whose normalized form is non-empty and every such
    configuration (with [chunkSize >= 1], whitespace not preserved), the
    first iteration pushes a chunk starting at position [0], the progress
    guard moves the cursor past it instead of the overlap-adjusted
    (non-advancing) position, and every run that returns gives a non-empty
    list of chunks. *)
Theorem chunkText_accepts_large_overlap :
  (forall fuel text options e, TextChunker.chunkText fuel text options <> Throw e) /\
  (forall (text : jsstr) (options : TextChunker.ChunkingOptions),
   let o := TextChunker.resolve options in
   (TextChunker.opt_size o <= TextChunker.opt_overlap o)%Z ->
   (1 <= TextChunker.opt_size o)%Z ->
   TextChunker.opt_preserve o = false ->
   TextChunker.clean_text o text <> [] ->
   (exists c,
      TextChunker.chunks
        (TextChunker.chunk_step o (TextChunker.clean_text o text) TextChunker.init_state)
        = [c] /\
      TextChunker.startPosition c = 0%Z /\
      (0 < TextChunker.startPos
             (TextChunker.chunk_step o (TextChunker.clean_text o text)
                TextChunker.init_state))%Z) /\
   (forall fuel chunks0, TextChunker.chunkText fuel text options = Ret chunks0 ->
      chunks0 <> [])).
Proof.
  split; [intros fuel text options e; apply ChunkFacts.chunkText_no_throw|].
  intros text options o Hov Hc Hp Hne.
  destruct (ChunkFacts.first_step_emits o text Hc Hp Hne) as (c & Hcs & Hst).
  split.
  - exists c. split; [exact Hcs|]. split; [exact Hst|].
    change 0%Z with (TextChunker.startPos TextChunker.init_state).
    apply ChunkFacts.step_emit_progress; [exact Hc| |].
    + destruct (TextChunker.clean_text o text) eqn:E; [contradiction|].
      unfold len. simpl. lia.
    + rewrite Hcs. simpl. lia.
  - intros fuel chunks0. unfold TextChunker.chunkText. fold o.
    replace (len (TextChunker.clean_text o text) =? 0)%Z with false
      by (symmetry; apply Z.eqb_neq; destruct (TextChunker.clean_text o text);
          [contradiction | unfold len; simpl; lia]).
    destruct (TextChunker.chunk_loop fuel o _ _) as [st'| |] eqn:Hl; simpl;
      try discriminate.
    intros Hr. injection Hr as <-.
    assert (H0 : (TextChunker.startPos TextChunker.init_state <?
                  len (TextChunker.clean_text o text))%Z = true).
    { apply Z.ltb_lt. destruct (TextChunker.clean_text o text);
        [contradiction | unfold len; simpl; lia]. }
    destruct fuel as [|fuel]; cbn [TextChunker.chunk_loop] in Hl; rewrite H0 in Hl;
      [discriminate|].
    eapply chunk_loop_keeps_chunks; [|exact Hl]. rewrite Hcs. discriminate.
Qed.

(** Witness of C3: ["ab"] with [chunkSize = chunkOverlap = 1]. *)
Lemma chunkText_accepts_large_overlap_witness :
  let o := TextChunker.resolve Scenarios.equal_overlap in
  (TextChunker.opt_size o <= TextChunker.opt_overlap o)%Z /\
  (1 <= TextChunker.opt_size o)%Z /\
  TextChunker.opt_preserve o = false /\
  TextChunker.clean_text o (lit "ab") <> [] /\
  ((exists c,
     TextChunker.chunks
       (TextChunker.chunk_step o (TextChunker.clean_text o (lit "ab"))
          TextChunker.init_state) = [c] /\
     TextChunker.startPosition c = 0%Z /\
     (0 < TextChunker.startPos
            (TextChunker.chunk_step o (TextChunker.clean_text o (lit "ab"))
               TextChunker.init_state))%Z) /\
   (forall fuel chunks0,
      TextChunker.chunkText fuel (lit "ab") Scenarios.equal_overlap = Ret chunks0 ->
      chunks0 <> [])).
Proof.
  intros o.
  assert (H1 : (TextChunker.opt_size o <= TextChunker.opt_overlap o)%Z)
    by (vm_compute; discriminate).
  assert (H2 : (1 <= TextChunker.opt_size o)%Z) by (vm_compute; discriminate).
  assert (H3 : TextChunker.opt_preserve o = false) by reflexivity.
  assert (H4 : TextChunker.clean_text o (lit "ab") <> []) by (vm_compute; discriminate).
  split; [exact H1|]. split; [exact H2|]. split; [exact H3|]. split; [exact H4|].
  exact (proj2 chunkText_accepts_large_overlap (lit "ab") Scenarios.equal_overlap
           H1 H2 H3 H4).
Defined.

(** C3 (counterexample). With [chunkSize = chunkOverlap = 1], [chunkText]
    returns two chunks for ["ab"] instead of rejecting the configuration. *)
Lemma chunkText_equal_overlap_chunks :
  TextChunker.chunkText 10 (lit "ab") Scenarios.equal_overlap =
    Ret [TextChunker.mkChunk (lit "a") 0 0 1; TextChunker.mkChunk (lit "b") 1 1 2].
Proof. vm_compute. reflexivity. Qed.

(** What the progress guard does ensure: for every chunk size [C >= 1]
    (any overlap), every iteration of the chunking loop that pushes a chunk
    moves the cursor strictly forward, past that chunk's start. *)
Theorem chunk_step_emitting_advances (o : TextChunker.ResolvedOptions)
    (cleanText : jsstr) (st : TextChunker.ChunkState) :
  (1 <= TextChunker.opt_size o)%Z ->
  (0 <= TextChunker.startPos st < len cleanText)%Z ->
  (List.length (TextChunker.chunks st) <
     List.length (TextChunker.chunks (TextChunker.chunk_step o cleanText st)))%nat ->
  (TextChunker.startPos st < TextChunker.startPos (TextChunker.chunk_step o cleanText st))%Z.
Proof. exact (ChunkFacts.step_emit_progress o cleanText st). Qed.

(** The first iteration over ["a aaaa"] with size 3 and overlap 0. *)
Lemma chunk_step_emitting_advances_example :
  let o := TextChunker.resolve Scenarios.size3_overlap0 in
  let t := TextChunker.clean_text o (lit "a aaaa") in
  (1 <= TextChunker.opt_size o)%Z /\
  (0 <= TextChunker.startPos TextChunker.init_state < len t)%Z /\
  (List.length (TextChunker.chunks TextChunker.init_state) <
     List.length (TextChunker.chunks (TextChunker.chunk_step o t TextChunker.init_state)))%nat /\
  (TextChunker.startPos TextChunker.init_state <
     TextChunker.startPos (TextChunker.chunk_step o t TextChunker.init_state))%Z.
Proof.
  intros o t.
  assert (H1 : (1 <= TextChunker.opt_size o)%Z) by (vm_compute; discriminate).
  assert (H2 : (0 <= TextChunker.startPos TextChunker.init_state < len t)%Z)
    by (vm_compute; split; [discriminate|reflexivity]).
  assert (H3 : (List.length (TextChunker.chunks TextChunker.init_state) <
     List.length (TextChunker.chunks (TextChunker.chunk_step o t TextChunker.init_state)))%nat)
    by (vm_compute; lia).
  split; [exact H1|]. split; [exact H2|]. split; [exact H3|].
  exact (chunk_step_emitting_advances o t TextChunker.init_state H1 H2 H3).
Defined.

(** ["a aaaa"] (length 6) with size 3 and overlap 0:
    [ceil(6 / (3 - 0)) = 2], but after two iterations the cursor is at 5,
    still inside the text, so the loop runs a third iteration (three chunks
    ["a"], ["aaa"], ["a"]). *)
Lemma chunking_exceeds_iteration_bound :
  let o := TextChunker.resolve Scenarios.size3_overlap0 in
  let t := TextChunker.clean_text o (lit "a aaaa") in
  len t = 6%Z /\
  ((len t + (3 - 0) - 1) / (3 - 0) = 2)%Z /\
  TextChunker.startPos (TextChunker.iterate 2 o t TextChunker.init_state) = 5%Z /\
  TextChunker.startPos (TextChunker.iterate 3 o t TextChunker.init_state) = 6%Z.
Proof. vm_compute. repeat split. Qed.

Module ChunkStall.

Import TextChunker.

(** The progress guard compares with the last chunk pushed, not with the
    current cursor: over ["a\n b"] with size 2 and overlap 1 the second
    iteration pushes nothing (its span is the newline) and puts the
    cursor back where it was, for ever. *)
Lemma stall_fixpoint :
  let o := resolve Scenarios.size2_overlap1 in
  clean_text o Scenarios.stall_text = Scenarios.stall_text /\
  startPos (chunk_step o Scenarios.stall_text init_state) = 1%Z /\
  chunk_step o Scenarios.stall_text (chunk_step o Scenarios.stall_text init_state) =
    chunk_step o Scenarios.stall_text init_state.
Proof. vm_compute. repeat split. Qed.

Lemma loop_at_fixpoint (o : ResolvedOptions) (t : jsstr) (st : ChunkState) :
  (startPos st <? len t)%Z = true -> chunk_step o t st = st ->
  forall f, chunk_loop f o t st = Hang.
Proof.
  intros Hlt Hfix f. induction f as [|f IH]; simpl; rewrite Hlt; [reflexivity|].
  rewrite Hfix. exact IH.
Qed.

(** C8. The chunking loop does not terminate for every non-empty text and
    [O < C]: over ["a\n b"] with [chunkSize = 2], [chunkOverlap = 1],
    [chunkText] runs out of every amount of fuel. *)
Lemma chunkText_never_returns (fuel : nat) :
  chunkText fuel Scenarios.stall_text Scenarios.size2_overlap1 = Hang.
Proof.
  destruct stall_fixpoint as (Hcl & Hs & Hfix).
  unfold chunkText. rewrite Hcl.
  replace (len Scenarios.stall_text =? 0)%Z with false by reflexivity.
  destruct fuel as [|fuel]; [reflexivity|].
  simpl chunk_loop.
  replace (startPos init_state <? len Scenarios.stall_text)%Z with true by reflexivity.
  rewrite (loop_at_fixpoint _ Scenarios.stall_text _ ltac:(rewrite Hs; reflexivity) Hfix fuel).
  reflexivity.
Qed.

End ChunkStall.

Module IngestionFacts.

Import BrandVoiceIngestion.

Lemma bind_ret_inv {A B} (m : Outcome A) (k : A -> Outcome B) (b : B) :
  bind m k = Ret b -> exists a, m = Ret a /\ k a = Ret b.
Proof. destruct m; simpl; [eauto | discriminate | discriminate]. Qed.

Lemma bind_throw_inv {A B} (m : Outcome A) (k : A -> Outcome B) (e : JsError) :
  bind m k = Throw e -> m = Throw e \/ exists a, m = Ret a /\ k a = Throw e.
Proof. destruct m; simpl; [eauto | intros H; left; congruence | discriminate]. Qed.

Section Env.

Variable fileExists : jsstr -> bool.
Variable deleteByFile : jsstr -> Outcome Z.
Variable parsePDF : jsstr -> Outcome PDFContent.
Variable readdir : jsstr -> Outcome (list jsstr).
Variable embeddings_create : list jsstr -> Outcome (list Vec.vector * Z).
Variable apiKeySet : bool.
Variable sqlInsert : list InsertRow -> Outcome unit.
Variable fuel : nat.

Local Abbreviation ingestDoc :=
  (ingestDocument fileExists deleteByFile parsePDF embeddings_create apiKeySet
     sqlInsert fuel).
Local Abbreviation ingestAll :=
  (ingestAllDocuments fileExists deleteByFile parsePDF readdir embeddings_create
     apiKeySet sqlInsert fuel).
Local Abbreviation each :=
  (ingest_each fileExists deleteByFile parsePDF embeddings_create apiKeySet
     sqlInsert fuel).

(** The [try] block only ever returns a successful result, named after the
    file, with the source of the options. *)
Lemma ingest_body_fields (filePath : jsstr) (options : IngestionOptions)
    (r : IngestionResult) :
  ingest_body fileExists deleteByFile parsePDF embeddings_create apiKeySet
    sqlInsert fuel filePath options = Ret r ->
  success r = true /\ fileName r = basename filePath /\
  res_source r = opt_source options.
Proof.
  unfold ingest_body. intros H.
  repeat (apply bind_ret_inv in H; destruct H as (? & _ & H); cbv beta zeta in H).
  injection H as <-. simpl. auto.
Qed.

Lemma ingestDocument_fields (filePath : jsstr) (options : IngestionOptions)
    (r : IngestionResult) :
  ingestDoc filePath options = Ret r ->
  fileName r = basename filePath /\ res_source r = opt_source options /\
  (success r = false -> stats r = zero_stats /\ errors r <> []).
Proof.
  unfold ingestDocument.
  destruct (ingest_body _ _ _ _ _ _ _ filePath options) as [r0| e |] eqn:E;
    intros H; try discriminate; injection H as <-.
  - destruct (ingest_body_fields _ _ _ E) as (Hs & Hf & Hsrc).
    split; [exact Hf|]. split; [exact Hsrc|]. intros Hc. congruence.
  - simpl. split; [reflexivity|]. split; [reflexivity|].
    intros _. split; [reflexivity | discriminate].
Qed.

Lemma ingestDocument_no_throw (filePath : jsstr) (options : IngestionOptions)
    (e : JsError) : ingestDoc filePath options <> Throw e.
Proof. unfold ingestDocument. destruct (ingest_body _ _ _ _ _ _ _ _ _); discriminate. Qed.

Lemma ingest_each_no_throw (dir : jsstr) (options : PartialOptions)
    (pdfs : list (jsstr * PDFContent)) (e : JsError) : each dir options pdfs <> Throw e.
Proof.
  induction pdfs as [|[f c] rest IH]; simpl; [discriminate|].
  intros H. apply bind_throw_inv in H as [H | (r & _ & H)].
  - exact (ingestDocument_no_throw _ _ _ H).
  - apply bind_throw_inv in H as [H | (rs & _ & H)]; [exact (IH H) | discriminate].
Qed.

Lemma ingest_each_results (dir : jsstr) (options : PartialOptions)
    (pdfs : list (jsstr * PDFContent)) (rs : list IngestionResult) :
  each dir options pdfs = Ret rs ->
  map fileName rs = map (fun p => basename (join dir (fst p))) pdfs /\
  map res_source rs = map (fun p => infer_source (fst p)) pdfs /\
  Forall (fun r => success r = false -> stats r = zero_stats /\ errors r <> []) rs.
Proof.
  revert rs. induction pdfs as [|[f c] rest IH]; simpl; intros rs H.
  - injection H as <-. simpl. auto.
  - apply bind_ret_inv in H as (r & Hr & H).
    apply bind_ret_inv in H as (rs' & Hrs & H). injection H as <-.
    destruct (ingestDocument_fields _ _ _ Hr) as (Hf & Hsrc & Hfail).
    destruct (IH rs' Hrs) as (Hf' & Hsrc' & Hfail').
    simpl. rewrite Hf, Hsrc, Hf', Hsrc'. auto.
Qed.

Lemma read_pdfs_no_throw (dir : jsstr) (files : list jsstr) (e : JsError) :
  read_pdfs parsePDF dir files <> Throw e.
Proof.
  induction files as [|f rest IH]; simpl; [discriminate|].
  destruct (readPDF parsePDF (join dir f)); [|exact IH|discriminate].
  intros H. apply bind_throw_inv in H as [H | (x & _ & H)]; [exact (IH H) | discriminate].
Qed.

(** The source tags of a directory run. *)
Lemma ingestAll_sources (dir : jsstr) (options : PartialOptions)
    (pdfs : list (jsstr * PDFContent)) (out : DirectoryResult) :
  readPDFsFromDirectory parsePDF readdir dir = Ret pdfs ->
  ingestAll dir options = Ret out ->
  all_success out = forallb success (results out) /\
  map fileName (results out) = map (fun p => basename (join dir (fst p))) pdfs /\
  map res_source (results out) = map (fun p => infer_source (fst p)) pdfs /\
  Forall (fun r => success r = false -> stats r = zero_stats /\ errors r <> [])
    (results out).
Proof.
  intros Hp. unfold ingestAllDocuments. rewrite Hp. simpl.
  destruct pdfs as [|p ps].
  - intros H. injection H as <-. simpl. auto.
  - intros H. apply bind_ret_inv in H as (rs & Hrs & H). injection H as <-. simpl.
    destruct (ingest_each_results _ _ _ _ Hrs) as (? & ? & ?). auto.
Qed.

Lemma ingestAll_throw (dir : jsstr) (options : PartialOptions) (e : JsError) :
  ingestAll dir options = Throw e -> readdir dir = Throw e.
Proof.
  unfold ingestAllDocuments, readPDFsFromDirectory. intros H.
  apply bind_throw_inv in H as [H | (pdfs & Hp & H)].
  - apply bind_throw_inv in H as [H | (fs & _ & H)]; [exact H|].
    exfalso. exact (read_pdfs_no_throw _ _ _ H).
  - destruct pdfs as [|p ps]; [discriminate|].
    apply bind_throw_inv in H as [H | (rs & _ & H)]; [|discriminate].
    exfalso. exact (ingest_each_no_throw _ _ _ _ H).
Qed.

End Env.

End IngestionFacts.

Module PdfListFacts.

Import BrandVoiceIngestion IngestionFacts PdfReaderMore.

(** Whether [readPDF(path.join(dir, f))] returns. *)
Definition reads_ok (parsePDF : jsstr -> Outcome PDFContent) (dir f : jsstr) : bool :=
  match readPDF parsePDF (join dir f) with
  | Ret _ => true
  | _ => false
  end.

Lemma read_pdfs_ret (parsePDF : jsstr -> Outcome PDFContent) (dir : jsstr)
    (files : list jsstr) (pdfs : list (jsstr * PDFContent)) :
  read_pdfs parsePDF dir files = Ret pdfs ->
  map fst pdfs = filter (reads_ok parsePDF dir) files /\
  Forall (fun p => readPDF parsePDF (join dir (fst p)) = Ret (snd p)) pdfs.
Proof.
  revert pdfs. induction files as [|f rest IH]; intros pdfs H; simpl in H |- *.
  - injection H as <-. simpl. auto.
  - unfold reads_ok at 1. destruct (readPDF parsePDF (join dir f)) as [c| e |] eqn:E.
    + apply bind_ret_inv in H as (rest' & Hr & H). injection H as <-.
      destruct (IH _ Hr) as [Hm Hf]. simpl. rewrite Hm. split; [reflexivity|].
      constructor; [exact E | exact Hf].
    + exact (IH _ H).
    + discriminate.
Qed.

End PdfListFacts.

(** C10. Whenever [ingestDocument] returns a result with [success = false],
    all five stats of that result (pages, characters, chunks, embeddings,
    tokens) are 0 and its errors list is non-empty: a failed document never
    reports partial stats. *)
Theorem ingestDocument_failure_zero_stats
    (fileExists : jsstr -> bool) (deleteByFile : jsstr -> Outcome Z)
    (parsePDF : jsstr -> Outcome BrandVoiceIngestion.PDFContent)
    (embeddings_create : list jsstr -> Outcome (list Vec.vector * Z))
    (apiKeySet : bool)
    (sqlInsert : list BrandVoiceIngestion.InsertRow -> Outcome unit) (fuel : nat)
    (filePath : jsstr) (options : BrandVoiceIngestion.IngestionOptions)
    (r : BrandVoiceIngestion.IngestionResult) :
  BrandVoiceIngestion.ingestDocument fileExists deleteByFile parsePDF
    embeddings_create apiKeySet sqlInsert fuel filePath options = Ret r ->
  BrandVoiceIngestion.success r = false ->
  BrandVoiceIngestion.stats r = BrandVoiceIngestion.zero_stats /\
  BrandVoiceIngestion.errors r <> [].
Proof.
  intros H. exact (proj2 (proj2 (IngestionFacts.ingestDocument_fields _ _ _ _ _ _ _ _ _ _ H))).
Qed.

(** Witness of C10: a missing file. *)
Lemma ingestDocument_failure_zero_stats_witness :
  BrandVoiceIngestion.ingestDocument Scenarios.none_exist Scenarios.delete_none
    Scenarios.parse_ok Scenarios.embed_ok true Scenarios.insert_ok 100
    (lit "docs/style.pdf")
    (BrandVoiceIngestion.mkIngestionOptions None None style_guide None) =
    Ret (BrandVoiceIngestion.mkIngestionResult false (lit "style.pdf") style_guide
           BrandVoiceIngestion.zero_stats [lit "File not found: docs/style.pdf"]) /\
  BrandVoiceIngestion.success
    (BrandVoiceIngestion.mkIngestionResult false (lit "style.pdf") style_guide
       BrandVoiceIngestion.zero_stats [lit "File not found: docs/style.pdf"]) = false /\
  (BrandVoiceIngestion.stats
     (BrandVoiceIngestion.mkIngestionResult false (lit "style.pdf") style_guide
        BrandVoiceIngestion.zero_stats [lit "File not found: docs/style.pdf"]) =
     BrandVoiceIngestion.zero_stats /\
   BrandVoiceIngestion.errors
     (BrandVoiceIngestion.mkIngestionResult false (lit "style.pdf") style_guide
        BrandVoiceIngestion.zero_stats [lit "File not found: docs/style.pdf"]) <> []).
Proof.
  assert (H1 : BrandVoiceIngestion.ingestDocument Scenarios.none_exist Scenarios.delete_none
    Scenarios.parse_ok Scenarios.embed_ok true Scenarios.insert_ok 100
    (lit "docs/style.pdf")
    (BrandVoiceIngestion.mkIngestionOptions None None style_guide None) =
    Ret (BrandVoiceIngestion.mkIngestionResult false (lit "style.pdf") style_guide
           BrandVoiceIngestion.zero_stats [lit "File not found: docs/style.pdf"]))
    by (vm_compute; reflexivity).
  assert (H2 : BrandVoiceIngestion.success
    (BrandVoiceIngestion.mkIngestionResult false (lit "style.pdf") style_guide
       BrandVoiceIngestion.zero_stats [lit "File not found: docs/style.pdf"]) = false)
    by reflexivity.
  split; [exact H1|]. split; [exact H2|].
  exact (ingestDocument_failure_zero_stats _ _ _ _ _ _ _ _ _ _ H1 H2).
Defined.

(** C7 (amended). [ingestAllDocuments] rethrows exactly the errors of
    [readdir]: a failing [readdir] makes it throw that error, and any error
    it throws is one from [readdir]. Once [readPDFsFromDirectory] has
    returned the readable PDFs of a directory, it throws nothing: every
    failure inside [ingestDocument] (missing file, delete, read, provider
    or store error) becomes a failed result carrying a non-empty errors
    list. There is one result per readable PDF, in directory order, so the
    remaining documents are still ingested, and the overall flag is the AND
    of the per-document flags. The results are named after the [.pdf]
    files for which [readPDF] returns, so a PDF that fails to read during
    the directory scan gets no result at all. *)
Theorem ingestAll_isolates_document_failures
    (fileExists : jsstr -> bool) (deleteByFile : jsstr -> Outcome Z)
    (parsePDF : jsstr -> Outcome BrandVoiceIngestion.PDFContent)
    (readdir : jsstr -> Outcome (list jsstr))
    (embeddings_create : list jsstr -> Outcome (list Vec.vector * Z))
    (apiKeySet : bool)
    (sqlInsert : list BrandVoiceIngestion.InsertRow -> Outcome unit) (fuel : nat)
    (documentsDir : jsstr) (options : BrandVoiceIngestion.PartialOptions) :
  let run := BrandVoiceIngestion.ingestAllDocuments fileExists deleteByFile parsePDF
               readdir embeddings_create apiKeySet sqlInsert fuel documentsDir options in
  (forall e, readdir documentsDir = Throw e -> run = Throw e) /\
  (forall e, run = Throw e -> readdir documentsDir = Throw e) /\
  (forall pdfs,
     BrandVoiceIngestion.readPDFsFromDirectory parsePDF readdir documentsDir = Ret pdfs ->
     (forall e, run <> Throw e) /\
     (forall out, run = Ret out ->
        BrandVoiceIngestion.all_success out =
          forallb BrandVoiceIngestion.success (BrandVoiceIngestion.results out) /\
        map BrandVoiceIngestion.fileName (BrandVoiceIngestion.results out) =
          map (fun p => BrandVoiceIngestion.basename
                          (BrandVoiceIngestion.join documentsDir (fst p))) pdfs /\
        Forall (fun r => BrandVoiceIngestion.success r = false ->
                         BrandVoiceIngestion.errors r <> [])
          (BrandVoiceIngestion.results out))) /\
  (forall files out, readdir documentsDir = Ret files -> run = Ret out ->
     map BrandVoiceIngestion.fileName (BrandVoiceIngestion.results out) =
       map (fun f => BrandVoiceIngestion.basename (BrandVoiceIngestion.join documentsDir f))
         (filter (PdfListFacts.reads_ok parsePDF documentsDir)
            (filter (fun f => endsWith (toLowerCase f) (lit ".pdf")) files))).
Proof.
  intros run. split; [|split; [|split]].
  - intros e He. unfold run, BrandVoiceIngestion.ingestAllDocuments,
      BrandVoiceIngestion.readPDFsFromDirectory. rewrite He. reflexivity.
  - intros e H. exact (IngestionFacts.ingestAll_throw _ _ _ _ _ _ _ _ _ _ _ H).
  - intros pdfs Hp. split.
    + intros e H. apply IngestionFacts.ingestAll_throw in H.
      unfold BrandVoiceIngestion.readPDFsFromDirectory in Hp.
      rewrite H in Hp. discriminate.
    + intros out Hout.
      destruct (IngestionFacts.ingestAll_sources _ _ _ _ _ _ _ _ _ _ _ _ Hp Hout)
        as (Ha & Hf & _ & Hfail).
      split; [exact Ha|]. split; [exact Hf|].
      eapply Forall_impl; [|exact Hfail]. intros r Hr Hs. exact (proj2 (Hr Hs)).
  - intros files out Hfs Hout.
    assert (Hrun := Hout). unfold run, BrandVoiceIngestion.ingestAllDocuments in Hrun.
    apply IngestionFacts.bind_ret_inv in Hrun as (pdfs & Hp & _).
    destruct (IngestionFacts.ingestAll_sources _ _ _ _ _ _ _ _ _ _ _ _ Hp Hout)
      as (_ & Hf & _).
    rewrite Hf.
    unfold BrandVoiceIngestion.readPDFsFromDirectory in Hp. rewrite Hfs in Hp.
    destruct (PdfListFacts.read_pdfs_ret parsePDF documentsDir
                (filter (fun f => endsWith (toLowerCase f) (lit ".pdf")) files) pdfs Hp)
      as [Hm _].
    rewrite <- Hm, map_map. reflexivity.
Qed.

(** Witness of C7: a directory with three PDFs and a text file while the
    provider is rate limited. *)
Lemma ingestAll_isolates_document_failures_witness :
  BrandVoiceIngestion.readPDFsFromDirectory Scenarios.parse_ok Scenarios.mixed_dir
    (lit "docs") = Ret Scenarios.mixed_pdfs /\
  ((forall e, BrandVoiceIngestion.ingestAllDocuments Scenarios.all_exist
               Scenarios.delete_none Scenarios.parse_ok Scenarios.mixed_dir
               Scenarios.embed_fail true Scenarios.insert_ok 100 (lit "docs")
               Scenarios.as_examples <> Throw e) /\
   (forall out,
      BrandVoiceIngestion.ingestAllDocuments Scenarios.all_exist Scenarios.delete_none
        Scenarios.parse_ok Scenarios.mixed_dir Scenarios.embed_fail true
        Scenarios.insert_ok 100 (lit "docs") Scenarios.as_examples = Ret out ->
      BrandVoiceIngestion.all_success out =
        forallb BrandVoiceIngestion.success (BrandVoiceIngestion.results out) /\
      map BrandVoiceIngestion.fileName (BrandVoiceIngestion.results out) =
        map (fun p => BrandVoiceIngestion.basename
                        (BrandVoiceIngestion.join (lit "docs") (fst p)))
          Scenarios.mixed_pdfs /\
      Forall (fun r => BrandVoiceIngestion.success r = false ->
                       BrandVoiceIngestion.errors r <> [])
        (BrandVoiceIngestion.results out))).
Proof.
  assert (Hp : BrandVoiceIngestion.readPDFsFromDirectory Scenarios.parse_ok
                 Scenarios.mixed_dir (lit "docs") = Ret Scenarios.mixed_pdfs)
    by (vm_compute; reflexivity).
  split; [exact Hp|].
  exact (proj1 (proj2 (proj2
    (ingestAll_isolates_document_failures Scenarios.all_exist Scenarios.delete_none
       Scenarios.parse_ok Scenarios.mixed_dir Scenarios.embed_fail true
       Scenarios.insert_ok 100 (lit "docs") Scenarios.as_examples))) _ Hp).
Defined.

(** C7 (counterexample). A PDF that cannot be read is skipped by the
    directory scan: the run reports success with no result, so the read
    error is not recorded anywhere. *)
Lemma unreadable_pdf_unrecorded :
  BrandVoiceIngestion.ingestAllDocuments Scenarios.all_exist Scenarios.delete_none
    Scenarios.parse_fail Scenarios.bad_dir Scenarios.embed_ok true
    Scenarios.insert_ok 100 (lit "docs") Scenarios.as_examples =
  Ret (BrandVoiceIngestion.mkDirectoryResult true [] BrandVoiceIngestion.zero_stats).
Proof. vm_compute. reflexivity. Qed.

(** C9 (code bug). The caller's [source] option never overrides the tag
    inferred from the file name: [ingestAllDocuments] accepts a
    [Partial<IngestionOptions>] with [source], but [{ ...options, source }]
    spreads the inferred tag last. Whatever [options] holds, each
    document's source tag is [infer_source] of its file name:
    [style_guide] when the lower-cased name contains ["style"] (checked
    first), else [knowledge_base] when it contains ["knowledge"], else
    [other]. *)
Theorem ingestAll_source_from_file_name
    (fileExists : jsstr -> bool) (deleteByFile : jsstr -> Outcome Z)
    (parsePDF : jsstr -> Outcome BrandVoiceIngestion.PDFContent)
    (readdir : jsstr -> Outcome (list jsstr))
    (embeddings_create : list jsstr -> Outcome (list Vec.vector * Z))
    (apiKeySet : bool)
    (sqlInsert : list BrandVoiceIngestion.InsertRow -> Outcome unit) (fuel : nat)
    (documentsDir : jsstr) (options : BrandVoiceIngestion.PartialOptions)
    (pdfs : list (jsstr * BrandVoiceIngestion.PDFContent))
    (out : BrandVoiceIngestion.DirectoryResult) :
  BrandVoiceIngestion.readPDFsFromDirectory parsePDF readdir documentsDir = Ret pdfs ->
  BrandVoiceIngestion.ingestAllDocuments fileExists deleteByFile parsePDF readdir
    embeddings_create apiKeySet sqlInsert fuel documentsDir options = Ret out ->
  map BrandVoiceIngestion.res_source (BrandVoiceIngestion.results out) =
    map (fun p => BrandVoiceIngestion.infer_source (fst p)) pdfs.
Proof.
  intros Hp Hout.
  exact (proj1 (proj2 (proj2
    (IngestionFacts.ingestAll_sources _ _ _ _ _ _ _ _ _ _ _ _ Hp Hout)))).
Qed.

(** Witness of C9: the three PDFs of [mixed_dir] with the caller asking
    for [example_post]. *)
Lemma ingestAll_source_from_file_name_witness :
  BrandVoiceIngestion.readPDFsFromDirectory Scenarios.parse_ok Scenarios.mixed_dir
    (lit "docs") = Ret Scenarios.mixed_pdfs /\
  BrandVoiceIngestion.ingestAllDocuments Scenarios.all_exist Scenarios.delete_none
    Scenarios.parse_ok Scenarios.mixed_dir Scenarios.embed_ok true
    Scenarios.insert_ok 100 (lit "docs") Scenarios.as_examples =
  Ret (BrandVoiceIngestion.mkDirectoryResult true
         [Scenarios.ingested "style.pdf" style_guide;
          Scenarios.ingested "Knowledge-Base.PDF" knowledge_base;
          Scenarios.ingested "notes.pdf" other]
         (BrandVoiceIngestion.mkStats 3 66 3 3 21)) /\
  map BrandVoiceIngestion.res_source
    [Scenarios.ingested "style.pdf" style_guide;
     Scenarios.ingested "Knowledge-Base.PDF" knowledge_base;
     Scenarios.ingested "notes.pdf" other] =
  map (fun p => BrandVoiceIngestion.infer_source (fst p)) Scenarios.mixed_pdfs.
Proof.
  assert (Hp : BrandVoiceIngestion.readPDFsFromDirectory Scenarios.parse_ok
                 Scenarios.mixed_dir (lit "docs") = Ret Scenarios.mixed_pdfs)
    by (vm_compute; reflexivity).
  assert (Ho : BrandVoiceIngestion.ingestAllDocuments Scenarios.all_exist
    Scenarios.delete_none Scenarios.parse_ok Scenarios.mixed_dir Scenarios.embed_ok true
    Scenarios.insert_ok 100 (lit "docs") Scenarios.as_examples =
    Ret (BrandVoiceIngestion.mkDirectoryResult true
         [Scenarios.ingested "style.pdf" style_guide;
          Scenarios.ingested "Knowledge-Base.PDF" knowledge_base;
          Scenarios.ingested "notes.pdf" other]
         (BrandVoiceIngestion.mkStats 3 66 3 3 21)))
    by (vm_compute; reflexivity).
  split; [exact Hp|]. split; [exact Ho|].
  exact (ingestAll_source_from_file_name _ _ _ _ _ _ _ _ _ _ _ _ Hp Ho).
Defined.

(** C9 (failing input). The caller asks for [example_post] on
    ["style.pdf"]; the stored tag is [style_guide]. *)
Lemma caller_source_overridden :
  match BrandVoiceIngestion.ingestAllDocuments Scenarios.all_exist
          Scenarios.delete_none Scenarios.parse_ok Scenarios.style_dir
          Scenarios.embed_ok true Scenarios.insert_ok 100 (lit "docs")
          Scenarios.as_examples with
  | Ret out => map BrandVoiceIngestion.res_source (BrandVoiceIngestion.results out)
  | _ => []
  end = [style_guide] /\
  BrandVoiceIngestion.p_source Scenarios.as_examples = Some example_post.
Proof. vm_compute. split; reflexivity. Qed.

(** ** Properties of the rest of the code *)

Module StringFacts.

Lemma is_prefix_app (p r : jsstr) : is_prefix p (p ++ r) = true.
Proof.
  induction p as [|c p IH]; simpl; [reflexivity|].
  rewrite Ascii.eqb_refl. exact IH.
Qed.

Lemma is_prefix_inv (p s : jsstr) : is_prefix p s = true -> exists r, s = p ++ r.
Proof.
  revert s. induction p as [|c p IH]; intros s H; [exists s; reflexivity|].
  destruct s as [|d s]; [discriminate|]. simpl in H.
  apply andb_true_iff in H as [Hc H]. apply Ascii.eqb_eq in Hc. subst d.
  destruct (IH s H) as [r ->]. exists r. reflexivity.
Qed.

Lemma is_prefix_nth (p s : jsstr) (i : nat) (d : ascii) :
  is_prefix p s = true -> (i < List.length p)%nat -> nth i s d = nth i p d.
Proof.
  intros H Hi. destruct (is_prefix_inv p s H) as [r ->].
  rewrite app_nth1 by exact Hi. reflexivity.
Qed.

Lemma includes_prefix (s t : jsstr) : is_prefix t s = true -> includes s t = true.
Proof. intros H. destruct s; cbn [includes]; rewrite H; reflexivity. Qed.

Lemma includes_cons (c : ascii) (s t : jsstr) :
  includes s t = true -> includes (c :: s) t = true.
Proof. intros H. cbn [includes]. rewrite H. apply orb_true_r. Qed.

Lemma includes_app_mid (x t y : jsstr) : includes (x ++ t ++ y) t = true.
Proof.
  induction x as [|c x IH]; simpl.
  - apply includes_prefix, is_prefix_app.
  - apply includes_cons, IH.
Qed.

Lemma includes_app_r (x t : jsstr) : includes (x ++ t) t = true.
Proof. rewrite <- (app_nil_r t) at 1. apply includes_app_mid. Qed.

Lemma endsWith_inv (s t : jsstr) : endsWith s t = true -> exists x, s = x ++ t.
Proof.
  unfold endsWith. intros H. destruct (is_prefix_inv _ _ H) as [r Hr].
  exists (rev r). rewrite <- (rev_involutive s), Hr, rev_app_distr, rev_involutive.
  reflexivity.
Qed.

Lemma endsWith_includes (s t : jsstr) : endsWith s t = true -> includes s t = true.
Proof. intros H. destruct (endsWith_inv s t H) as [x ->]. apply includes_app_r. Qed.

End StringFacts.

Module HubSpotFacts.

Import HubSpot.

Lemma keep_page_embed (f : LandingPageFilterConfig) (page : HubSpotLandingPage) :
  includes (toLowerCase (name page)) (lit "embed -") = true ->
  keep_page f page = true ->
  endsWith (toLowerCase (name page)) (lit "case study") = true.
Proof.
  intros He. unfold keep_page. rewrite He.
  destruct (negb _); [discriminate | exact (fun H => H)].
Qed.

Lemma lower_patterns :
  map toLowerCase [lit "PC/LP"; lit "TM/LP"; lit "WBR/LP"] =
    [lit "pc/lp"; lit "tm/lp"; lit "wbr/lp"].
Proof. reflexivity. Qed.

End HubSpotFacts.

(** X1. [filterLandingPages] treats EMBED pages separately: a page whose
    lower-cased name contains ["embed -"] passes only if its lower-cased
    name ends with ["case study"], and when the filter has no (or an empty)
    content-group list it passes exactly then, whatever the name, URL and
    exclude patterns say. *)
Theorem embed_pages_bypass_patterns (f : HubSpot.LandingPageFilterConfig)
    (page : HubSpot.HubSpotLandingPage) :
  includes (toLowerCase (HubSpot.name page)) (lit "embed -") = true ->
  (HubSpot.keep_page f page = true ->
   endsWith (toLowerCase (HubSpot.name page)) (lit "case study") = true) /\
  (HubSpot.contentGroupIds f = None \/ HubSpot.contentGroupIds f = Some [] ->
   HubSpot.keep_page f page =
     endsWith (toLowerCase (HubSpot.name page)) (lit "case study")).
Proof.
  intros He. split; [exact (HubSpotFacts.keep_page_embed f page He)|].
  intros Hg. unfold HubSpot.keep_page. rewrite He.
  destruct Hg as [Hg | Hg]; rewrite Hg; reflexivity.
Qed.

(** An EMBED page excluded by every pattern of a filter, but named
    ["EMBED - Acme Case Study"]. *)
Lemma embed_pages_bypass_patterns_witness :
  let page := HubSpot.mkPage (lit "1") (lit "EMBED - Acme Case Study") (lit "acme")
                (lit "https://example.com/acme") None in
  let f := HubSpot.mkFilter None (Some [lit "PC/LP"]) (Some [lit "/lp/"]) None
             (Some [lit "acme"]) in
  includes (toLowerCase (HubSpot.name page)) (lit "embed -") = true /\
  HubSpot.keep_page f page = true /\
  ((HubSpot.keep_page f page = true ->
    endsWith (toLowerCase (HubSpot.name page)) (lit "case study") = true) /\
   (HubSpot.contentGroupIds f = None \/ HubSpot.contentGroupIds f = Some [] ->
    HubSpot.keep_page f page =
      endsWith (toLowerCase (HubSpot.name page)) (lit "case study"))).
Proof.
  intros page f.
  assert (H : includes (toLowerCase (HubSpot.name page)) (lit "embed -") = true)
    by reflexivity.
  split; [exact H|]. split; [reflexivity|].
  exact (embed_pages_bypass_patterns f page H).
Defined.

(** X2. The filter of [fetchAllContent] keeps exactly the pages whose
    lower-cased name either contains ["embed -"] and ends with
    ["case study"], or (not being an EMBED page) contains one of
    ["pc/lp"], ["tm/lp"], ["wbr/lp"]: the patterns match whatever their
    case in the name, and the URL plays no part. *)
Theorem fetchAllContent_filter_selects (pages : list HubSpot.HubSpotLandingPage) :
  HubSpot.filterLandingPages pages (Some HubSpot.fetchAllContent_filter) =
  filter (fun page =>
            let n := toLowerCase (HubSpot.name page) in
            if includes n (lit "embed -") then endsWith n (lit "case study")
            else includes n (lit "pc/lp") || includes n (lit "tm/lp")
                 || includes n (lit "wbr/lp")) pages.
Proof.
  unfold HubSpot.filterLandingPages. apply filter_ext. intros page.
  replace (lit "pc/lp") with (toLowerCase (lit "PC/LP")) by reflexivity.
  replace (lit "tm/lp") with (toLowerCase (lit "TM/LP")) by reflexivity.
  replace (lit "wbr/lp") with (toLowerCase (lit "WBR/LP")) by reflexivity.
  unfold HubSpot.keep_page, HubSpot.fetchAllContent_filter.
  cbn - [includes endsWith toLowerCase lit].
  repeat match goal with
         | |- context [includes ?a ?b] => destruct (includes a b)
         end; reflexivity.
Qed.

(** X3. Every EMBED page that passes [filterLandingPages] (for any filter) is
    typed [case_study] by [determineContentType], since the case-study test
    comes first. *)
Theorem kept_embed_pages_are_case_studies (f : HubSpot.LandingPageFilterConfig)
    (page : HubSpot.HubSpotLandingPage) :
  includes (toLowerCase (HubSpot.name page)) (lit "embed -") = true ->
  HubSpot.keep_page f page = true ->
  HubSpot.determineContentType page = HubSpot.case_study.
Proof.
  intros He Hk. pose proof (HubSpotFacts.keep_page_embed f page He Hk) as Hc.
  unfold HubSpot.determineContentType.
  rewrite (StringFacts.endsWith_includes _ _ Hc). reflexivity.
Qed.

Lemma kept_embed_pages_are_case_studies_witness :
  let page := HubSpot.mkPage (lit "2") (lit "EMBED - Webinar Recap Case Study")
                (lit "recap") (lit "https://example.com/webinar") None in
  includes (toLowerCase (HubSpot.name page)) (lit "embed -") = true /\
  HubSpot.keep_page HubSpot.fetchAllContent_filter page = true /\
  HubSpot.determineContentType page = HubSpot.case_study.
Proof.
  intros page.
  assert (H1 : includes (toLowerCase (HubSpot.name page)) (lit "embed -") = true)
    by reflexivity.
  assert (H2 : HubSpot.keep_page HubSpot.fetchAllContent_filter page = true)
    by reflexivity.
  split; [exact H1|]. split; [exact H2|].
  exact (kept_embed_pages_are_case_studies _ page H1 H2).
Defined.

Module PdfFacts.

Import HubSpot.

Definition not_quote (c : ascii) : bool := negb (is_quote c).

Lemma skipn_length_app {A} (p r : list A) : skipn (List.length p) (p ++ r) = r.
Proof. induction p as [|c p IH]; simpl; [reflexivity | exact IH]. Qed.

Lemma take_nonquote_app (u r : jsstr) (q : ascii) :
  forallb not_quote u = true -> is_quote q = true ->
  take_nonquote (u ++ q :: r) = u.
Proof.
  intros Hu Hq. induction u as [|c u IH]; simpl.
  - rewrite Hq. reflexivity.
  - simpl in Hu. apply andb_true_iff in Hu as [Hc Hu]. unfold not_quote in Hc.
    destruct (is_quote c); [discriminate|]. rewrite (IH Hu). reflexivity.
Qed.

Lemma take_nonquote_split (r : jsstr) :
  exists rest, r = take_nonquote r ++ rest.
Proof.
  induction r as [|c r [rest IH]]; [exists []; reflexivity|]. simpl.
  destruct (is_quote c); [exists (c :: r); reflexivity|].
  exists rest. simpl. rewrite <- IH. reflexivity.
Qed.

Lemma take_nonquote_clean (r : jsstr) : forallb not_quote (take_nonquote r) = true.
Proof.
  induction r as [|c r IH]; [reflexivity|]. simpl.
  unfold not_quote at 1. destruct (is_quote c) eqn:E; [reflexivity|].
  simpl. unfold not_quote. rewrite E. exact IH.
Qed.

Lemma is_prefix_app_short (p a b : jsstr) :
  is_prefix p (a ++ b) = true -> (List.length p <= List.length a)%nat ->
  is_prefix p a = true.
Proof.
  revert a. induction p as [|c p IH]; intros a H Hl; [reflexivity|].
  destruct a as [|d a]; [simpl in Hl; lia|]. simpl in H |- *.
  apply andb_true_iff in H as [Hc H]. rewrite Hc. simpl in Hl.
  apply IH; [exact H | lia].
Qed.

Lemma pdf_match_cons_none (c : ascii) (s : jsstr) :
  pdf_match_at (c :: s) = None -> pdf_match (c :: s) = pdf_match s.
Proof. intros H. cbn [pdf_match]. rewrite H. reflexivity. Qed.

Lemma pdf_match_at_ok (q q' : ascii) (u post : jsstr) :
  is_quote q = true -> is_quote q' = true -> u <> [] ->
  forallb not_quote u = true ->
  pdf_match_at (PDF_OPEN ++ q :: u ++ q' :: ")"%char :: post) = Some u.
Proof.
  intros Hq Hq' Hne Hu. unfold pdf_match_at.
  rewrite StringFacts.is_prefix_app, skipn_length_app, Hq,
    (take_nonquote_app u _ q' Hu Hq').
  destruct u as [|c u]; [congruence|].
  rewrite skipn_length_app, Hq'. reflexivity.
Qed.

Definition PDF_OPEN0 : jsstr := lit "PDFViewerApplication.open".

Lemma PDF_OPEN_split : PDF_OPEN = PDF_OPEN0 ++ ["("%char].
Proof. reflexivity. Qed.

Lemma pdf_match_skip_pre (pre rest : jsstr) :
  includes (pre ++ removelast PDF_OPEN) PDF_OPEN = false ->
  pdf_match (pre ++ PDF_OPEN ++ rest) = pdf_match (PDF_OPEN ++ rest).
Proof.
  change (removelast PDF_OPEN) with PDF_OPEN0.
  induction pre as [|c pre IH]; intros H; [reflexivity|].
  cbn [app includes] in H. apply orb_false_iff in H as [Hp Hi].
  rewrite <- app_comm_cons, pdf_match_cons_none; [exact (IH Hi)|].
  unfold pdf_match_at.
  destruct (is_prefix PDF_OPEN (c :: pre ++ PDF_OPEN ++ rest)) eqn:E; [|reflexivity].
  exfalso.
  assert (E' : is_prefix PDF_OPEN ((c :: pre ++ PDF_OPEN0) ++ "("%char :: rest) = true).
  { assert (Heq : (c :: pre ++ PDF_OPEN0) ++ "("%char :: rest =
                  c :: pre ++ PDF_OPEN ++ rest).
    { rewrite PDF_OPEN_split. cbn [app]. rewrite <- !app_assoc. reflexivity. }
    rewrite Heq. exact E. }
  apply is_prefix_app_short in E'.
  - congruence.
  - simpl. rewrite length_app. change (List.length PDF_OPEN) with 26%nat.
    change (List.length PDF_OPEN0) with 25%nat. lia.
Qed.

Lemma pdf_match_split (html u : jsstr) :
  pdf_match html = Some u ->
  exists pre s, html = pre ++ s /\ pdf_match_at s = Some u.
Proof.
  induction html as [|c html IH]; intros H.
  - exists [], []. split; [reflexivity | exact H].
  - cbn [pdf_match] in H. destruct (pdf_match_at (c :: html)) eqn:E.
    + exists [], (c :: html). split; [reflexivity|]. rewrite E. exact H.
    + destruct (IH H) as [pre [s [-> Hs]]]. exists (c :: pre), s.
      split; [reflexivity | exact Hs].
Qed.

Lemma pdf_match_at_shape (s u : jsstr) :
  pdf_match_at s = Some u ->
  exists q q' post,
    s = PDF_OPEN ++ q :: u ++ q' :: ")"%char :: post /\
    is_quote q = true /\ is_quote q' = true /\ u <> [] /\
    forallb not_quote u = true.
Proof.
  unfold pdf_match_at. destruct (is_prefix PDF_OPEN s) eqn:E; [|discriminate].
  destruct (StringFacts.is_prefix_inv _ _ E) as [r ->].
  rewrite skipn_length_app.
  destruct r as [|q r]; [discriminate|].
  destruct (is_quote q) eqn:Hq; [|discriminate].
  destruct (take_nonquote_split r) as [rest Hr].
  pose proof (take_nonquote_clean r) as Hc.
  remember (take_nonquote r) as u0 eqn:Ht.
  destruct u0 as [|c0 t]; [discriminate|].
  rewrite Hr, skipn_length_app.
  destruct rest as [|q' [|c rest]]; try discriminate.
  destruct (is_quote q' && Ascii.eqb c ")"%char) eqn:Hqc; [|discriminate].
  intros Hu. injection Hu as <-.
  apply andb_true_iff in Hqc as [Hq' Hcp]. apply Ascii.eqb_eq in Hcp. subst c.
  exists q, q', rest.
  split; [reflexivity|]. split; [exact Hq|]. split; [exact Hq'|].
  split; [discriminate | exact Hc].
Qed.

End PdfFacts.

(** X4. [extractPdfUrl] returns the quoted URL of the first
    [PDFViewerApplication.open(] call of the page: when the page text is
    [pre], the call, a quote, a non-empty quote-free [u], a quote, [)] and
    anything after, and [pre] followed by the call's text without its
    parenthesis has no earlier call, the result is [u] (the two quotes may
    differ). *)
Theorem extractPdfUrl_returns_quoted_url
    (fetchPage : jsstr -> Outcome (option jsstr)) (pageUrl pre u post : jsstr)
    (q q' : ascii) :
  fetchPage pageUrl =
    Ret (Some (pre ++ HubSpot.PDF_OPEN ++ q :: u ++ q' :: ")"%char :: post)) ->
  includes (pre ++ removelast HubSpot.PDF_OPEN) HubSpot.PDF_OPEN = false ->
  HubSpot.is_quote q = true -> HubSpot.is_quote q' = true -> u <> [] ->
  forallb PdfFacts.not_quote u = true ->
  HubSpot.extractPdfUrl fetchPage pageUrl = Ret (Some u).
Proof.
  intros Hf Hpre Hq Hq' Hne Hu. unfold HubSpot.extractPdfUrl. rewrite Hf.
  rewrite (PdfFacts.pdf_match_skip_pre pre _ Hpre).
  assert (Hm : HubSpot.pdf_match (HubSpot.PDF_OPEN ++ q :: u ++ q' :: ")"%char :: post)
               = Some u).
  { change (HubSpot.PDF_OPEN ++ q :: u ++ q' :: ")"%char :: post) with
      ("P"%char :: (List.tl HubSpot.PDF_OPEN ++ q :: u ++ q' :: ")"%char :: post)).
    cbn [HubSpot.pdf_match].
    change ("P"%char :: (List.tl HubSpot.PDF_OPEN ++ q :: u ++ q' :: ")"%char :: post))
      with (HubSpot.PDF_OPEN ++ q :: u ++ q' :: ")"%char :: post).
    rewrite (PdfFacts.pdf_match_at_ok q q' u post Hq Hq' Hne Hu). reflexivity. }
  rewrite Hm. destruct u as [|c u]; [congruence | reflexivity].
Qed.

Lemma extractPdfUrl_returns_quoted_url_witness :
  let html := lit "<div>viewer</div>" ++ HubSpot.PDF_OPEN ++ HubSpot.DQUOTE ::
                lit "https://example.com/a.pdf" ++ HubSpot.SQUOTE :: lit ");" in
  let fetchPage := fun _ : jsstr => Ret (Some html) in
  HubSpot.extractPdfUrl fetchPage (lit "https://example.com/cs")
    = Ret (Some (lit "https://example.com/a.pdf")).
Proof.
  intros html fetchPage.
  apply (extractPdfUrl_returns_quoted_url fetchPage (lit "https://example.com/cs")
           (lit "<div>viewer</div>") (lit "https://example.com/a.pdf") (lit ";")
           HubSpot.DQUOTE HubSpot.SQUOTE);
    [reflexivity | vm_compute; reflexivity | reflexivity | reflexivity
    | discriminate | vm_compute; reflexivity].
Defined.

(** X5. [extractPdfUrl] never throws: a failed fetch, a response that is not
    [ok] and a page without a match all give [null], and it settles
    whenever the fetch does. A URL it returns is the capture of a match:
    the page text is some [pre], the [PDFViewerApplication.open(] call, a
    quote, the URL (non-empty, without quotes), a quote, [)] and the
    rest. *)
Theorem extractPdfUrl_sound
    (fetchPage : jsstr -> Outcome (option jsstr)) (pageUrl : jsstr) :
  (forall e, HubSpot.extractPdfUrl fetchPage pageUrl <> Throw e) /\
  (forall e, fetchPage pageUrl = Throw e ->
   HubSpot.extractPdfUrl fetchPage pageUrl = Ret None) /\
  (fetchPage pageUrl = Ret None ->
   HubSpot.extractPdfUrl fetchPage pageUrl = Ret None) /\
  (forall html, fetchPage pageUrl = Ret (Some html) -> HubSpot.pdf_match html = None ->
   HubSpot.extractPdfUrl fetchPage pageUrl = Ret None) /\
  (HubSpot.extractPdfUrl fetchPage pageUrl = Hang -> fetchPage pageUrl = Hang) /\
  (forall u, HubSpot.extractPdfUrl fetchPage pageUrl = Ret (Some u) ->
   exists pre q q' post,
     fetchPage pageUrl =
       Ret (Some (pre ++ HubSpot.PDF_OPEN ++ q :: u ++ q' :: ")"%char :: post)) /\
     HubSpot.is_quote q = true /\ HubSpot.is_quote q' = true /\ u <> [] /\
     forallb PdfFacts.not_quote u = true).
Proof.
  unfold HubSpot.extractPdfUrl. split.
  - intros e. destruct (fetchPage pageUrl) as [[html|]| |]; try discriminate.
    destruct (HubSpot.pdf_match html) as [[|c u]|]; discriminate.
  - split; [intros e -> ; reflexivity|].
    split; [intros -> ; reflexivity|].
    split; [intros html -> E; rewrite E; reflexivity|].
    split.
    { destruct (fetchPage pageUrl) as [[html|]| |]; try discriminate; [|reflexivity].
      destruct (HubSpot.pdf_match html) as [[|c u]|]; discriminate. }
    intros u. destruct (fetchPage pageUrl) as [[html|]| |]; try discriminate.
    destruct (HubSpot.pdf_match html) as [[|c u']|] eqn:E; try discriminate.
    intros H. injection H as <-.
    destruct (PdfFacts.pdf_match_split _ _ E) as [pre [s [-> Hs]]].
    destruct (PdfFacts.pdf_match_at_shape _ _ Hs) as [q [q' [post [-> Hrest]]]].
    exists pre, q, q', post. split; [reflexivity | exact Hrest].
Qed.

Module RankFacts.

Import EmbeddingsMore.

Local Open Scope R_scope.

Definition rdesc (a b : Ranked) : Prop := rk_similarity b <= rk_similarity a.

Definition same_dim (q e : Vec.vector) : Prop := List.length e = List.length q.

Definition DIM_ERROR : JsError :=
  ErrorObj (lit "Embeddings must have the same dimensions").

(** The scores of [embeddings.map] when no call throws. *)
Fixpoint ranked_from (q : Vec.vector) (es : list Vec.vector) (i : Z) : list Ranked :=
  match es with
  | [] => []
  | e :: es' => mkRanked i (Vec.cos_of_loop q e) :: ranked_from q es' (i + 1)
  end.

Lemma score_from_ok (q : Vec.vector) (es : list Vec.vector) (i : Z) :
  Forall (same_dim q) es -> score_from q es i = Ret (ranked_from q es i).
Proof.
  revert i. induction es as [|e es IH]; intros i H; [reflexivity|].
  apply Forall_cons_iff in H as [He H]. unfold same_dim in He.
  simpl. unfold Embeddings.cosineSimilarity.
  rewrite He, Nat.eqb_refl. simpl. rewrite (IH (i + 1)%Z H). reflexivity.
Qed.

Lemma score_from_err (q : Vec.vector) (es : list Vec.vector) (i : Z) :
  ~ Forall (same_dim q) es -> score_from q es i = Throw DIM_ERROR.
Proof.
  revert i. induction es as [|e es IH]; intros i H; [exfalso; apply H; constructor|].
  simpl. unfold Embeddings.cosineSimilarity.
  destruct (Nat.eqb_spec (List.length q) (List.length e)) as [E|E]; simpl.
  - rewrite IH; [reflexivity|]. intros Hf. apply H. constructor; [|exact Hf].
    unfold same_dim. congruence.
  - reflexivity.
Qed.

Lemma ranked_from_length (q : Vec.vector) (es : list Vec.vector) (i : Z) :
  List.length (ranked_from q es i) = List.length es.
Proof. revert i. induction es; intros i; simpl; [reflexivity|]. rewrite IHes. reflexivity. Qed.

Lemma in_ranked_from (q : Vec.vector) (es : list Vec.vector) (i : Z) (r : Ranked) :
  In r (ranked_from q es i) <->
  exists k e, nth_error es k = Some e /\ r = mkRanked (i + Z.of_nat k) (Vec.cos_of_loop q e).
Proof.
  revert i. induction es as [|e es IH]; intros i; simpl.
  - split; [tauto|]. intros [k [e [H _]]]. destruct k; discriminate.
  - rewrite IH. split.
    + intros [<-|[k [e' [Hk ->]]]].
      * exists O, e. split; [reflexivity|]. f_equal. lia.
      * exists (S k), e'. split; [exact Hk|]. f_equal. lia.
    + intros [[|k] [e' [Hk ->]]].
      * left. injection Hk as <-. f_equal. lia.
      * right. exists k, e'. split; [exact Hk|]. f_equal. lia.
Qed.

Lemma ranked_from_nodup (q : Vec.vector) (es : list Vec.vector) (i : Z) :
  NoDup (map rk_index (ranked_from q es i)).
Proof.
  revert i. induction es as [|e es IH]; intros i; simpl; constructor; [|apply IH].
  intros Hin. apply in_map_iff in Hin as [r [Hr Hin]].
  apply in_ranked_from in Hin as [k [e' [_ ->]]]. simpl in Hr. lia.
Qed.

Lemma insert_ranked_sorted (x : Ranked) (l : list Ranked) :
  Sorted rdesc l -> Sorted rdesc (insert_ranked x l).
Proof.
  induction l as [|y l IH]; intros Hs; simpl.
  - repeat constructor.
  - unfold rank_compare.
    destruct (Rle_dec (rk_similarity y - rk_similarity x) 0) as [Hle|Hgt].
    + constructor; [exact Hs|]. constructor. unfold rdesc. lra.
    + apply Sorted_inv in Hs as [Hl Hhd].
      constructor; [apply IH; exact Hl|].
      destruct l as [|z l]; simpl.
      * constructor. unfold rdesc. lra.
      * unfold rank_compare.
        destruct (Rle_dec (rk_similarity z - rk_similarity x) 0).
        -- constructor. unfold rdesc. lra.
        -- inversion Hhd; subst. constructor. assumption.
Qed.

Lemma sort_ranked_sorted (l : list Ranked) : Sorted rdesc (sort_ranked l).
Proof.
  induction l; simpl; [constructor|]. apply insert_ranked_sorted. assumption.
Qed.

Lemma insert_ranked_perm (x : Ranked) (l : list Ranked) :
  Permutation (insert_ranked x l) (x :: l).
Proof.
  induction l as [|y l IH]; simpl; [reflexivity|].
  destruct (Rle_dec (rank_compare x y) 0); [reflexivity|].
  rewrite IH. apply perm_swap.
Qed.

Lemma sort_ranked_perm (l : list Ranked) : Permutation (sort_ranked l) l.
Proof.
  induction l as [|x l IH]; simpl; [reflexivity|].
  rewrite insert_ranked_perm, IH. reflexivity.
Qed.

Lemma strongly_sorted_app {A} (Rel : A -> A -> Prop) (a b : list A) (x y : A) :
  StronglySorted Rel (a ++ b) -> In x a -> In y b -> Rel x y.
Proof.
  induction a as [|z a IH]; intros Hs Hx Hy; [destruct Hx|].
  simpl in Hs. apply StronglySorted_inv in Hs as [Hs Hall].
  destruct Hx as [<-|Hx].
  - rewrite Forall_forall in Hall. apply Hall, in_or_app. right. exact Hy.
  - exact (IH Hs Hx Hy).
Qed.

Lemma sorted_firstn_gen {A} (Rel : A -> A -> Prop) (n : nat) (l : list A) :
  Sorted Rel l -> Sorted Rel (firstn n l).
Proof.
  revert l. induction n as [|n IH]; intros l Hs; [constructor|].
  destruct l as [|x l]; simpl; [constructor|].
  apply Sorted_inv in Hs as [Hl Hhd]. constructor; [apply IH; exact Hl|].
  destruct n, l; simpl; try constructor. inversion Hhd; assumption.
Qed.

Lemma rdesc_trans : Relations_1.Transitive rdesc.
Proof. intros a b c H1 H2. unfold rdesc in *. lra. Qed.

End RankFacts.

Module CosineSym.

Local Open Scope R_scope.

Lemma cos_loop_swap (a b : Vec.vector) (d ma mb : R) :
  Vec.cos_loop (d, ma, mb) a b =
  let '(d', mb', ma') := Vec.cos_loop (d, mb, ma) b a in (d', ma', mb').
Proof.
  revert b d ma mb. induction a as [|x a IH]; intros [|y b] d ma mb; simpl;
    try reflexivity.
  rewrite IH. rewrite (Rmult_comm x y). reflexivity.
Qed.

Lemma cos_of_loop_sym (a b : Vec.vector) : Vec.cos_of_loop a b = Vec.cos_of_loop b a.
Proof.
  unfold Vec.cos_of_loop. rewrite cos_loop_swap.
  destruct (Vec.cos_loop (0, 0, 0) b a) as [[d mb] ma].
  destruct (Req_dec_T (sqrt ma) 0); destruct (Req_dec_T (sqrt mb) 0);
    try reflexivity.
  rewrite Rmult_comm. reflexivity.
Qed.

End CosineSym.

(** X6. [findMostSimilar] throws ['Embeddings must have the same dimensions']
    exactly when some embedding's length differs from the query's; when
    every length agrees it returns a list. *)
Theorem findMostSimilar_dimension_check
    (q : Vec.vector) (es : list Vec.vector) (topK : Z) :
  (Forall (fun e => List.length e = List.length q) es ->
   exists res, EmbeddingsMore.findMostSimilar q es topK = Ret res) /\
  (~ Forall (fun e => List.length e = List.length q) es ->
   EmbeddingsMore.findMostSimilar q es topK =
     Throw (ErrorObj (lit "Embeddings must have the same dimensions"))).
Proof.
  unfold EmbeddingsMore.findMostSimilar. split.
  - intros H. rewrite (RankFacts.score_from_ok q es 0 H). eexists. reflexivity.
  - intros H. rewrite (RankFacts.score_from_err q es 0 H). reflexivity.
Qed.

(** X7. When every embedding has the query's length and [topK >= 0],
    [findMostSimilar] returns [min(topK, embeddings.length)] entries,
    sorted by non-increasing similarity, with distinct indices; each entry
    is an index [i] of [embeddings] with the cosine similarity of the query
    and [embeddings[i]]; and an embedding left out is no more similar than
    any entry returned. *)
Theorem findMostSimilar_top_k (q : Vec.vector) (es : list Vec.vector) (topK : Z) :
  Forall (fun e => List.length e = List.length q) es ->
  (0 <= topK)%Z ->
  exists res,
    EmbeddingsMore.findMostSimilar q es topK = Ret res /\
    List.length res = Nat.min (Z.to_nat topK) (List.length es) /\
    Sorted (fun a b => (EmbeddingsMore.rk_similarity b
                        <= EmbeddingsMore.rk_similarity a)%R) res /\
    NoDup (map EmbeddingsMore.rk_index res) /\
    (forall r, In r res ->
       (0 <= EmbeddingsMore.rk_index r)%Z /\
       exists e, nth_error es (Z.to_nat (EmbeddingsMore.rk_index r)) = Some e /\
                 EmbeddingsMore.rk_similarity r = Vec.cos_of_loop q e) /\
    (forall j e r, nth_error es j = Some e ->
       ~ In (Z.of_nat j) (map EmbeddingsMore.rk_index res) -> In r res ->
       (Vec.cos_of_loop q e <= EmbeddingsMore.rk_similarity r)%R).
Proof.
  intros Hdim HK. unfold EmbeddingsMore.findMostSimilar.
  rewrite (RankFacts.score_from_ok q es 0 Hdim). cbn [bind].
  set (l := RankFacts.ranked_from q es 0).
  set (s := EmbeddingsMore.sort_ranked l).
  rewrite SearchFacts.slice_from_zero by exact HK.
  set (n := Z.to_nat topK).
  pose proof (RankFacts.sort_ranked_perm l) as Hp. fold s in Hp.
  pose proof (RankFacts.sort_ranked_sorted l) as Hs. fold s in Hs.
  assert (Hin : forall r, In r (firstn n s) -> In r l).
  { intros r Hr. apply SearchFacts.in_firstn_in in Hr.
    exact (Permutation_in _ Hp Hr). }
  exists (firstn n s). split; [reflexivity|].
  split; [|split; [|split; [|split]]].
  - rewrite length_firstn, (Permutation_length Hp).
    unfold l. rewrite RankFacts.ranked_from_length. reflexivity.
  - apply RankFacts.sorted_firstn_gen, Hs.
  - apply (NoDup_app_remove_r _ (map EmbeddingsMore.rk_index (skipn n s))).
    rewrite <- map_app, firstn_skipn.
    apply (Permutation_NoDup (Permutation_map _ (Permutation_sym Hp))).
    apply RankFacts.ranked_from_nodup.
  - intros r Hr. apply Hin in Hr. unfold l in Hr.
    apply RankFacts.in_ranked_from in Hr as [k [e [Hk ->]]]. simpl.
    split; [lia|]. exists e. rewrite Nat2Z.id. split; [exact Hk | reflexivity].
  - intros j e r Hj Hnot Hr.
    set (rj := EmbeddingsMore.mkRanked (Z.of_nat j) (Vec.cos_of_loop q e)).
    assert (Hrj : In rj s).
    { apply (Permutation_in _ (Permutation_sym Hp)). unfold l.
      apply RankFacts.in_ranked_from. exists j, e. split; [exact Hj | reflexivity]. }
    rewrite <- (firstn_skipn n s) in Hrj. apply in_app_or in Hrj as [Hrj|Hrj].
    + exfalso. apply Hnot. apply in_map_iff. exists rj. split; [reflexivity | exact Hrj].
    + pose proof (Sorted_StronglySorted RankFacts.rdesc_trans Hs) as Hss.
      rewrite <- (firstn_skipn n s) in Hss.
      exact (RankFacts.strongly_sorted_app _ _ _ r rj Hss Hr Hrj).
Qed.

Lemma findMostSimilar_top_k_witness :
  Forall (fun e => List.length e = List.length [1%R; 0%R])
    [[0%R; 1%R]; [1%R; 0%R]; [1%R; 1%R]] /\
  (0 <= 2)%Z /\
  exists res,
    EmbeddingsMore.findMostSimilar [1%R; 0%R] [[0%R; 1%R]; [1%R; 0%R]; [1%R; 1%R]] 2
      = Ret res /\
    List.length res = Nat.min (Z.to_nat 2) 3 /\
    Sorted (fun a b => (EmbeddingsMore.rk_similarity b
                        <= EmbeddingsMore.rk_similarity a)%R) res /\
    NoDup (map EmbeddingsMore.rk_index res) /\
    (forall r, In r res ->
       (0 <= EmbeddingsMore.rk_index r)%Z /\
       exists e, nth_error [[0%R; 1%R]; [1%R; 0%R]; [1%R; 1%R]]
                   (Z.to_nat (EmbeddingsMore.rk_index r)) = Some e /\
                 EmbeddingsMore.rk_similarity r = Vec.cos_of_loop [1%R; 0%R] e) /\
    (forall j e r, nth_error [[0%R; 1%R]; [1%R; 0%R]; [1%R; 1%R]] j = Some e ->
       ~ In (Z.of_nat j) (map EmbeddingsMore.rk_index res) -> In r res ->
       (Vec.cos_of_loop [1%R; 0%R] e <= EmbeddingsMore.rk_similarity r)%R).
Proof.
  assert (H1 : Forall (fun e => List.length e = List.length [1%R; 0%R])
                 [[0%R; 1%R]; [1%R; 0%R]; [1%R; 1%R]]) by repeat constructor.
  assert (H2 : (0 <= 2)%Z) by lia.
  split; [exact H1|]. split; [exact H2|].
  exact (findMostSimilar_top_k [1%R; 0%R] _ 2 H1 H2).
Defined.

(** X8. Both [cosineSimilarity] functions are symmetric: swapping the two
    vectors gives the same result (the same number, or the same thrown
    error). *)
Theorem cosineSimilarity_symmetric (a b : Vec.vector) :
  Embeddings.cosineSimilarity a b = Embeddings.cosineSimilarity b a /\
  BrandVoiceQueries.cosineSimilarity a b = BrandVoiceQueries.cosineSimilarity b a.
Proof.
  unfold Embeddings.cosineSimilarity, BrandVoiceQueries.cosineSimilarity.
  rewrite Nat.eqb_sym, CosineSym.cos_of_loop_sym. split; reflexivity.
Qed.

(** X10. [generateEmbedding]: without [OPENAI_API_KEY] it throws the client's
    error unwrapped (the client is built before the [try]); with the key,
    an empty [response.data] throws
    ['Failed to generate embedding: No embedding returned from OpenAI'], a
    failing API call throws its message behind the same prefix, and a
    response returns its first vector with the text, the model and
    [dimensions] equal to the vector's length. *)
Theorem generateEmbedding_outcomes
    (create : jsstr -> Outcome (list Vec.vector)) (text model : jsstr) :
  EmbeddingsMore.generateEmbedding create false text model =
    Throw (ErrorObj (lit "OPENAI_API_KEY environment variable is not set")) /\
  (create text = Ret [] ->
   EmbeddingsMore.generateEmbedding create true text model =
     Throw (ErrorObj (lit "Failed to generate embedding: No embedding returned from OpenAI"))) /\
  (forall e, create text = Throw e ->
   EmbeddingsMore.generateEmbedding create true text model =
     Throw (ErrorObj (lit "Failed to generate embedding: "
                      ++ BrandVoiceRag.error_message e))) /\
  (forall v rest, create text = Ret (v :: rest) ->
   EmbeddingsMore.generateEmbedding create true text model =
     Ret (Embeddings.mkEmbeddingResult v text model (len v))).
Proof.
  unfold EmbeddingsMore.generateEmbedding. split; [reflexivity|].
  split; [|split].
  - intros H. rewrite H. reflexivity.
  - intros e H. rewrite H. reflexivity.
  - intros v rest H. rewrite H. reflexivity.
Qed.

(** X11. [retrieveBrandVoiceContext] over [generateEmbedding] reports every
    embedding failure behind its own prefix
    ['Failed to retrieve brand voice context: ']: the missing-key message
    directly, and the API failures with the second prefix
    ['Failed to generate embedding: '] of [generateEmbedding]. *)
Theorem retrieve_embedding_errors
    (create : jsstr -> Outcome (list Vec.vector)) (table : list BrandVoiceEmbedding)
    (query : jsstr) (options : BrandVoiceRag.RAGOptions) :
  let retrieve key :=
    BrandVoiceRag.retrieveBrandVoiceContext
      (EmbeddingsMore.query_embedding create key) table query options in
  retrieve false =
    Throw (ErrorObj (lit "Failed to retrieve brand voice context: OPENAI_API_KEY environment variable is not set")) /\
  (create query = Ret [] ->
   retrieve true =
     Throw (ErrorObj (lit "Failed to retrieve brand voice context: Failed to generate embedding: No embedding returned from OpenAI"))) /\
  (forall e, create query = Throw e ->
   retrieve true =
     Throw (ErrorObj (lit "Failed to retrieve brand voice context: Failed to generate embedding: "
                      ++ BrandVoiceRag.error_message e))).
Proof.
  intros retrieve. unfold retrieve, BrandVoiceRag.retrieveBrandVoiceContext,
    EmbeddingsMore.query_embedding, EmbeddingsMore.generateEmbedding.
  split; [reflexivity|]. split.
  - intros H. rewrite H. reflexivity.
  - intros e H. rewrite H. reflexivity.
Qed.

Module GroupFacts.

Import StoreMore.

Section Group.

Context {K : Type}.
Variable eqb : K -> K -> bool.
Hypothesis eqb_spec : forall a b, eqb a b = true <-> a = b.

(** The count the group of [x] should hold. *)
Definition cnt (seen : list K) (x : K) : Z := len (filter (fun y => eqb y x) seen).

(** The count held for [x] ([0] when there is no group). *)
Fixpoint lookup (x : K) (acc : list (K * Z)) : Z :=
  match acc with
  | [] => 0
  | (k, n) :: acc' => if eqb k x then n else lookup x acc'
  end.

Definition sumZ (acc : list (K * Z)) : Z := fold_right (fun p s => snd p + s) 0 acc.

Lemma eqb_refl' (a : K) : eqb a a = true.
Proof. apply eqb_spec. reflexivity. Qed.

Lemma eqb_false (a b : K) : eqb a b = false <-> a <> b.
Proof.
  split; intros H.
  - intros E. apply eqb_spec in E. congruence.
  - destruct (eqb a b) eqn:E; [|reflexivity]. exfalso. apply H, eqb_spec, E.
Qed.

Lemma lookup_bump (x k : K) (acc : list (K * Z)) :
  lookup x (bump eqb k acc) = lookup x acc + (if eqb k x then 1 else 0).
Proof.
  induction acc as [|[k' n] acc IH]; simpl.
  - destruct (eqb k x); lia.
  - destruct (eqb k' k) eqn:E1.
    + apply eqb_spec in E1. subst k'. simpl. destruct (eqb k x); lia.
    + simpl. destruct (eqb k' x) eqn:E2.
      * apply eqb_spec in E2. subst k'.
        destruct (eqb k x) eqn:E3; [|lia].
        apply eqb_spec in E3. subst k. rewrite eqb_refl' in E1. discriminate.
      * exact IH.
Qed.

Lemma in_fst_bump (x k : K) (acc : list (K * Z)) :
  In x (map fst (bump eqb k acc)) <-> x = k \/ In x (map fst acc).
Proof.
  induction acc as [|[k' n] acc IH]; simpl.
  - intuition congruence.
  - destruct (eqb k' k) eqn:E.
    + apply eqb_spec in E. subst k'. simpl. intuition congruence.
    + simpl. rewrite IH. tauto.
Qed.

Lemma nodup_bump (k : K) (acc : list (K * Z)) :
  NoDup (map fst acc) -> NoDup (map fst (bump eqb k acc)).
Proof.
  induction acc as [|[k' n] acc IH]; simpl; intros H.
  - repeat constructor. intros [].
  - apply NoDup_cons_iff in H as [Hn H].
    destruct (eqb k' k) eqn:E; simpl; constructor; auto.
    rewrite in_fst_bump. intros [E'|E']; [|contradiction].
    subst k'. rewrite eqb_refl' in E. discriminate.
Qed.

Lemma sum_bump (k : K) (acc : list (K * Z)) : sumZ (bump eqb k acc) = sumZ acc + 1.
Proof.
  unfold sumZ in *. induction acc as [|[k' n] acc IH]; simpl; [reflexivity|].
  destruct (eqb k' k); simpl; lia.
Qed.

Lemma in_lookup (x : K) (n : Z) (acc : list (K * Z)) :
  NoDup (map fst acc) -> In (x, n) acc -> n = lookup x acc.
Proof.
  induction acc as [|[k m] acc IH]; simpl; intros Hd Hin; [destruct Hin|].
  apply NoDup_cons_iff in Hd as [Hn Hd]. destruct Hin as [E|Hin].
  - injection E as -> ->. rewrite eqb_refl'. reflexivity.
  - destruct (eqb k x) eqn:E.
    + apply eqb_spec in E. subst k. exfalso. apply Hn.
      apply in_map_iff. exists (x, n). split; [reflexivity | exact Hin].
    + exact (IH Hd Hin).
Qed.

Definition Inv (acc : list (K * Z)) (seen : list K) : Prop :=
  NoDup (map fst acc) /\ (forall x, lookup x acc = cnt seen x) /\
  (forall x, In x (map fst acc) <-> In x seen) /\ sumZ acc = len seen.

Lemma cnt_snoc (seen : list K) (k x : K) :
  cnt (seen ++ [k]) x = cnt seen x + (if eqb k x then 1 else 0).
Proof.
  unfold cnt, len. rewrite filter_app, length_app. simpl.
  destruct (eqb k x); simpl; lia.
Qed.

Lemma fold_inv (keys : list K) (acc : list (K * Z)) (seen : list K) :
  Inv acc seen ->
  Inv (fold_left (fun acc k => bump eqb k acc) keys acc) (seen ++ keys).
Proof.
  revert acc seen. induction keys as [|k keys IH]; intros acc seen H.
  - rewrite app_nil_r. exact H.
  - simpl. replace (seen ++ k :: keys) with ((seen ++ [k]) ++ keys)
      by (rewrite <- app_assoc; reflexivity).
    apply IH. destruct H as [Hd [Hl [Hi Hs]]].
    split; [|split; [|split]].
    + apply nodup_bump, Hd.
    + intros x. rewrite lookup_bump, cnt_snoc, Hl. reflexivity.
    + intros x. rewrite in_fst_bump, Hi, in_app_iff. simpl. intuition.
    + rewrite sum_bump, Hs. unfold len. rewrite length_app. simpl. lia.
Qed.

Lemma group_count_inv (keys : list K) : Inv (group_count eqb keys) keys.
Proof.
  apply (fold_inv keys [] []). split; [constructor|]. split; [reflexivity|].
  split; [simpl; tauto | reflexivity].
Qed.

End Group.

Lemma source_eqb_spec (a b : BrandVoiceSource) : source_eqb a b = true <-> a = b.
Proof. destruct a, b; simpl; split; congruence. Qed.

Lemma jsstr_eqb_spec (a b : jsstr) : jsstr_eqb a b = true <-> a = b.
Proof.
  unfold jsstr_eqb. destruct (list_eq_dec Ascii.ascii_dec a b); split; congruence.
Qed.

Lemma cnt_sources (table : list BrandVoiceEmbedding) (s : BrandVoiceSource) :
  cnt source_eqb (map source table) s = len (filter (fun r => source_eqb (source r) s) table).
Proof.
  unfold cnt, len. induction table as [|r table IH]; [reflexivity|]. simpl.
  destruct (source_eqb (source r) s); simpl; lia.
Qed.

Definition file_keys (table : list BrandVoiceEmbedding) : list jsstr :=
  flat_map (fun r => match source_file r with Some f => [f] | None => [] end) table.

Definition has_file (r : BrandVoiceEmbedding) : bool :=
  match source_file r with Some _ => true | None => false end.

Lemma cnt_files (table : list BrandVoiceEmbedding) (f : jsstr) :
  cnt jsstr_eqb (file_keys table) f = len (filter (file_matches f) table).
Proof.
  unfold cnt, len, file_keys. induction table as [|r table IH]; [reflexivity|].
  simpl. unfold file_matches at 1. destruct (source_file r) as [g|]; simpl.
  - destruct (jsstr_eqb g f); simpl; lia.
  - exact IH.
Qed.

Lemma len_file_keys (table : list BrandVoiceEmbedding) :
  len (file_keys table) = len (filter has_file table).
Proof.
  unfold len, file_keys. induction table as [|r table IH]; [reflexivity|].
  simpl. unfold has_file at 1. destruct (source_file r); simpl; lia.
Qed.

Lemma in_file_keys (table : list BrandVoiceEmbedding) (f : jsstr) :
  In f (file_keys table) <-> exists r, In r table /\ source_file r = Some f.
Proof.
  unfold file_keys. rewrite in_flat_map. split.
  - intros [r [Hr Hf]]. exists r. split; [exact Hr|].
    destruct (source_file r); simpl in Hf; [|contradiction].
    destruct Hf as [<-|[]]. reflexivity.
  - intros [r [Hr Hf]]. exists r. split; [exact Hr|]. rewrite Hf. left. reflexivity.
Qed.

End GroupFacts.

Module StoreFacts.

Lemma filter_split_len {A} (f : A -> bool) (l : list A) :
  len (filter f l) + len (filter (fun x => negb (f x)) l) = len l.
Proof.
  unfold len. rewrite <- Nat2Z.inj_add. f_equal.
  induction l as [|x l IH]; [reflexivity|]. simpl.
  destruct (f x); simpl; lia.
Qed.

Lemma in_slice {A} (x : A) (l : list A) (a b : Z) : In x (slice l a b) -> In x l.
Proof.
  unfold slice. intros H. apply SearchFacts.in_firstn_in in H.
  rewrite <- (firstn_skipn (Z.to_nat (slice_index (len l) a)) l).
  apply in_or_app. right. exact H.
Qed.

Lemma in_findSimilar (table : list BrandVoiceEmbedding) (q : Vec.vector) (k : Z)
    (m : R) (src : option BrandVoiceSource) (s : Scored) :
  In s (BrandVoiceQueries.findSimilarBrandVoice table q k m src) -> In (item s) table.
Proof.
  unfold BrandVoiceQueries.findSimilarBrandVoice. intros H.
  apply in_slice, (proj1 (SearchFacts.in_sort _ _)) in H.
  unfold BrandVoiceQueries.kept_candidates in H. apply filter_In in H as [H _].
  apply in_map_iff in H as [r [<- Hr]]. simpl.
  unfold BrandVoiceQueries.select_candidates in Hr.
  destruct src; [apply filter_In in Hr as [Hr _]|]; exact Hr.
Qed.

Lemma filter_none {A} (f : A -> bool) (l : list A) :
  (forall x, In x l -> f x = false) -> filter f l = [].
Proof.
  induction l as [|x l IH]; intros H; [reflexivity|]. simpl.
  rewrite (H x (or_introl eq_refl)). apply IH. intros y Hy. apply H. right. exact Hy.
Qed.

Lemma len_pos_of_in {K} (eqb : K -> K -> bool) (l : list K) (x : K) :
  eqb x x = true -> In x l -> 1 <= len (filter (fun y => eqb y x) l).
Proof.
  intros Hx H. unfold len. induction l as [|y l IH]; [destruct H|]. simpl.
  destruct H as [->|H].
  - rewrite Hx. simpl. lia.
  - destruct (eqb y x); simpl; [lia | exact (IH H)].
Qed.

End StoreFacts.

(** X12. [getBrandVoiceStats]: [total] is the number of rows; [bySource] has one
    entry per source that occurs, each count the number of rows with that
    source (so at least [1]), and its counts add up to [total]. *)
Theorem getBrandVoiceStats_bySource (table : list BrandVoiceEmbedding) :
  let st := StoreMore.getBrandVoiceStats table in
  StoreMore.total st = len table /\
  NoDup (map fst (StoreMore.bySource st)) /\
  (forall s, In s (map fst (StoreMore.bySource st)) <->
             exists r, In r table /\ source r = s) /\
  (forall s n, In (s, n) (StoreMore.bySource st) ->
     1 <= n /\ n = len (filter (fun r => source_eqb (source r) s) table)) /\
  fold_right (fun p t => snd p + t) 0 (StoreMore.bySource st) = StoreMore.total st.
Proof.
  intros st. unfold st, StoreMore.getBrandVoiceStats. simpl.
  destruct (GroupFacts.group_count_inv source_eqb GroupFacts.source_eqb_spec
              (map source table)) as [Hd [Hl [Hi Hs]]].
  split; [reflexivity|]. split; [exact Hd|]. split; [|split].
  - intros s. rewrite Hi, in_map_iff. firstorder.
  - intros s n Hin.
    rewrite (GroupFacts.in_lookup source_eqb GroupFacts.source_eqb_spec s n _ Hd Hin),
      Hl, GroupFacts.cnt_sources.
    split; [|reflexivity].
    assert (Hk : In s (map source table)).
    { apply Hi, in_map_iff. exists (s, n). split; [reflexivity | exact Hin]. }
    pose proof (StoreFacts.len_pos_of_in source_eqb _ s
                  (proj2 (GroupFacts.source_eqb_spec s s) eq_refl) Hk) as Hp.
    rewrite <- GroupFacts.cnt_sources. exact Hp.
  - unfold GroupFacts.sumZ in Hs. rewrite Hs. unfold len. rewrite length_map.
    reflexivity.
Qed.

(** X13. [getBrandVoiceStats]: [byFile] has one entry per source file named by
    some row (rows without a file are left out), each count the number of
    rows of that file, and its counts add up to the number of rows that
    have a file; [isBrandVoiceInitialized] holds exactly when the table has
    a row. *)
Theorem getBrandVoiceStats_byFile (table : list BrandVoiceEmbedding) :
  let st := StoreMore.getBrandVoiceStats table in
  NoDup (map fst (StoreMore.byFile st)) /\
  (forall f, In f (map fst (StoreMore.byFile st)) <->
             exists r, In r table /\ source_file r = Some f) /\
  (forall f n, In (f, n) (StoreMore.byFile st) ->
     n = len (filter (StoreMore.file_matches f) table)) /\
  fold_right (fun p t => snd p + t) 0 (StoreMore.byFile st) =
    len (filter (fun r => match source_file r with Some _ => true | None => false end)
           table) /\
  (StoreMore.isBrandVoiceInitialized table = true <-> table <> []).
Proof.
  intros st. unfold st, StoreMore.getBrandVoiceStats. simpl.
  destruct (GroupFacts.group_count_inv jsstr_eqb GroupFacts.jsstr_eqb_spec
              (GroupFacts.file_keys table)) as [Hd [Hl [Hi Hs]]].
  unfold GroupFacts.file_keys in *.
  split; [exact Hd|]. split; [|split; [|split]].
  - intros f. rewrite Hi. apply GroupFacts.in_file_keys.
  - intros f n Hin.
    rewrite (GroupFacts.in_lookup jsstr_eqb GroupFacts.jsstr_eqb_spec f n _ Hd Hin), Hl.
    apply GroupFacts.cnt_files.
  - unfold GroupFacts.sumZ in Hs. rewrite Hs. apply GroupFacts.len_file_keys.
  - unfold StoreMore.isBrandVoiceInitialized, StoreMore.getBrandVoiceStats.
    cbn [StoreMore.total]. rewrite Z.ltb_lt. unfold len.
    destruct table as [|r0 t0]; simpl List.length; split; intros H.
    + lia.
    + exfalso. exact (H eq_refl).
    + discriminate.
    + lia.
Qed.

(** X14. [deleteBrandVoiceEmbeddingsByFile(f)] removes exactly the rows whose
    [source_file] is [f] (rows without a file stay), returns how many it
    removed, leaves nothing for a second call to remove, and afterwards no
    similarity search returns a row of [f]. *)
Theorem deleteByFile_effect (table : list BrandVoiceEmbedding) (f : jsstr) :
  let res := StoreMore.deleteBrandVoiceEmbeddingsByFile table f in
  (forall r, In r (fst res) <-> In r table /\ source_file r <> Some f) /\
  snd res + len (fst res) = len table /\
  snd (StoreMore.deleteBrandVoiceEmbeddingsByFile (fst res) f) = 0 /\
  (forall q k m src s,
     In s (BrandVoiceQueries.findSimilarBrandVoice (fst res) q k m src) ->
     source_file (item s) <> Some f).
Proof.
  intros res.
  assert (Hm : forall r, StoreMore.file_matches f r = true <-> source_file r = Some f).
  { intros r. unfold StoreMore.file_matches. destruct (source_file r) as [g|].
    - rewrite GroupFacts.jsstr_eqb_spec. split; congruence.
    - split; discriminate. }
  assert (Hin : forall r, In r (fst res) <-> In r table /\ source_file r <> Some f).
  { intros r. unfold res, StoreMore.deleteBrandVoiceEmbeddingsByFile. simpl.
    rewrite filter_In, negb_true_iff, <- Hm.
    destruct (StoreMore.file_matches f r); intuition congruence. }
  split; [exact Hin|]. split; [|split].
  - unfold res, StoreMore.deleteBrandVoiceEmbeddingsByFile. simpl.
    apply StoreFacts.filter_split_len.
  - change (snd (StoreMore.deleteBrandVoiceEmbeddingsByFile (fst res) f)) with
      (len (filter (StoreMore.file_matches f) (fst res))).
    rewrite StoreFacts.filter_none; [reflexivity|]. intros r Hr.
    apply Hin in Hr as [_ Hr]. destruct (StoreMore.file_matches f r) eqn:E; [|reflexivity].
    apply Hm in E. contradiction.
  - intros q k m src s Hs. apply StoreFacts.in_findSimilar in Hs.
    apply Hin in Hs. tauto.
Qed.

(** X15. [deleteBrandVoiceEmbeddingsBySource(src)] removes exactly the rows
    tagged [src] and returns how many it removed; afterwards a similarity
    search restricted to [src] finds nothing, and an unrestricted one
    returns no row of [src]. *)
Theorem deleteBySource_effect (table : list BrandVoiceEmbedding) (src : BrandVoiceSource) :
  let res := StoreMore.deleteBrandVoiceEmbeddingsBySource table src in
  (forall r, In r (fst res) <-> In r table /\ source r <> src) /\
  snd res + len (fst res) = len table /\
  (forall q k m, BrandVoiceQueries.findSimilarBrandVoice (fst res) q k m (Some src) = []) /\
  (forall q k m s, In s (BrandVoiceQueries.findSimilarBrandVoice (fst res) q k m None) ->
     source (item s) <> src).
Proof.
  intros res.
  assert (Hin : forall r, In r (fst res) <-> In r table /\ source r <> src).
  { intros r. unfold res, StoreMore.deleteBrandVoiceEmbeddingsBySource. simpl.
    rewrite filter_In, negb_true_iff, <- GroupFacts.source_eqb_spec.
    destruct (source_eqb (source r) src); intuition congruence. }
  split; [exact Hin|]. split; [|split].
  - unfold res, StoreMore.deleteBrandVoiceEmbeddingsBySource. simpl.
    apply StoreFacts.filter_split_len.
  - intros q k m. unfold BrandVoiceQueries.findSimilarBrandVoice,
      BrandVoiceQueries.kept_candidates, BrandVoiceQueries.select_candidates.
    rewrite (StoreFacts.filter_none _ (fst res)).
    { cbn [map filter BrandVoiceQueries.sort]. unfold slice.
      rewrite skipn_nil, firstn_nil. reflexivity. }
    intros r Hr. apply Hin in Hr as [_ Hr].
    destruct (source_eqb (source r) src) eqn:E; [|reflexivity].
    apply GroupFacts.source_eqb_spec in E. contradiction.
  - intros q k m s Hs. apply StoreFacts.in_findSimilar in Hs. apply Hin in Hs. tauto.
Qed.

Module ChunkBounds.

Import TextChunker.

Lemma last_match_from_le (s sub : jsstr) (n : nat) :
  (last_match_from s sub n <= Z.of_nat n)%Z.
Proof.
  induction n as [|n IH]; simpl; destruct (is_prefix sub _); lia.
Qed.

Lemma lastIndexOf_bounds (s sub : jsstr) (pos r : Z) :
  (0 <= pos)%Z -> lastIndexOf s sub pos = r -> r <> (-1)%Z ->
  (0 <= r)%Z /\ (r <= pos)%Z /\ (r + len sub <= len s)%Z.
Proof.
  intros Hp. unfold lastIndexOf.
  destruct (Z.ltb_spec (Z.min (Z.min (Z.max pos 0) (len s)) (len s - len sub)) 0)
    as [_|Ht]; [lia|].
  intros <- Hne.
  pose proof (last_match_from_le s sub
                (Z.to_nat (Z.min (Z.min (Z.max pos 0) (len s)) (len s - len sub)))) as Hle.
  pose proof (ChunkFacts.last_match_from_ge s sub
                (Z.to_nat (Z.min (Z.min (Z.max pos 0) (len s)) (len s - len sub)))) as Hge.
  rewrite Z2Nat.id in Hle by exact Ht. lia.
Qed.

Lemma max_separator_length_ge (sep : jsstr) (seps : list jsstr) :
  In sep seps -> (len sep <= ChunkerMore.max_separator_length seps)%Z.
Proof.
  induction seps as [|s seps IH]; simpl; [tauto|].
  intros [->|H]; [lia|]. specialize (IH H). lia.
Qed.

Lemma find_split_le (t : jsstr) (s endPos : Z) (seps : list jsstr) (p : Z) :
  (0 <= s < endPos)%Z -> (endPos <= len t)%Z ->
  find_split t s endPos seps = Some p ->
  (p <= len t)%Z /\ (p <= endPos + ChunkerMore.max_separator_length seps)%Z.
Proof.
  intros Hs He. induction seps as [|sep seps IH]; simpl; [discriminate|].
  set (searchStart := Z.max s (endPos - 200)).
  set (searchEnd := Z.min (endPos + 100) (len t)).
  set (segment := substring t searchStart searchEnd).
  destruct (Z.eqb_spec (lastIndexOf segment sep (endPos - searchStart)) (-1))
    as [Hm|Hm]; simpl.
  - intros H. destruct (IH H) as [H1 H2]. split; [exact H1|].
    pose proof (max_separator_length_ge sep (sep :: seps) (or_introl eq_refl)).
    simpl. lia.
  - intros Hp. injection Hp as <-.
    assert (Hseg : len segment = (searchEnd - searchStart)%Z).
    { apply ChunkFacts.len_substring; unfold searchStart, searchEnd; lia. }
    destruct (lastIndexOf_bounds segment sep (endPos - searchStart) _
                ltac:(unfold searchStart; lia) eq_refl Hm) as [H0 [H1 H2]].
    simpl. unfold searchEnd in Hseg. split; [lia|].
    unfold ChunkerMore.max_separator_length. simpl.
    fold (ChunkerMore.max_separator_length seps). lia.
Qed.

Lemma cut_end_bounds (o : ResolvedOptions) (t : jsstr) (s : Z) :
  (1 <= opt_size o)%Z -> (0 <= s < len t)%Z ->
  (s < cut_end o t s)%Z /\ (cut_end o t s <= len t)%Z /\
  (cut_end o t s <= s + opt_size o + ChunkerMore.max_separator_length (opt_separators o))%Z.
Proof.
  intros Hc Hs. split; [exact (ChunkFacts.cut_end_gt o t s Hc Hs)|].
  assert (HM : (0 <= ChunkerMore.max_separator_length (opt_separators o))%Z).
  { unfold ChunkerMore.max_separator_length.
    induction (opt_separators o); simpl; lia. }
  unfold cut_end.
  destruct (Z.ltb_spec (Z.min (s + opt_size o) (len t)) (len t)); [|lia].
  destruct (find_split _ _ _ _) as [p|] eqn:E; [|lia].
  destruct (find_split_le t s (Z.min (s + opt_size o) (len t)) (opt_separators o) p
              ltac:(lia) ltac:(lia) E). lia.
Qed.

Lemma len_trim_le (x : jsstr) : (len (trim x) <= len x)%Z.
Proof.
  unfold len, trim. rewrite length_rev.
  destruct (ChunkFacts.trim_start_suffix x) as [p Hp].
  destruct (ChunkFacts.trim_start_suffix (rev (trim_start x))) as [p' Hp'].
  apply (f_equal (@List.length ascii)) in Hp, Hp'.
  rewrite length_app in Hp, Hp'. rewrite length_rev in Hp'. lia.
Qed.

Lemma last_chunk_some (l : list TextChunk) (c : TextChunk) :
  last_chunk l = Some c -> exists l0, l = l0 ++ [c].
Proof.
  unfold last_chunk. destruct (rev l) as [|d r] eqn:E; [discriminate|].
  intros H. injection H as ->. exists (rev r).
  rewrite <- (rev_involutive l), E. reflexivity.
Qed.

Lemma last_chunk_nonempty (l : list TextChunk) :
  l <> [] -> exists c, last_chunk l = Some c.
Proof.
  intros H. destruct (exists_last H) as [l0 [c ->]]. exists c.
  apply ChunkFacts.last_chunk_snoc.
Qed.

Lemma sorted_snoc (l : list Z) (x : Z) :
  Sorted Z.lt l -> (forall y, In y l -> (y < x)%Z) -> Sorted Z.lt (l ++ [x]).
Proof.
  induction l as [|a l IH]; intros Hs Hall; simpl; [repeat constructor|].
  apply Sorted_inv in Hs as [Hl Hhd]. constructor.
  - apply IH; [exact Hl|]. intros y Hy. apply Hall. right. exact Hy.
  - destruct l as [|b l]; simpl.
    + constructor. apply Hall. left. reflexivity.
    + constructor. inversion Hhd. assumption.
Qed.

Lemma sorted_le_last (l0 : list TextChunk) (c : TextChunk) (y : TextChunk) :
  Sorted Z.lt (map startPosition (l0 ++ [c])) -> In y (l0 ++ [c]) ->
  (startPosition y <= startPosition c)%Z.
Proof.
  intros Hs Hy. apply in_app_or in Hy as [Hy|[<-|[]]]; [|lia].
  rewrite map_app in Hs.
  apply (Sorted_StronglySorted Z.lt_trans) in Hs.
  pose proof (RankFacts.strongly_sorted_app Z.lt _ _ (startPosition y) (startPosition c) Hs
                (in_map _ _ _ Hy) (or_introl eq_refl)). lia.
Qed.

(** What each chunk of the chunking loop satisfies. *)
Definition chunk_ok (o : ResolvedOptions) (t : jsstr) (c : TextChunk) : Prop :=
  chunk_text c = trim (substring t (startPosition c) (endPosition c)) /\
  chunk_text c <> [] /\
  (0 <= startPosition c < endPosition c)%Z /\ (endPosition c <= len t)%Z /\
  (endPosition c <= startPosition c + opt_size o
                    + ChunkerMore.max_separator_length (opt_separators o))%Z.

(** The loop invariant once a chunk has been pushed. *)
Definition Inv (o : ResolvedOptions) (t : jsstr) (st : ChunkState) : Prop :=
  chunks st <> [] /\
  chunkIndex st = len (chunks st) /\
  (forall k c, nth_error (chunks st) k = Some c -> index c = Z.of_nat k) /\
  Forall (chunk_ok o t) (chunks st) /\
  Sorted Z.lt (map startPosition (chunks st)) /\
  Forall (fun c => (startPosition c < startPos st)%Z) (chunks st).

Lemma step_inv (o : ResolvedOptions) (t : jsstr) (st : ChunkState) :
  (1 <= opt_size o)%Z -> Inv o t st -> (startPos st < len t)%Z ->
  Inv o t (chunk_step o t st).
Proof.
  intros Hc [Hne [Hidx [Hnth [Hok [Hsort Hlt]]]]] Hs.
  assert (Hs0 : (0 <= startPos st)%Z).
  { destruct (chunks st) as [|c0 l0]; [contradiction|].
    apply Forall_cons_iff in Hok as [[_ [_ [H0 _]]] _].
    apply Forall_cons_iff in Hlt as [H1 _]. lia. }
  destruct (cut_end_bounds o t (startPos st) Hc (conj Hs0 Hs)) as [He1 [He2 He3]].
  unfold chunk_step.
  set (e := cut_end o t (startPos st)) in *.
  set (tx := trim (substring t (startPos st) e)).
  destruct (Z.ltb_spec 0 (len tx)) as [Htx|Htx]; cbn [fst snd].
  - rewrite ChunkFacts.last_chunk_snoc. cbn [startPosition chunks chunkIndex startPos].
    set (next' := if e - opt_overlap o <=? startPos st then e else e - opt_overlap o).
    assert (Hn : (startPos st < next')%Z).
    { unfold next'. destruct (Z.leb_spec (e - opt_overlap o) (startPos st)); lia. }
    unfold Inv. cbn [startPos chunks chunkIndex].
    split; [|split; [|split; [|split; [|split]]]].
    + intros H. destruct (chunks st); discriminate.
    + rewrite Hidx. unfold len. rewrite length_app. simpl. lia.
    + intros k c Hk. destruct (Nat.lt_ge_cases k (List.length (chunks st))) as [Hk'|Hk'].
      * rewrite nth_error_app1 in Hk by exact Hk'. exact (Hnth k c Hk).
      * rewrite nth_error_app2 in Hk by exact Hk'.
        destruct (k - List.length (chunks st))%nat as [|m] eqn:Em.
        -- injection Hk as <-. simpl. rewrite Hidx. unfold len. f_equal. lia.
        -- destruct m; discriminate.
    + apply Forall_app. split; [exact Hok|]. constructor; [|constructor].
      split; [reflexivity|]. split.
      * intros H. change (tx = []) in H. rewrite H in Htx. unfold len in Htx. simpl in Htx. lia.
      * simpl. lia.
    + rewrite map_app. apply sorted_snoc; [exact Hsort|].
      intros y Hy. apply in_map_iff in Hy as [c [<- Hc']].
      rewrite Forall_forall in Hlt. exact (Hlt c Hc').
    + apply Forall_app. split.
      * eapply Forall_impl; [|exact Hlt]. simpl. intros c Hc'. lia.
      * constructor; [simpl; lia | constructor].
  - destruct (last_chunk_nonempty _ Hne) as [c Hc']. rewrite Hc'.
    unfold Inv. cbn [startPosition chunks chunkIndex startPos].
    split; [exact Hne|]. split; [exact Hidx|]. split; [exact Hnth|].
    split; [exact Hok|]. split; [exact Hsort|].
    destruct (last_chunk_some _ _ Hc') as [l0 Hl0].
    apply Forall_forall. intros y Hy.
    assert (Hyc : (startPosition y <= startPosition c)%Z).
    { rewrite Hl0 in Hy, Hsort. exact (sorted_le_last l0 c y Hsort Hy). }
    assert (Hcs : (startPosition c < startPos st)%Z).
    { rewrite Forall_forall in Hlt. apply Hlt. rewrite Hl0.
      apply in_or_app. right. left. reflexivity. }
    destruct (Z.leb_spec (e - opt_overlap o) (startPosition c)); lia.
Qed.

Lemma first_step_inv (o : ResolvedOptions) (text : jsstr) :
  (1 <= opt_size o)%Z -> opt_preserve o = false -> clean_text o text <> [] ->
  Inv o (clean_text o text) (chunk_step o (clean_text o text) init_state).
Proof.
  intros Hc Hp Hne.
  set (t := clean_text o text) in *.
  assert (Hs : (0 < len t)%Z).
  { destruct t; [contradiction|]. unfold len. simpl. lia. }
  destruct (cut_end_bounds o t 0 Hc ltac:(lia)) as [He1 [He2 He3]].
  destruct (ChunkFacts.first_step_emits o text Hc Hp Hne) as [c [Hcs Hc0]].
  fold t in Hcs.
  unfold chunk_step in *. cbn [startPos chunks chunkIndex init_state] in *.
  set (e := cut_end o t 0) in *.
  set (tx := trim (substring t 0 e)) in *.
  destruct (Z.ltb_spec 0 (len tx)) as [Htx|Htx]; cbn in Hcs; [|discriminate].
  injection Hcs as <-. cbn [chunks chunkIndex startPos].
  change (last_chunk [mkChunk tx 0 0 e]) with (Some (mkChunk tx 0 0 e)).
  cbn [startPosition].
  set (next' := if e - opt_overlap o <=? 0 then e else e - opt_overlap o).
  assert (Hn : (0 < next')%Z).
  { unfold next'. destruct (Z.leb_spec (e - opt_overlap o) 0); lia. }
  unfold Inv. cbn [startPos chunks chunkIndex].
  split; [discriminate|]. split; [reflexivity|]. split.
  - intros [|k] c Hk; [injection Hk as <-; reflexivity | destruct k; discriminate].
  - split; [|split].
    + constructor; [|constructor]. split; [reflexivity|]. split.
      * intros H. change (tx = []) in H. rewrite H in Htx. unfold len in Htx. simpl in Htx. lia.
      * simpl. lia.
    + repeat constructor.
    + constructor; [simpl; exact Hn | constructor].
Qed.

Lemma loop_inv (o : ResolvedOptions) (t : jsstr) (fuel : nat) (st st' : ChunkState) :
  (1 <= opt_size o)%Z -> Inv o t st -> chunk_loop fuel o t st = Ret st' -> Inv o t st'.
Proof.
  intros Hc. revert st. induction fuel as [|fuel IH]; intros st Hi; simpl;
    destruct (Z.ltb_spec (startPos st) (len t)) as [Hlt|Hge];
    try discriminate; try (intros H; injection H as <-; exact Hi).
  apply IH. exact (step_inv o t st Hc Hi Hlt).
Qed.

(** A run of [chunkText] that returns, with whitespace normalized: empty
    exactly when the normalized text is, and otherwise a list satisfying
    the invariant. *)
Lemma chunkText_inv (fuel : nat) (text : jsstr) (options : ChunkingOptions)
    (chunks0 : list TextChunk) :
  let o := resolve options in
  (1 <= opt_size o)%Z -> opt_preserve o = false ->
  chunkText fuel text options = Ret chunks0 ->
  (clean_text o text = [] /\ chunks0 = []) \/
  (clean_text o text <> [] /\ chunks0 <> [] /\
   (forall k c, nth_error chunks0 k = Some c -> index c = Z.of_nat k) /\
   Forall (chunk_ok o (clean_text o text)) chunks0 /\
   Sorted Z.lt (map startPosition chunks0)).
Proof.
  intros o Hc Hp. unfold chunkText. fold o.
  destruct (clean_text o text) as [|ch r] eqn:Ecl.
  - simpl. intros H. injection H as <-. left. split; reflexivity.
  - replace (len (ch :: r) =? 0)%Z with false
      by (symmetry; apply Z.eqb_neq; unfold len; simpl; lia).
    intros H. apply IngestionFacts.bind_ret_inv in H as [st' [Hl Hr]].
    injection Hr as <-. right. split; [discriminate|].
    rewrite <- Ecl in *.
    assert (H0 : (startPos init_state <? len (clean_text o text))%Z = true)
      by (apply Z.ltb_lt; rewrite Ecl; unfold len; simpl; lia).
    destruct fuel as [|fuel]; cbn [chunk_loop] in Hl; rewrite H0 in Hl;
      [discriminate|].
    pose proof (first_step_inv o text Hc Hp ltac:(rewrite Ecl; discriminate)) as H1.
    pose proof (loop_inv o _ fuel _ st' Hc H1 Hl) as [A [B [C [D [E F]]]]].
    split; [exact A|]. split; [exact C|]. split; [exact D | exact E].
Qed.

Lemma msl_nonneg (seps : list jsstr) : (0 <= ChunkerMore.max_separator_length seps)%Z.
Proof. unfold ChunkerMore.max_separator_length. induction seps; simpl; lia. Qed.

Lemma find_split_range (t : jsstr) (s endPos : Z) (seps : list jsstr) (p : Z) :
  (s <= endPos)%Z -> find_split t s endPos seps = Some p ->
  (s <= p)%Z /\ (p <= endPos + ChunkerMore.max_separator_length seps)%Z.
Proof.
  intros Hs. induction seps as [|sep seps IH]; simpl; [discriminate|].
  set (searchStart := Z.max s (endPos - 200)).
  set (segment := substring t searchStart (Z.min (endPos + 100) (len t))).
  destruct (Z.eqb_spec (lastIndexOf segment sep (endPos - searchStart)) (-1))
    as [Hm|Hm]; simpl.
  - intros H. destruct (IH H) as [H1 H2]. split; [exact H1|].
    pose proof (max_separator_length_ge sep (sep :: seps) (or_introl eq_refl)).
    simpl. lia.
  - intros Hp. injection Hp as <-.
    destruct (lastIndexOf_bounds segment sep (endPos - searchStart) _
                ltac:(unfold searchStart; lia) eq_refl Hm) as [H0 [H1 _]].
    assert (Hl : (0 <= len sep)%Z) by (unfold len; lia).
    unfold ChunkerMore.max_separator_length. simpl.
    fold (ChunkerMore.max_separator_length seps).
    unfold searchStart in *. lia.
Qed.

Lemma cut_end_range (o : ResolvedOptions) (t : jsstr) (s : Z) :
  (0 <= opt_size o)%Z -> (s <= len t)%Z ->
  (s <= cut_end o t s)%Z /\
  (cut_end o t s <= s + opt_size o + ChunkerMore.max_separator_length (opt_separators o))%Z.
Proof.
  intros Hc Hs. pose proof (msl_nonneg (opt_separators o)).
  unfold cut_end; cbv zeta.
  destruct (Z.ltb_spec (Z.min (s + opt_size o) (len t)) (len t)); [|lia].
  destruct (find_split _ _ _ _) as [p|] eqn:E; [|lia].
  destruct (find_split_range t s (Z.min (s + opt_size o) (len t)) _ p ltac:(lia) E). lia.
Qed.

Lemma len_substring_le (t : jsstr) (a b k : Z) :
  (a <= b <= a + k)%Z -> (len (substring t a b) <= k)%Z.
Proof.
  intros H. unfold substring, len.
  rewrite length_firstn.
  set (n := List.length (skipn _ t)).
  set (x := Z.max (Z.min (Z.max a 0) (Z.of_nat (List.length t)))
                  (Z.min (Z.max b 0) (Z.of_nat (List.length t))) -
            Z.min (Z.min (Z.max a 0) (Z.of_nat (List.length t)))
                  (Z.min (Z.max b 0) (Z.of_nat (List.length t)))).
  assert (Hx : (0 <= x <= k)%Z) by (unfold x; lia).
  rewrite Nat2Z.inj_min, Z2Nat.id by lia. lia.
Qed.

(** Every chunk pushed, whatever the position it starts from, is at most
    [chunkSize] plus the longest separator long. *)
Definition short (o : ResolvedOptions) (c : TextChunk) : Prop :=
  (len (chunk_text c) <= opt_size o + ChunkerMore.max_separator_length (opt_separators o))%Z.

Lemma step_short (o : ResolvedOptions) (t : jsstr) (st : ChunkState) :
  (0 <= opt_size o)%Z -> (startPos st < len t)%Z ->
  Forall (short o) (chunks st) -> Forall (short o) (chunks (chunk_step o t st)).
Proof.
  intros Hc Hs Hall.
  destruct (cut_end_range o t (startPos st) Hc ltac:(lia)) as [H1 H2].
  unfold chunk_step.
  set (e := cut_end o t (startPos st)) in *.
  destruct (0 <? len (trim (substring t (startPos st) e)))%Z; cbn [chunks fst snd];
    [|exact Hall].
  apply Forall_app. split; [exact Hall|]. constructor; [|constructor].
  unfold short. cbn [chunk_text].
  eapply Z.le_trans; [apply len_trim_le|].
  apply len_substring_le. lia.
Qed.

Lemma loop_short (o : ResolvedOptions) (t : jsstr) (fuel : nat) (st st' : ChunkState) :
  (0 <= opt_size o)%Z -> Forall (short o) (chunks st) ->
  chunk_loop fuel o t st = Ret st' -> Forall (short o) (chunks st').
Proof.
  intros Hc. revert st. induction fuel as [|fuel IH]; intros st Hi; simpl;
    destruct (Z.ltb_spec (startPos st) (len t)) as [Hlt|Hge];
    try discriminate; try (intros H; injection H as <-; exact Hi).
  apply IH. exact (step_short o t st Hc Hlt Hi).
Qed.

Lemma chunkText_short (fuel : nat) (text : jsstr) (options : ChunkingOptions)
    (chunks0 : list TextChunk) :
  (0 <= opt_size (resolve options))%Z ->
  chunkText fuel text options = Ret chunks0 ->
  Forall (short (resolve options)) chunks0.
Proof.
  intros Hc. unfold chunkText.
  destruct (len _ =? 0)%Z.
  - intros H. injection H as <-. constructor.
  - intros H. apply IngestionFacts.bind_ret_inv in H as [st' [Hl Hr]].
    injection Hr as <-. exact (loop_short _ _ fuel init_state st' Hc (Forall_nil _) Hl).
Qed.

End ChunkBounds.

(** X16. A run of [chunkText] that returns, with [chunkSize >= 1] and whitespace
    normalized, numbers its chunks [0, 1, 2, ...] in order; their start
    positions strictly increase; and each chunk's text is the trimmed,
    non-empty slice of the cleaned text between its start and end, with
    [0 <= startPosition < endPosition <= cleanText.length], and an end at
    most [chunkSize] plus the longest separator past its start. *)
Theorem chunkText_chunks_wellformed (fuel : nat) (text : jsstr)
    (options : TextChunker.ChunkingOptions) (chunks0 : list TextChunker.TextChunk) :
  let o := TextChunker.resolve options in
  let t := TextChunker.clean_text o text in
  (1 <= TextChunker.opt_size o)%Z -> TextChunker.opt_preserve o = false ->
  TextChunker.chunkText fuel text options = Ret chunks0 ->
  (forall k c, nth_error chunks0 k = Some c -> TextChunker.index c = Z.of_nat k) /\
  Sorted Z.lt (map TextChunker.startPosition chunks0) /\
  Forall (fun c =>
    TextChunker.chunk_text c =
      trim (substring t (TextChunker.startPosition c) (TextChunker.endPosition c)) /\
    TextChunker.chunk_text c <> [] /\
    (0 <= TextChunker.startPosition c < TextChunker.endPosition c)%Z /\
    (TextChunker.endPosition c <= len t)%Z /\
    (TextChunker.endPosition c <= TextChunker.startPosition c + TextChunker.opt_size o
       + ChunkerMore.max_separator_length (TextChunker.opt_separators o))%Z) chunks0.
Proof.
  intros o t Hc Hp H.
  destruct (ChunkBounds.chunkText_inv fuel text options chunks0 Hc Hp H)
    as [[_ ->] | [_ [_ [Hi [Hok Hs]]]]].
  - split; [intros [|k] c Hk; discriminate|]. split; constructor.
  - split; [exact Hi|]. split; [exact Hs | exact Hok].
Qed.

Lemma chunkText_chunks_wellformed_witness :
  let options := TextChunker.mkChunkingOptions (Some 20%Z) (Some 5%Z) None None in
  let text := lit "Hello world. This is a test of the chunker, with some words." in
  let chunks0 := match TextChunker.chunkText 100 text options with
                 | Ret l => l | _ => [] end in
  let o := TextChunker.resolve options in
  let t := TextChunker.clean_text o text in
  (1 <= TextChunker.opt_size o)%Z /\ TextChunker.opt_preserve o = false /\
  TextChunker.chunkText 100 text options = Ret chunks0 /\
  ((forall k c, nth_error chunks0 k = Some c -> TextChunker.index c = Z.of_nat k) /\
   Sorted Z.lt (map TextChunker.startPosition chunks0) /\
   Forall (fun c =>
     TextChunker.chunk_text c =
       trim (substring t (TextChunker.startPosition c) (TextChunker.endPosition c)) /\
     TextChunker.chunk_text c <> [] /\
     (0 <= TextChunker.startPosition c < TextChunker.endPosition c)%Z /\
     (TextChunker.endPosition c <= len t)%Z /\
     (TextChunker.endPosition c <= TextChunker.startPosition c + TextChunker.opt_size o
        + ChunkerMore.max_separator_length (TextChunker.opt_separators o))%Z) chunks0).
Proof.
  intros options text chunks0 o t.
  assert (H1 : (1 <= TextChunker.opt_size o)%Z) by (vm_compute; discriminate).
  assert (H2 : TextChunker.opt_preserve o = false) by reflexivity.
  assert (H3 : TextChunker.chunkText 100 text options = Ret chunks0)
    by (vm_compute; reflexivity).
  split; [exact H1|]. split; [exact H2|]. split; [exact H3|].
  exact (chunkText_chunks_wellformed 100 text options chunks0 H1 H2 H3).
Defined.

(** X17. A run of [chunkText] that returns, with [chunkSize >= 1] and whitespace
    normalized, returns no chunk exactly when the cleaned text is empty:
    text with any non-whitespace character always gives a chunk. *)
Theorem chunkText_empty_iff (fuel : nat) (text : jsstr)
    (options : TextChunker.ChunkingOptions) (chunks0 : list TextChunker.TextChunk) :
  let o := TextChunker.resolve options in
  (1 <= TextChunker.opt_size o)%Z -> TextChunker.opt_preserve o = false ->
  TextChunker.chunkText fuel text options = Ret chunks0 ->
  (chunks0 = [] <-> TextChunker.clean_text o text = []).
Proof.
  intros o Hc Hp H.
  destruct (ChunkBounds.chunkText_inv fuel text options chunks0 Hc Hp H)
    as [[He ->] | [Hne [Hne' _]]]; tauto.
Qed.

Lemma chunkText_empty_iff_witness :
  let options := TextChunker.mkChunkingOptions None None None None in
  let text := [" "%char; TextChunker.TAB; "x"%char; TextChunker.NL] in
  (1 <= TextChunker.opt_size (TextChunker.resolve options))%Z /\
  TextChunker.opt_preserve (TextChunker.resolve options) = false /\
  TextChunker.chunkText 10 text options =
    Ret [TextChunker.mkChunk ["x"%char] 0 0 1] /\
  ([TextChunker.mkChunk ["x"%char] 0 0 1] = [] <->
   TextChunker.clean_text (TextChunker.resolve options) text = []).
Proof.
  intros options text.
  assert (H1 : (1 <= TextChunker.opt_size (TextChunker.resolve options))%Z)
    by (vm_compute; discriminate).
  assert (H2 : TextChunker.opt_preserve (TextChunker.resolve options) = false)
    by reflexivity.
  assert (H3 : TextChunker.chunkText 10 text options =
               Ret [TextChunker.mkChunk ["x"%char] 0 0 1]) by (vm_compute; reflexivity).
  split; [exact H1|]. split; [exact H2|]. split; [exact H3|].
  exact (chunkText_empty_iff 10 text options _ H1 H2 H3).
Defined.

(** X18. [chunkByTokenLimit(text, maxTokens)] with [maxTokens >= 1]: every
    chunk of a run that returns has an [estimateTokenCount] of at most
    [maxTokens + ceil(L / 4)], [L] the length of the longest separator
    (with the default separators, [L = 2]: at most [maxTokens + 1]). The
    bound is reached: with the default options and [maxTokens = 1],
    ["abcd. efgh"] gives the chunk ["abcd."] of 2 tokens. *)
Theorem chunkByTokenLimit_token_bound :
  (forall (fuel : nat) (text : jsstr) (maxTokens : Z)
     (options : TextChunker.ChunkingOptions) (chunks0 : list TextChunker.TextChunk),
   (1 <= maxTokens)%Z ->
   ChunkerMore.chunkByTokenLimit fuel text maxTokens options = Ret chunks0 ->
   Forall (fun c =>
     (ChunkerMore.estimateTokenCount (TextChunker.chunk_text c) <=
      maxTokens + (ChunkerMore.max_separator_length
                     (TextChunker.opt_separators (TextChunker.resolve options)) + 3) / 4)%Z)
     chunks0) /\
  (exists chunks0 c,
     ChunkerMore.chunkByTokenLimit 10 (lit "abcd. efgh") 1
       (TextChunker.mkChunkingOptions None None None None) = Ret chunks0 /\
     In c chunks0 /\
     TextChunker.chunk_text c = lit "abcd." /\
     ChunkerMore.estimateTokenCount (TextChunker.chunk_text c) = 2%Z).
Proof.
  split.
  - intros fuel text maxTokens options chunks0 HT H.
    unfold ChunkerMore.chunkByTokenLimit in H.
    apply ChunkBounds.chunkText_short in H; [|simpl; lia].
    eapply Forall_impl; [|exact H]. unfold ChunkBounds.short. intros c Hl.
    change (TextChunker.opt_size (TextChunker.resolve _)) with (maxTokens * 4)%Z in Hl.
    change (TextChunker.opt_separators (TextChunker.resolve (TextChunker.mkChunkingOptions _ _ (TextChunker.separators options) _)))
      with (TextChunker.opt_separators (TextChunker.resolve options)) in Hl.
    set (M := ChunkerMore.max_separator_length
                (TextChunker.opt_separators (TextChunker.resolve options))) in *.
    unfold ChunkerMore.estimateTokenCount.
    assert (Hd : ((maxTokens * 4 + (M + 3)) / 4 = maxTokens + (M + 3) / 4)%Z)
      by (rewrite Z.add_comm, Z.div_add by lia; lia).
    rewrite <- Hd. apply Z.div_le_mono; lia.
  - eexists. eexists. split; [vm_compute; reflexivity|].
    split; [left; reflexivity|]. split; vm_compute; reflexivity.
Qed.

(** The bound on a run over a sentence with [maxTokens = 4] and
    [chunkOverlap = 2]. *)
Lemma chunkByTokenLimit_token_bound_witness :
  let options := TextChunker.mkChunkingOptions None (Some 2%Z) None None in
  let text := lit "Hello world. This is a test of the chunker, with some words." in
  let chunks0 := match ChunkerMore.chunkByTokenLimit 100 text 4 options with
                 | Ret l => l | _ => [] end in
  (1 <= 4)%Z /\
  ChunkerMore.chunkByTokenLimit 100 text 4 options = Ret chunks0 /\
  Forall (fun c =>
    (ChunkerMore.estimateTokenCount (TextChunker.chunk_text c) <=
     4 + (ChunkerMore.max_separator_length
            (TextChunker.opt_separators (TextChunker.resolve options)) + 3) / 4)%Z)
    chunks0.
Proof.
  intros options text chunks0.
  assert (H1 : (1 <= 4)%Z) by lia.
  assert (H2 : ChunkerMore.chunkByTokenLimit 100 text 4 options = Ret chunks0)
    by (vm_compute; reflexivity).
  split; [exact H1|]. split; [exact H2|].
  exact (proj1 chunkByTokenLimit_token_bound 100%nat text 4 options chunks0 H1 H2).
Defined.
Module InsertFacts.

Import BrandVoiceIngestion IngestionFacts.

Section Sql.

Variable sqlInsert : list InsertRow -> Outcome unit.

Lemma insert_batches_ret (n : nat) (rest : list InsertRow) (total m : Z) :
  insert_batches sqlInsert n rest total = Ret m -> m = total + len rest.
Proof.
  revert rest total. induction n as [|n IH]; intros rest total H.
  - destruct rest; simpl in H; [injection H as <-; unfold len; simpl; lia | discriminate].
  - destruct rest as [|x rest']; cbn [insert_batches] in H.
    + injection H as <-. unfold len. simpl. lia.
    + apply bind_ret_inv in H as (u & _ & H).
      apply IH in H. rewrite H. unfold len.
      rewrite <- Z.add_assoc, <- Nat2Z.inj_add, <- length_app, firstn_skipn. lia.
Qed.

Lemma insert_batches_all_ok (n : nat) (rest : list InsertRow) (total : Z) :
  (forall b, sqlInsert b = Ret tt) -> (List.length rest <= n)%nat ->
  insert_batches sqlInsert n rest total = Ret (total + len rest).
Proof.
  intros Hok. revert rest total. induction n as [|n IH]; intros rest total Hn.
  - destruct rest; simpl in Hn; [|lia]. simpl. f_equal. unfold len. simpl. lia.
  - destruct rest as [|x rest']; cbn [insert_batches].
    + f_equal. unfold len. simpl. lia.
    + rewrite Hok. cbn [bind]. rewrite IH.
      * f_equal. unfold len.
        rewrite <- Z.add_assoc, <- Nat2Z.inj_add, <- length_app, firstn_skipn. lia.
      * rewrite length_skipn. simpl in Hn |- *. lia.
Qed.

Lemma insert_batches_throw (n : nat) (rest : list InsertRow) (total : Z) (e : JsError) :
  insert_batches sqlInsert n rest total = Throw e ->
  exists k, firstn 50 (skipn (50 * k) rest) <> [] /\
            sqlInsert (firstn 50 (skipn (50 * k) rest)) = Throw e.
Proof.
  revert rest total. induction n as [|n IH]; intros rest total H.
  - destruct rest; discriminate.
  - destruct rest as [|x rest']; [discriminate|]. simpl in H.
    apply bind_throw_inv in H as [H | (u & _ & H)].
    + exists 0%nat. simpl. split; [discriminate | exact H].
    + apply IH in H as (k & Hne & Hk). exists (S k).
      replace (50 * S k)%nat with (50 * k + 50)%nat by lia.
      rewrite <- skipn_skipn. split; assumption.
Qed.

Lemma bulkInsert_ret (rows : list InsertRow) (m : Z) :
  bulkInsertBrandVoiceEmbeddings sqlInsert rows = Ret m -> m = len rows.
Proof.
  unfold bulkInsertBrandVoiceEmbeddings. destruct rows as [|x rows'].
  - intros H. injection H as <-. reflexivity.
  - intros H. apply insert_batches_ret in H. lia.
Qed.

End Sql.

End InsertFacts.

Module IngestMore.

Import Embeddings BrandVoiceIngestion IngestionFacts.

(** The bounds a successful document result satisfies. *)
Definition success_ok (r : IngestionResult) : Prop :=
  errors r = [] /\ 0 <= characters (stats r) /\
  0 <= embeddings_stored (stats r) <= chunk_count (stats r).

Definition sum_stats (rs : list IngestionResult) (acc : Stats) : Stats :=
  fold_left (fun acc r => add_stats acc (stats r)) rs acc.

Lemma add_stats_zero (a : Stats) : add_stats a zero_stats = a.
Proof. destruct a. unfold add_stats, zero_stats. simpl. f_equal; lia. Qed.

Lemma sum_stats_filter (rs : list IngestionResult) (acc : Stats) :
  Forall (fun r => success r = false -> stats r = zero_stats /\ errors r <> []) rs ->
  sum_stats rs acc = sum_stats (filter success rs) acc.
Proof.
  revert acc. induction rs as [|r rs IH]; intros acc Hf; [reflexivity|].
  inversion Hf as [|? ? Hr Hrs]; subst. simpl.
  destruct (success r) eqn:Es.
  - apply IH. exact Hrs.
  - destruct (Hr eq_refl) as [Hz _]. rewrite Hz, add_stats_zero. apply IH. exact Hrs.
Qed.

Lemma sum_stats_bounds (rs : list IngestionResult) (acc : Stats) :
  Forall success_ok rs ->
  0 <= characters acc -> 0 <= embeddings_stored acc <= chunk_count acc ->
  0 <= characters (sum_stats rs acc) /\
  0 <= embeddings_stored (sum_stats rs acc) <= chunk_count (sum_stats rs acc).
Proof.
  revert acc. induction rs as [|r rs IH]; intros acc Hf Hc He; [simpl; auto|].
  inversion Hf as [|? ? Hr Hrs]; subst. destruct Hr as (_ & Hrc & Hre).
  apply IH; [exact Hrs | | ]; destruct acc; simpl in *; lia.
Qed.

Lemma forall_filter_success (P : IngestionResult -> Prop) (rs : list IngestionResult) :
  Forall (fun r => success r = true -> P r) rs -> Forall P (filter success rs).
Proof.
  induction rs as [|r rs IH]; intros Hf; [constructor|].
  inversion Hf as [|? ? Hr Hrs]; subst. simpl.
  destruct (success r) eqn:Es; [constructor; auto | auto].
Qed.

Section Env.

Variable fileExists : jsstr -> bool.
Variable deleteByFile : jsstr -> Outcome Z.
Variable parsePDF : jsstr -> Outcome PDFContent.
Variable readdir : jsstr -> Outcome (list jsstr).
Variable embeddings_create : list jsstr -> Outcome (list Vec.vector * Z).
Variable apiKeySet : bool.
Variable sqlInsert : list InsertRow -> Outcome unit.
Variable fuel : nat.

Lemma ingest_body_bounds (filePath : jsstr) (options : IngestionOptions)
    (r : IngestionResult) :
  ingest_body fileExists deleteByFile parsePDF embeddings_create apiKeySet
    sqlInsert fuel filePath options = Ret r ->
  success_ok r.
Proof.
  unfold ingest_body. intros H.
  apply bind_ret_inv in H as (u1 & _ & H).
  apply bind_ret_inv in H as (u2 & _ & H).
  apply bind_ret_inv in H as (pdf & _ & H).
  apply bind_ret_inv in H as (chunks0 & _ & H).
  apply bind_ret_inv in H as (er & _ & H).
  apply bind_ret_inv in H as (u3 & Hchk & H).
  cbv zeta in H.
  apply bind_ret_inv in H as (stored & Hst & H).
  injection H as <-.
  apply InsertFacts.bulkInsert_ret in Hst.
  destruct (Nat.ltb_spec (List.length chunks0) (List.length (embeddings er)));
    [discriminate|].
  unfold success_ok, len in *. simpl. rewrite Hst, length_map.
  split; [reflexivity|]. lia.
Qed.

Lemma ingestDocument_bounds (filePath : jsstr) (options : IngestionOptions)
    (r : IngestionResult) :
  ingestDocument fileExists deleteByFile parsePDF embeddings_create apiKeySet
    sqlInsert fuel filePath options = Ret r ->
  success r = true -> success_ok r.
Proof.
  unfold ingestDocument.
  destruct (ingest_body _ _ _ _ _ _ _ filePath options) as [r0| e |] eqn:E;
    intros H; try discriminate; injection H as <-.
  - intros _. exact (ingest_body_bounds _ _ _ E).
  - simpl. discriminate.
Qed.

Lemma ingest_each_bounds (dir : jsstr) (options : PartialOptions)
    (pdfs : list (jsstr * PDFContent)) (rs : list IngestionResult) :
  ingest_each fileExists deleteByFile parsePDF embeddings_create apiKeySet
    sqlInsert fuel dir options pdfs = Ret rs ->
  Forall (fun r => success r = true -> success_ok r) rs.
Proof.
  revert rs. induction pdfs as [|[f c] rest IH]; simpl; intros rs H.
  - injection H as <-. constructor.
  - apply bind_ret_inv in H as (r & Hr & H).
    apply bind_ret_inv in H as (rs' & Hrs & H). injection H as <-.
    constructor; [exact (ingestDocument_bounds _ _ _ Hr) | exact (IH _ Hrs)].
Qed.

End Env.

End IngestMore.

(** X19. [bulkInsertBrandVoiceEmbeddings] returns the number of rows when it
    returns; it returns it whenever every [INSERT] succeeds; and when it
    throws, the error is that of the [INSERT] of a non-empty batch
    [rows.slice(50 k, 50 k + 50)]. *)
Theorem bulkInsert_count_and_errors (sqlInsert : list BrandVoiceIngestion.InsertRow -> Outcome unit)
    (rows : list BrandVoiceIngestion.InsertRow) :
  (forall m, BrandVoiceIngestion.bulkInsertBrandVoiceEmbeddings sqlInsert rows = Ret m ->
             m = len rows) /\
  ((forall b, sqlInsert b = Ret tt) ->
   BrandVoiceIngestion.bulkInsertBrandVoiceEmbeddings sqlInsert rows = Ret (len rows)) /\
  (forall e, BrandVoiceIngestion.bulkInsertBrandVoiceEmbeddings sqlInsert rows = Throw e ->
   exists k, firstn 50 (skipn (50 * k) rows) <> [] /\
             sqlInsert (firstn 50 (skipn (50 * k) rows)) = Throw e).
Proof.
  unfold BrandVoiceIngestion.bulkInsertBrandVoiceEmbeddings.
  destruct rows as [|x rows'].
  - split; [intros m H; injection H as <-; reflexivity|].
    split; [reflexivity | intros e H; discriminate].
  - split; [intros m H; apply InsertFacts.insert_batches_ret in H; lia|].
    split.
    + intros Hok. rewrite InsertFacts.insert_batches_all_ok by (auto; lia). f_equal.
    + intros e H. exact (InsertFacts.insert_batches_throw _ _ _ _ _ H).
Qed.

Module TopKFacts.

Import BrandVoiceQueries SearchFacts.

Local Open Scope R_scope.

Lemma insert_sorted_perm (x : Scored) (l : list Scored) :
  Permutation (insert_sorted x l) (x :: l).
Proof.
  induction l as [|y l IH]; simpl; [reflexivity|].
  destruct (Rle_dec (compare x y) 0); [reflexivity|].
  rewrite IH. apply perm_swap.
Qed.

Lemma sort_perm (l : list Scored) : Permutation (sort l) l.
Proof.
  induction l as [|x l IH]; simpl; [reflexivity|].
  rewrite insert_sorted_perm, IH. reflexivity.
Qed.

Lemma desc_trans : Relations_1.Transitive desc.
Proof. intros a b c H1 H2. unfold desc in *. lra. Qed.

End TopKFacts.

Module PromptFacts.

Import BrandVoiceRag TextChunker PromptFormat.

Lemma join_with_infix (sep : jsstr) (l : list jsstr) (i : nat) (x : jsstr) :
  nth_error l i = Some x -> exists pre post, join_with sep l = pre ++ x ++ post.
Proof.
  revert i. induction l as [|y l IH]; intros i H; [destruct i; discriminate|].
  destruct i as [|i]; simpl in H.
  - injection H as <-. destruct l as [|z l].
    + exists [], []. simpl. rewrite app_nil_r. reflexivity.
    + exists [], (sep ++ join_with sep (z :: l)). reflexivity.
  - destruct (IH i H) as (pre & post & E). destruct l as [|z l]; [destruct i; discriminate|].
    exists (y ++ sep ++ pre), post.
    change (join_with sep (y :: z :: l)) with (y ++ sep ++ join_with sep (z :: l)).
    rewrite E. rewrite <- !app_assoc. reflexivity.
Qed.

Lemma nth_sections_from (k i : nat) (cs : list PromptContext) (pc : PromptContext) :
  nth_error cs i = Some pc -> nth_error (sections_from k cs) i = Some (format_section (k + i) pc).
Proof.
  revert k i. induction cs as [|c cs IH]; intros k i H; [destruct i; discriminate|].
  destruct i as [|i]; simpl in H |- *.
  - injection H as <-. rewrite Nat.add_0_r. reflexivity.
  - rewrite (IH (S k) i H). do 2 f_equal. lia.
Qed.

Lemma format_section_prefix (i : nat) (pc : PromptContext) :
  exists tail, format_section i pc =
    HEADER (S i) ++ from_part (p_context pc) ++ NL :: ctx_text (p_context pc) ++ tail.
Proof.
  unfold format_section. rewrite Nat.add_1_r.
  destruct (p_section pc) as [[|a s]|].
  - exists []. rewrite app_nil_r, <- !app_assoc. reflexivity.
  - exists (NL :: lit "Section: " ++ a :: s).
    rewrite <- !app_assoc. simpl. rewrite <- !app_assoc. reflexivity.
  - exists []. rewrite app_nil_r, <- !app_assoc. reflexivity.
Qed.

End PromptFacts.

Module InsertRoundTrip.

Import StoreMore StoreInsert.

Lemma source_eqb_refl (s : BrandVoiceSource) : source_eqb s s = true.
Proof. destruct s; reflexivity. Qed.

Lemma jsstr_eqb_true (a b : jsstr) : jsstr_eqb a b = true <-> a = b.
Proof.
  split; [apply GroupFacts.jsstr_eqb_spec|]. intros <-.
  destruct (jsstr_eqb a a) eqn:E; [reflexivity|].
  exfalso. pose proof (GroupFacts.jsstr_eqb_spec a a) as H.
  rewrite E in H. discriminate (proj2 H eq_refl).
Qed.

Lemma newest_first_head (old : list BrandVoiceEmbedding) (row : BrandVoiceEmbedding)
    (result : list BrandVoiceEmbedding) :
  Forall (fun r => created_at r < created_at row) old ->
  newest_first (old ++ [row]) result ->
  exists rest, result = row :: rest /\ newest_first old rest.
Proof.
  intros Hold [Hp Hs].
  assert (Hp' : Permutation result (row :: old))
    by (rewrite Hp; symmetry; apply Permutation_cons_append).
  destruct result as [|h rest]; [apply Permutation_nil in Hp'; discriminate|].
  assert (Htr : Relations_1.Transitive (fun a b : BrandVoiceEmbedding => created_at b <= created_at a))
    by (intros a b c H1 H2; lia).
  pose proof (Sorted_StronglySorted Htr Hs) as Hss.
  apply StronglySorted_inv in Hss as [_ Hall].
  assert (Hh : h = row).
  { destruct (Permutation_in h Hp' (or_introl eq_refl)) as [E|Hin]; [congruence|].
    exfalso. rewrite Forall_forall in Hold.
    assert (Hrow : In row rest).
    { pose proof (Permutation_in row (Permutation_sym Hp') (or_introl eq_refl)) as Hr.
      destruct Hr as [E|Hr]; [|exact Hr].
      subst h. specialize (Hold row Hin). lia. }
    rewrite Forall_forall in Hall. specialize (Hall row Hrow). specialize (Hold h Hin). lia. }
  subst h. exists rest. split; [reflexivity|]. split.
  - exact (Permutation_cons_inv Hp').
  - exact (proj1 (Sorted_inv Hs)).
Qed.

End InsertRoundTrip.

(** X20. A successful [ingestDocument] result carries no error, a
    non-negative character count, and at most as many stored embeddings as
    chunks (the [metadata] lookup throws past the last chunk, and
    [bulkInsertBrandVoiceEmbeddings] returns the number of rows). *)
Theorem ingestDocument_success_bounds fileExists deleteByFile parsePDF
    embeddings_create apiKeySet sqlInsert fuel
    (filePath : jsstr) (options : BrandVoiceIngestion.IngestionOptions) r :
  BrandVoiceIngestion.ingestDocument fileExists deleteByFile parsePDF
    embeddings_create apiKeySet sqlInsert fuel filePath options = Ret r ->
  BrandVoiceIngestion.success r = true ->
  BrandVoiceIngestion.errors r = [] /\
  0 <= BrandVoiceIngestion.characters (BrandVoiceIngestion.stats r) /\
  0 <= BrandVoiceIngestion.embeddings_stored (BrandVoiceIngestion.stats r)
    <= BrandVoiceIngestion.chunk_count (BrandVoiceIngestion.stats r).
Proof. exact (IngestMore.ingestDocument_bounds _ _ _ _ _ _ _ filePath options r). Qed.

(** X21. The [totalStats] of [ingestAllDocuments] is the sum of the stats of
    the successful results only (a failed one counts zero), and its number
    of stored embeddings lies between zero and its number of chunks. *)
Theorem ingestAll_totalStats fileExists deleteByFile parsePDF readdir
    embeddings_create apiKeySet sqlInsert fuel (dir : jsstr)
    (options : BrandVoiceIngestion.PartialOptions) out :
  BrandVoiceIngestion.ingestAllDocuments fileExists deleteByFile parsePDF readdir
    embeddings_create apiKeySet sqlInsert fuel dir options = Ret out ->
  BrandVoiceIngestion.totalStats out =
    IngestMore.sum_stats (filter BrandVoiceIngestion.success (BrandVoiceIngestion.results out))
      BrandVoiceIngestion.zero_stats /\
  0 <= BrandVoiceIngestion.characters (BrandVoiceIngestion.totalStats out) /\
  0 <= BrandVoiceIngestion.embeddings_stored (BrandVoiceIngestion.totalStats out)
    <= BrandVoiceIngestion.chunk_count (BrandVoiceIngestion.totalStats out).
Proof.
  unfold BrandVoiceIngestion.ingestAllDocuments. intros H.
  apply IngestionFacts.bind_ret_inv in H as (pdfs & Hp & H).
  destruct pdfs as [|p ps].
  - injection H as <-. simpl. split; [reflexivity | lia].
  - apply IngestionFacts.bind_ret_inv in H as (rs & Hrs & H). injection H as <-.
    cbn [BrandVoiceIngestion.totalStats BrandVoiceIngestion.results].
    destruct (IngestionFacts.ingest_each_results _ _ _ _ _ _ _ _ _ _ _ Hrs)
      as (_ & _ & Hfail).
    pose proof (IngestMore.ingest_each_bounds _ _ _ _ _ _ _ _ _ _ _ Hrs) as Hok.
    change (fold_left _ rs BrandVoiceIngestion.zero_stats) with
      (IngestMore.sum_stats rs BrandVoiceIngestion.zero_stats).
    rewrite (IngestMore.sum_stats_filter _ _ Hfail).
    split; [reflexivity|].
    apply IngestMore.sum_stats_bounds; [| simpl; lia | simpl; lia].
    apply IngestMore.forall_filter_success. exact Hok.
Qed.

(** X22. [readPDFsFromDirectory] rethrows a [readdir] error where
    [listPDFFiles] logs it and returns [[]]; when it returns, its entries
    are, in order, exactly the files [listPDFFiles] lists whose [readPDF]
    succeeds, each paired with the content [readPDF] gave. *)
Theorem readPDFs_vs_listPDFFiles (parsePDF : jsstr -> Outcome BrandVoiceIngestion.PDFContent)
    (readdir : jsstr -> Outcome (list jsstr)) (dir : jsstr) :
  (forall e, readdir dir = Throw e ->
     BrandVoiceIngestion.readPDFsFromDirectory parsePDF readdir dir = Throw e /\
     PdfReaderMore.listPDFFiles readdir dir = Ret []) /\
  (forall pdfs, BrandVoiceIngestion.readPDFsFromDirectory parsePDF readdir dir = Ret pdfs ->
     exists files, PdfReaderMore.listPDFFiles readdir dir = Ret files /\
       map fst pdfs = filter (PdfListFacts.reads_ok parsePDF dir) files /\
       Forall (fun p => BrandVoiceIngestion.readPDF parsePDF
                          (BrandVoiceIngestion.join dir (fst p)) = Ret (snd p)) pdfs).
Proof.
  unfold BrandVoiceIngestion.readPDFsFromDirectory, PdfReaderMore.listPDFFiles.
  split.
  - intros e He. rewrite He. split; reflexivity.
  - intros pdfs H. destruct (readdir dir) as [files| e |]; try discriminate.
    simpl in H. eexists. split; [reflexivity|].
    exact (PdfListFacts.read_pdfs_ret _ _ _ _ H).
Qed.

(** X23. With a non-negative [limit], [findSimilarBrandVoice] returns the
    [min(limit, n)] best of the [n] candidates that pass the threshold:
    together with the candidates it leaves out it is a rearrangement of
    them, and no candidate left out is more similar than one returned. *)
Theorem findSimilar_top_limit (table : list BrandVoiceEmbedding) (q : Vec.vector)
    (limit : Z) (minSimilarity : R) (src : option BrandVoiceSource) :
  0 <= limit ->
  let kept := BrandVoiceQueries.kept_candidates table q minSimilarity src in
  let res := BrandVoiceQueries.findSimilarBrandVoice table q limit minSimilarity src in
  List.length res = Nat.min (Z.to_nat limit) (List.length kept) /\
  exists rest, Permutation (res ++ rest) kept /\
    forall x y, In x rest -> In y res -> (similarity x <= similarity y)%R.
Proof.
  intros Hl kept res.
  subst res. unfold BrandVoiceQueries.findSimilarBrandVoice. fold kept.
  rewrite (SearchFacts.slice_from_zero _ _ Hl).
  split.
  - rewrite length_firstn, (Permutation_length (TopKFacts.sort_perm kept)). reflexivity.
  - exists (skipn (Z.to_nat limit) (BrandVoiceQueries.sort kept)).
    rewrite firstn_skipn. split; [apply TopKFacts.sort_perm|].
    intros x y Hx Hy.
    pose proof (Sorted_StronglySorted TopKFacts.desc_trans (SearchFacts.sort_sorted kept)) as Hs.
    rewrite <- (firstn_skipn (Z.to_nat limit) (BrandVoiceQueries.sort kept)) in Hs.
    exact (RankFacts.strongly_sorted_app _ _ _ y x Hs Hy Hx).
Qed.

(** Witness: the PDFs of [mixed_dir], the last of which has gone missing
    by the time it is ingested. *)
Lemma ingestAll_totalStats_witness :
  let run := BrandVoiceIngestion.ingestAllDocuments Scenarios.missing_notes
    Scenarios.delete_none Scenarios.parse_ok Scenarios.mixed_dir Scenarios.embed_ok true
    Scenarios.insert_ok 100 (lit "docs") Scenarios.no_options in
  let out0 := match run with
              | Ret o => o
              | _ => BrandVoiceIngestion.mkDirectoryResult true [] BrandVoiceIngestion.zero_stats
              end in
  run = Ret out0 /\
  BrandVoiceIngestion.all_success out0 = false /\
  BrandVoiceIngestion.totalStats out0 = BrandVoiceIngestion.mkStats 2 44 2 2 14 /\
  (BrandVoiceIngestion.totalStats out0 =
    IngestMore.sum_stats (filter BrandVoiceIngestion.success (BrandVoiceIngestion.results out0))
      BrandVoiceIngestion.zero_stats /\
  0 <= BrandVoiceIngestion.characters (BrandVoiceIngestion.totalStats out0) /\
  0 <= BrandVoiceIngestion.embeddings_stored (BrandVoiceIngestion.totalStats out0)
    <= BrandVoiceIngestion.chunk_count (BrandVoiceIngestion.totalStats out0)).
Proof.
  intros run out0.
  assert (H : run = Ret out0) by (vm_compute; reflexivity).
  split; [exact H|]. split; [vm_compute; reflexivity|]. split; [vm_compute; reflexivity|].
  exact (ingestAll_totalStats _ _ _ _ _ _ _ _ _ _ _ H).
Defined.

(** Witness: one PDF ingested in full. *)
Lemma ingestDocument_success_bounds_witness :
  BrandVoiceIngestion.ingestDocument Scenarios.all_exist Scenarios.delete_none
    Scenarios.parse_ok Scenarios.embed_ok true Scenarios.insert_ok 100
    (lit "docs/style.pdf")
    (BrandVoiceIngestion.mkIngestionOptions None None style_guide None) =
    Ret (Scenarios.ingested "style.pdf" style_guide) /\
  BrandVoiceIngestion.success (Scenarios.ingested "style.pdf" style_guide) = true /\
  (BrandVoiceIngestion.errors (Scenarios.ingested "style.pdf" style_guide) = [] /\
   0 <= BrandVoiceIngestion.characters
          (BrandVoiceIngestion.stats (Scenarios.ingested "style.pdf" style_guide)) /\
   0 <= BrandVoiceIngestion.embeddings_stored
          (BrandVoiceIngestion.stats (Scenarios.ingested "style.pdf" style_guide))
     <= BrandVoiceIngestion.chunk_count
          (BrandVoiceIngestion.stats (Scenarios.ingested "style.pdf" style_guide))).
Proof.
  assert (H1 : BrandVoiceIngestion.ingestDocument Scenarios.all_exist Scenarios.delete_none
    Scenarios.parse_ok Scenarios.embed_ok true Scenarios.insert_ok 100
    (lit "docs/style.pdf")
    (BrandVoiceIngestion.mkIngestionOptions None None style_guide None) =
    Ret (Scenarios.ingested "style.pdf" style_guide)) by (vm_compute; reflexivity).
  assert (H2 : BrandVoiceIngestion.success (Scenarios.ingested "style.pdf" style_guide) = true)
    by reflexivity.
  split; [exact H1|]. split; [exact H2|].
  exact (ingestDocument_success_bounds _ _ _ _ _ _ _ _ _ _ H1 H2).
Defined.

(** Witness: the best one of three equally similar rows. *)
Lemma findSimilar_top_limit_witness :
  0 <= 1 /\
  let kept := BrandVoiceQueries.kept_candidates
                [Scenarios.row_old; Scenarios.row_style; Scenarios.row_new] [1%R] 0.5%R None in
  let res := BrandVoiceQueries.findSimilarBrandVoice
               [Scenarios.row_old; Scenarios.row_style; Scenarios.row_new] [1%R] 1 0.5%R None in
  List.length res = Nat.min (Z.to_nat 1) (List.length kept) /\
  exists rest, Permutation (res ++ rest) kept /\
    forall x y, In x rest -> In y res -> (similarity x <= similarity y)%R.
Proof.
  split; [lia|].
  apply (findSimilar_top_limit [Scenarios.row_old; Scenarios.row_style; Scenarios.row_new]
           [1%R] 1 0.5%R None). lia.
Defined.

(** X24. [formatBrandVoiceForPrompt] returns the fallback sentence for no
    contexts; otherwise the [i]-th context (from 0) appears as the header
    [[Brand Voice Reference i+1]], its [(from file)] note when the file name
    is non-empty, a newline and its text, and the output starts with the
    first header. *)
Theorem formatBrandVoiceForPrompt_sections :
  PromptFormat.formatBrandVoiceForPrompt [] = PromptFormat.NO_GUIDELINES /\
  (forall pc rest, exists post,
     PromptFormat.formatBrandVoiceForPrompt (pc :: rest) = PromptFormat.HEADER 1 ++ post) /\
  (forall contexts i pc, nth_error contexts i = Some pc ->
     exists pre post, PromptFormat.formatBrandVoiceForPrompt contexts =
       pre ++ PromptFormat.HEADER (S i) ++ PromptFormat.from_part (PromptFormat.p_context pc)
           ++ TextChunker.NL :: BrandVoiceRag.ctx_text (PromptFormat.p_context pc) ++ post).
Proof.
  split; [reflexivity|]. split.
  - intros pc rest. destruct (PromptFacts.format_section_prefix 0 pc) as (tail & E).
    unfold PromptFormat.formatBrandVoiceForPrompt. cbn [PromptFormat.sections_from].
    destruct (PromptFormat.sections_from 1 rest) as [|s ss].
    + cbn [PromptFormat.join_with]. rewrite E. eexists. reflexivity.
    + change (PromptFormat.join_with PromptFormat.SECTION_SEP
                (PromptFormat.format_section 0 pc :: s :: ss))
        with (PromptFormat.format_section 0 pc ++ PromptFormat.SECTION_SEP ++
              PromptFormat.join_with PromptFormat.SECTION_SEP (s :: ss)).
      rewrite E, <- app_assoc. eexists. reflexivity.
  - intros contexts i pc H.
    destruct contexts as [|c cs]; [destruct i; discriminate|].
    unfold PromptFormat.formatBrandVoiceForPrompt.
    pose proof (PromptFacts.nth_sections_from 0 i (c :: cs) pc H) as Hn.
    destruct (PromptFacts.join_with_infix PromptFormat.SECTION_SEP _ _ _ Hn) as (pre & post & E).
    destruct (PromptFacts.format_section_prefix (0 + i) pc) as (tail & E2).
    rewrite E, E2. exists pre, (tail ++ post). simpl Nat.add.
    rewrite <- !app_assoc. simpl. rewrite <- !app_assoc. reflexivity.
Qed.

(** X25. [insertBrandVoiceEmbedding] adds one row to the total of
    [getBrandVoiceStats]; [deleteBrandVoiceEmbeddingsByFile(f)] then
    deletes one more row exactly when the inserted [source_file] was [f]
    and [f] is non-empty: an empty file name is stored as [NULL] and no
    delete by file ever removes that row. *)
Theorem insert_then_delete_by_file (table : list BrandVoiceEmbedding) (newId : jsstr)
    (now : Z) (data : StoreInsert.InsertData) :
  StoreMore.total (StoreMore.getBrandVoiceStats
    (fst (StoreInsert.insertBrandVoiceEmbedding table newId now data))) =
    StoreMore.total (StoreMore.getBrandVoiceStats table) + 1 /\
  forall f,
    snd (StoreMore.deleteBrandVoiceEmbeddingsByFile
           (fst (StoreInsert.insertBrandVoiceEmbedding table newId now data)) f) =
    snd (StoreMore.deleteBrandVoiceEmbeddingsByFile table f) +
    (if StoreMore.file_matches f (snd (StoreInsert.insertBrandVoiceEmbedding table newId now data))
     then 1 else 0) /\
    (StoreMore.file_matches f (snd (StoreInsert.insertBrandVoiceEmbedding table newId now data)) = true
     <-> StoreInsert.data_source_file data = Some f /\ f <> []).
Proof.
  unfold StoreInsert.insertBrandVoiceEmbedding. cbn [fst snd].
  split.
  - unfold StoreMore.getBrandVoiceStats. cbn [StoreMore.total]. unfold len.
    rewrite length_app. simpl. lia.
  - intros f. unfold StoreMore.deleteBrandVoiceEmbeddingsByFile. cbn [snd].
    rewrite filter_app. unfold len. rewrite length_app. simpl filter at 2. split.
    + destruct (StoreMore.file_matches f _); simpl; lia.
    + unfold StoreMore.file_matches. cbn [source_file].
      destruct (StoreInsert.data_source_file data) as [[|a g]|].
      * split; [discriminate | intros [E Hne]; injection E as <-; congruence].
      * rewrite InsertRoundTrip.jsstr_eqb_true. split.
        -- intros <-. split; [reflexivity | discriminate].
        -- intros [E _]. injection E as <-. reflexivity.
      * split; [discriminate | intros [E _]; discriminate].
Qed.

(** X26. After [insertBrandVoiceEmbedding] with a timestamp newer than every
    stored row, any result [getBrandVoiceEmbeddingsBySource] may return for
    the inserted source is the returned row followed by a result it could
    have returned before the insert. *)
Theorem getBySource_after_insert (table : list BrandVoiceEmbedding) (newId : jsstr)
    (now : Z) (data : StoreInsert.InsertData) (result : list BrandVoiceEmbedding) :
  Forall (fun r => created_at r < now) table ->
  StoreInsert.getBrandVoiceEmbeddingsBySource
    (fst (StoreInsert.insertBrandVoiceEmbedding table newId now data))
    (StoreInsert.data_source data) result ->
  exists rest,
    result = snd (StoreInsert.insertBrandVoiceEmbedding table newId now data) :: rest /\
    StoreInsert.getBrandVoiceEmbeddingsBySource table (StoreInsert.data_source data) rest.
Proof.
  unfold StoreInsert.getBrandVoiceEmbeddingsBySource, StoreInsert.insertBrandVoiceEmbedding.
  cbn [fst snd]. intros Hold H.
  rewrite filter_app in H. simpl filter in H.
  rewrite InsertRoundTrip.source_eqb_refl in H.
  apply (InsertRoundTrip.newest_first_head _ _ _); [|exact H].
  rewrite Forall_forall in Hold |- *. intros x Hx.
  apply filter_In in Hx. exact (Hold x (proj1 Hx)).
Qed.

(** Witness: a new example post inserted after two older ones. *)
Lemma getBySource_after_insert_witness :
  Forall (fun r => created_at r < 5000)
    [Scenarios.row_old; Scenarios.row_style; Scenarios.row_new] /\
  StoreInsert.getBrandVoiceEmbeddingsBySource
    (fst (StoreInsert.insertBrandVoiceEmbedding
            [Scenarios.row_old; Scenarios.row_style; Scenarios.row_new]
            (lit "row-9") 5000 Scenarios.newest_data))
    (StoreInsert.data_source Scenarios.newest_data)
    [Scenarios.row_newest; Scenarios.row_new; Scenarios.row_old] /\
  exists rest,
    [Scenarios.row_newest; Scenarios.row_new; Scenarios.row_old] =
      snd (StoreInsert.insertBrandVoiceEmbedding
             [Scenarios.row_old; Scenarios.row_style; Scenarios.row_new]
             (lit "row-9") 5000 Scenarios.newest_data) :: rest /\
    StoreInsert.getBrandVoiceEmbeddingsBySource
      [Scenarios.row_old; Scenarios.row_style; Scenarios.row_new]
      (StoreInsert.data_source Scenarios.newest_data) rest.
Proof.
  assert (H1 : Forall (fun r => created_at r < 5000)
                 [Scenarios.row_old; Scenarios.row_style; Scenarios.row_new])
    by (repeat constructor; simpl; lia).
  assert (H2 : StoreInsert.getBrandVoiceEmbeddingsBySource
    (fst (StoreInsert.insertBrandVoiceEmbedding
            [Scenarios.row_old; Scenarios.row_style; Scenarios.row_new]
            (lit "row-9") 5000 Scenarios.newest_data))
    (StoreInsert.data_source Scenarios.newest_data)
    [Scenarios.row_newest; Scenarios.row_new; Scenarios.row_old]).
  { split.
    - vm_compute. apply Permutation_sym, (Permutation_rev [_; _; _]).
    - repeat constructor; simpl; lia. }
  split; [exact H1|]. split; [exact H2|].
  exact (getBySource_after_insert _ _ _ _ _ H1 H2).
Defined.

Module PagingFacts.

Import HubSpot HubSpotPaging IngestionFacts.

Section Env.

Variable http : jsstr -> Outcome HttpReply.
Variable fetchPage : jsstr -> Outcome (option jsstr).
Hypothesis fetchPage_returns : forall u, fetchPage u <> Hang.

Lemma fetch_pages_chain (after : option jsstr) (chain : list (list HubSpotLandingPage)) :
  serves http after chain ->
  forall fuel acc, (List.length chain <= fuel)%nat ->
  fetch_pages http fuel after acc = Ret (acc ++ List.concat chain).
Proof.
  induction 1 as [after ps nxt H Hn | after ps a rest H Ha Hs IH];
    intros fuel acc Hf; (destruct fuel as [|fuel]; [simpl in Hf; lia|]);
    cbn [fetch_pages]; rewrite H; cbn [bind results next_after].
  - destruct Hn as [-> | ->]; simpl; rewrite app_nil_r; reflexivity.
  - destruct a as [|c a]; [congruence|].
    rewrite IH by (simpl in Hf; lia). simpl. rewrite app_assoc. reflexivity.
Qed.

Lemma extractPdfUrl_returns (u : jsstr) : exists r, extractPdfUrl fetchPage u = Ret r.
Proof.
  unfold extractPdfUrl. pose proof (fetchPage_returns u) as Hn.
  destruct (fetchPage u) as [[html|]| e |]; [| eauto | eauto | congruence].
  destruct (pdf_match html) as [[|c v]|]; eauto.
Qed.

Lemma transform_returns (page : HubSpotLandingPage) :
  exists c, transformLandingPage fetchPage page = Ret c /\
    content_id c = page_id page /\ contentType c = determineContentType page /\
    (pdfUrl c <> None -> contentType c = case_study).
Proof.
  unfold transformLandingPage.
  destruct (determineContentType page) eqn:Ed;
    try (eexists; split; [reflexivity|]; simpl; split; [reflexivity|];
         split; [reflexivity | intros H; exfalso; apply H; reflexivity]).
  destruct (url page) as [|ch u] eqn:Eu.
  - eexists; split; [reflexivity|]. simpl.
    split; [reflexivity|]. split; [reflexivity | intros _; reflexivity].
  - destruct (extractPdfUrl_returns (url page)) as (r & Er). rewrite <- Eu, Er.
    eexists; split; [reflexivity|]. simpl.
    split; [reflexivity|]. split; [reflexivity | intros _; reflexivity].
Qed.

Lemma transform_all_returns (pages : list HubSpotLandingPage) :
  exists cs, transform_all fetchPage pages = Ret cs /\
    map content_id cs = map page_id pages /\
    map contentType cs = map determineContentType pages /\
    Forall (fun c => pdfUrl c <> None -> contentType c = case_study) cs.
Proof.
  induction pages as [|page rest IH]; [exists []; simpl; auto|].
  destruct (transform_returns page) as (c & Ec & Hid & Hty & Hpdf).
  destruct IH as (cs & Ecs & Hids & Htys & Hpdfs).
  exists (c :: cs). simpl. rewrite Ec, Ecs. simpl.
  rewrite Hid, Hty, Hids, Htys. auto.
Qed.

End Env.

End PagingFacts.

(** X27. When the HubSpot server hands out the pages [chain] page by page,
    the first reply for the request without a cursor and each next one
    for the non-empty cursor the previous reply named, the last naming none
    (or an empty one), [fetchAllLandingPages] returns all of them
    concatenated in order (given fuel for as many requests as pages). *)
Theorem fetchAllLandingPages_concat (http : jsstr -> Outcome HubSpotPaging.HttpReply)
    (chain : list (list HubSpot.HubSpotLandingPage)) (fuel : nat) :
  HubSpotPaging.serves http None chain -> (List.length chain <= fuel)%nat ->
  HubSpotPaging.fetchAllLandingPages http fuel = Ret (List.concat chain).
Proof.
  intros Hs Hf. unfold HubSpotPaging.fetchAllLandingPages.
  exact (PagingFacts.fetch_pages_chain _ _ _ Hs _ [] Hf).
Qed.

(** X28. Over such a server, and with a page fetcher that always answers,
    [fetchPremiumContent(filter)] returns one content item per page that
    passes [filterLandingPages], in order, typed by [determineContentType];
    only case studies carry a [pdfUrl]. *)
Theorem fetchPremiumContent_over_pages (http : jsstr -> Outcome HubSpotPaging.HttpReply)
    (fetchPage : jsstr -> Outcome (option jsstr))
    (chain : list (list HubSpot.HubSpotLandingPage)) (fuel : nat)
    (filter : option HubSpot.LandingPageFilterConfig) :
  HubSpotPaging.serves http None chain -> (List.length chain <= fuel)%nat ->
  (forall u, fetchPage u <> Hang) ->
  exists contents,
    HubSpotPaging.fetchPremiumContent http fetchPage fuel filter = Ret contents /\
    map HubSpotPaging.content_id contents =
      map HubSpot.page_id (HubSpot.filterLandingPages (List.concat chain) filter) /\
    map HubSpotPaging.contentType contents =
      map HubSpot.determineContentType (HubSpot.filterLandingPages (List.concat chain) filter) /\
    Forall (fun c => HubSpotPaging.pdfUrl c <> None ->
                     HubSpotPaging.contentType c = HubSpot.case_study) contents.
Proof.
  intros Hs Hf Hn. unfold HubSpotPaging.fetchPremiumContent, HubSpotPaging.fetchAllLandingPages.
  rewrite (PagingFacts.fetch_pages_chain _ _ _ Hs _ [] Hf). cbn [bind app].
  exact (PagingFacts.transform_all_returns _ Hn _).
Qed.

(** Witness of X27: two requests, three pages. *)
Lemma fetchAllLandingPages_concat_witness :
  HubSpotPaging.serves Scenarios.two_page_portal None
    [[Scenarios.page_acme]; [Scenarios.page_guide; Scenarios.page_misc]] /\
  (List.length [[Scenarios.page_acme]; [Scenarios.page_guide; Scenarios.page_misc]] <= 5)%nat /\
  HubSpotPaging.fetchAllLandingPages Scenarios.two_page_portal 5 =
    Ret (List.concat [[Scenarios.page_acme]; [Scenarios.page_guide; Scenarios.page_misc]]).
Proof.
  assert (Hs : HubSpotPaging.serves Scenarios.two_page_portal None
                 [[Scenarios.page_acme]; [Scenarios.page_guide; Scenarios.page_misc]]).
  { apply (HubSpotPaging.serves_more _ _ _ (lit "c2")).
    - vm_compute. reflexivity.
    - discriminate.
    - apply (HubSpotPaging.serves_last _ _ _ None); [vm_compute; reflexivity | left; reflexivity]. }
  assert (Hf : (List.length [[Scenarios.page_acme]; [Scenarios.page_guide; Scenarios.page_misc]]
                <= 5)%nat) by (simpl; lia).
  split; [exact Hs|]. split; [exact Hf|].
  exact (fetchAllLandingPages_concat _ _ _ Hs Hf).
Defined.

(** Witness of X28: [fetchAllContent]'s filter over the same portal. *)
Lemma fetchPremiumContent_over_pages_witness :
  HubSpotPaging.serves Scenarios.two_page_portal None
    [[Scenarios.page_acme]; [Scenarios.page_guide; Scenarios.page_misc]] /\
  (List.length [[Scenarios.page_acme]; [Scenarios.page_guide; Scenarios.page_misc]] <= 5)%nat /\
  (forall u, Scenarios.no_page u <> Hang) /\
  exists contents,
    HubSpotPaging.fetchPremiumContent Scenarios.two_page_portal Scenarios.no_page 5
      (Some HubSpot.fetchAllContent_filter) = Ret contents /\
    map HubSpotPaging.content_id contents =
      map HubSpot.page_id (HubSpot.filterLandingPages
        (List.concat [[Scenarios.page_acme]; [Scenarios.page_guide; Scenarios.page_misc]])
        (Some HubSpot.fetchAllContent_filter)) /\
    map HubSpotPaging.contentType contents =
      map HubSpot.determineContentType (HubSpot.filterLandingPages
        (List.concat [[Scenarios.page_acme]; [Scenarios.page_guide; Scenarios.page_misc]])
        (Some HubSpot.fetchAllContent_filter)) /\
    Forall (fun c => HubSpotPaging.pdfUrl c <> None ->
                     HubSpotPaging.contentType c = HubSpot.case_study) contents.
Proof.
  assert (Hs : HubSpotPaging.serves Scenarios.two_page_portal None
                 [[Scenarios.page_acme]; [Scenarios.page_guide; Scenarios.page_misc]]).
  { apply (HubSpotPaging.serves_more _ _ _ (lit "c2")).
    - vm_compute. reflexivity.
    - discriminate.
    - apply (HubSpotPaging.serves_last _ _ _ None); [vm_compute; reflexivity | left; reflexivity]. }
  assert (Hf : (List.length [[Scenarios.page_acme]; [Scenarios.page_guide; Scenarios.page_misc]]
                <= 5)%nat) by (simpl; lia).
  assert (Hn : forall u, Scenarios.no_page u <> Hang) by (intros u; discriminate).
  split; [exact Hs|]. split; [exact Hf|]. split; [exact Hn|].
  exact (fetchPremiumContent_over_pages _ _ _ _ _ Hs Hf Hn).
Defined.
